(** * NinjaScan INS/GPS post-processor: a shallow embedding and its properties

    The development follows the C++ sources:
    - [tool/navigation] option parsing ([Options::check_spec]), the packet
      handlers of [StreamProcessor], the fusion controller
      [INS_GPS_NAV::Helper] and the sorting buffer of [loop];
    - [param/matrix.h] (two revisions of the dense matrix kernel).

    [float_sylph_t] is [double] in the sources; it is embedded as Rocq's
    primitive binary64 floats, so every comparison below has the IEEE-754
    meaning it has in the program.  The matrix kernel is a template over its
    element type and is embedded over a record of operations, instantiated
    with binary64 for evaluation and with a field for exact reasoning. *)

From Stdlib Require Import Floats ZArith String Ascii.
From mathcomp Require Import boot order algebra.
From mathcomp Require Import fingroup perm.
From mathcomp Require Import ring_tactic field_tactic lra.

Set Implicit Arguments.
Unset Strict Implicit.
Unset Printing Implicit Defensive.

(* MathComp binds the key Z to its own integers; binary integers keep a key. *)
Delimit Scope Z_scope with bz.

(** ** Binary64 numbers *)

Definition float_sylph_t := float.

Declare Scope sylph_scope.
Delimit Scope sylph_scope with fl.

(** C++ relational operators on [double]. *)
Definition f_le (x y : float) : bool := PrimFloat.leb x y.
Definition f_lt (x y : float) : bool := PrimFloat.ltb x y.
Definition f_ge (x y : float) : bool := PrimFloat.leb y x.
Definition f_gt (x y : float) : bool := PrimFloat.ltb y x.
Definition f_eq (x y : float) : bool := PrimFloat.eqb x y.
Definition f_ne (x y : float) : bool := ~~ PrimFloat.eqb x y.

Notation "x <= y" := (f_le x y) : sylph_scope.
Notation "x < y" := (f_lt x y) : sylph_scope.
Notation "x >= y" := (f_ge x y) : sylph_scope.
Notation "x > y" := (f_gt x y) : sylph_scope.
Notation "x + y" := (PrimFloat.add x y) : sylph_scope.
Notation "x - y" := (PrimFloat.sub x y) : sylph_scope.
Notation "x * y" := (PrimFloat.mul x y) : sylph_scope.
Notation "x / y" := (PrimFloat.div x y) : sylph_scope.
Notation "- x" := (PrimFloat.opp x) : sylph_scope.

(** Conversion of a container size ([size_t]) to [double]. *)
Definition f_of_nat (n : nat) : float :=
  PrimFloat.of_uint63 (Uint63.of_Z (Z.of_nat n)).

(** [std::floor] of <cmath> on a binary64 value, by its mantissa and exponent:
    infinities, NaN, zeros and values without fractional bits are returned
    as they are. *)
Definition f_floor (x : float) : float :=
  match Prim2SF x with
  | S754_finite s m e =>
      if Z.leb 0 e then x
      else
        let q := Z.shiftr (Zpos m) (- e) in
        let exact := Z.eqb (Z.shiftl q (- e)) (Zpos m) in
        if exact then x
        else if s
             then PrimFloat.opp (PrimFloat.of_uint63 (Uint63.of_Z (q + 1)))
             else PrimFloat.of_uint63 (Uint63.of_Z q)
  | _ => x
  end.

(** ** Facts on binary64 comparisons *)

Lemma SFcompare_antisym (x y : spec_float) :
  SFcompare y x = omap CompOpp (SFcompare x y).
Proof.
case: x => [sx|sx||sx mx ex]; case: y => [sy|sy||sy my ey] //=;
  try (by case: sx; case: sy); try (by case: sx); try (by case: sy).
case: sx; case: sy => //=; rewrite (Z.compare_antisym ex ey);
  case: (Z.compare ex ey) => //=;
  change (Pos.compare_cont Eq my mx) with (Pos.compare my mx);
  change (Pos.compare_cont Eq mx my) with (Pos.compare mx my);
  rewrite (Pos.compare_antisym mx my); by case: (Pos.compare mx my).
Qed.

Lemma is_nan_SF (x : float) :
  PrimFloat.is_nan x = false -> Prim2SF x <> S754_nan.
Proof.
rewrite /PrimFloat.is_nan FloatAxioms.eqb_spec => H E; move: H.
by rewrite E.
Qed.

Lemma SFcompare_some (x y : spec_float) :
  x <> S754_nan -> y <> S754_nan -> exists c, SFcompare x y = Some c.
Proof.
case: x => [sx|sx||sx mx ex]; case: y => [sy|sy||sy my ey] //= _ _;
  by eexists.
Qed.

(** When neither operand is NaN, [!(x <= y)] is [y < x]. *)
Lemma f_not_le_lt (x y : float) :
  PrimFloat.is_nan x = false -> PrimFloat.is_nan y = false ->
  f_le x y = false -> f_lt y x = true.
Proof.
move=> /is_nan_SF Hx /is_nan_SF Hy.
rewrite /f_le /f_lt FloatAxioms.leb_spec FloatAxioms.ltb_spec /SFleb /SFltb.
rewrite (SFcompare_antisym (Prim2SF x) (Prim2SF y)).
by case: (SFcompare_some Hx Hy) => c ->; case: c.
Qed.

Lemma f_lt_le (x y : float) : f_lt x y = true -> f_le x y = true.
Proof.
rewrite /f_le /f_lt FloatAxioms.leb_spec FloatAxioms.ltb_spec /SFleb /SFltb.
by case: (SFcompare _ _) => [[]|].
Qed.

Lemma f_lt_not_ge (x y : float) : f_lt x y = true -> f_le y x = false.
Proof.
rewrite /f_le /f_lt FloatAxioms.leb_spec FloatAxioms.ltb_spec /SFleb /SFltb.
rewrite (SFcompare_antisym (Prim2SF x) (Prim2SF y)).
by case: (SFcompare _ _) => [[]|].
Qed.

Lemma SFcompare_refl (x : spec_float) :
  x <> S754_nan -> SFcompare x x = Some Eq.
Proof.
case: x => [sx|sx||sx mx ex] //= _; try by case: sx.
rewrite Z.compare_refl.
change (Pos.compare_cont Eq mx mx) with (Pos.compare mx mx).
by rewrite Pos.compare_refl; case: sx.
Qed.

Lemma SF_not_nan (x : float) :
  Prim2SF x <> S754_nan -> PrimFloat.is_nan x = false.
Proof.
by move=> H; rewrite /PrimFloat.is_nan FloatAxioms.eqb_spec /SFeqb SFcompare_refl.
Qed.

Lemma f_le_not_nan (x y : float) :
  f_le x y = true -> PrimFloat.is_nan x = false /\ PrimFloat.is_nan y = false.
Proof.
rewrite /f_le FloatAxioms.leb_spec /SFleb => H.
by split; apply: SF_not_nan => E; move: H; rewrite E //; case: (Prim2SF x).
Qed.

(** ** Command-line options ([struct Options]) *)

Inductive sync_strategy_t :=
| INS_GPS_SYNC_OFFLINE
| INS_GPS_SYNC_BACK_PROPAGATION
| INS_GPS_SYNC_REALTIME.

Record gps_threshold_t := GpsThreshold {
  init_acc_2d : float;
  init_acc_v : float;
  cont_acc_2d : float
}.

(** [gps_threshold_t()] *)
Definition gps_threshold_default : gps_threshold_t :=
  GpsThreshold 20%float 10%float 100%float.

Inductive mode_t := NOT_GIVEN | YAW_ONLY | YAW_PITCH | FULL_GIVEN.

Definition mode_rank (m : mode_t) : nat :=
  match m with NOT_GIVEN => 0 | YAW_ONLY => 1 | YAW_PITCH => 2 | FULL_GIVEN => 3 end.

(** The cast [(mode_t)converted] of a positive [sscanf] count (at most 3). *)
Definition mode_of_count (n : nat) : mode_t :=
  match n with 0 => NOT_GIVEN | 1 => YAW_ONLY | 2 => YAW_PITCH | _ => FULL_GIVEN end.

Record initial_attitude_t := InitialAttitude {
  yaw_deg : float;
  pitch_deg : float;
  roll_deg : float;
  mode : mode_t
}.

Definition initial_attitude_default : initial_attitude_t :=
  InitialAttitude 0%float 0%float 0%float NOT_GIVEN.

Inductive time_stamp_mode_t := ITOW | CALENDAR_TIME.

Record time_stamp_t := TimeStampSpec {
  ts_mode : time_stamp_mode_t;
  ts_spec : option string
}.

(** What a call of [check_spec] ends with: it returns its boolean (with the
    options as it leaves them), or the process exits. *)
Inductive outcome (O : Type) :=
| Return (consumed : bool) (o : O)
| Exit (code : Z).
Arguments Exit {O} code.

Section OptionParsing.

(** The base class [GlobalOptions] (analyze_common.h), its tokenizer and the
    C library conversions are not part of the sources; they are taken as
    they are used. *)
Variable GlobalOptions : Type.
Variable super_check_spec : GlobalOptions -> string -> outcome GlobalOptions.
(** [get_key(spec, &key)]: the key of [spec], empty when its length is 0. *)
Variable get_key : string -> string.
(** [get_value(spec, key_length, accept_no_value)], [None] for [NULL]. *)
Variable get_value : string -> nat -> bool -> option string.
Variable is_true : option string -> bool.
Variable atof : string -> float.
(** [sscanf(spec, "%lf,%lf,%lf", ...)]: the count and the fields it wrote. *)
Variable sscanf3 : string -> float * float * float -> Z * (float * float * float).
(** [strtol(spec, &end, 10)], [None] when nothing was converted. *)
Variable strtol : string -> option Z.
Variable debug_property_t : Type.
Variable check_debug_property_spec : debug_property_t -> string -> bool * debug_property_t.

Record Options := MkOptions {
  super : GlobalOptions;
  dump_update : bool;
  dump_correct : bool;
  dump_stddev : bool;
  out_is_N_packet : bool;
  time_stamp : time_stamp_t;
  ins_gps_sync_strategy : sync_strategy_t;
  est_bias : bool;
  use_udkf : bool;
  use_egm : bool;
  back_propagate_depth : float;
  gps_fake_lock : bool;
  gps_threshold : gps_threshold_t;
  use_magnet : bool;
  mag_heading_accuracy_deg : float;
  yaw_correct_with_mag_when_speed_less_than_ms : float;
  initial_attitude : initial_attitude_t;
  init_misc_buf : seq string;
  init_misc_fname : option string;
  debug_property : debug_property_t
}.


(** [initial_attitude_t::parse] and [parse_yaw] *)
Definition parse (a : initial_attitude_t) (spec : string) : initial_attitude_t :=
  let '(converted, (y, p, r)) := sscanf3 spec (yaw_deg a, pitch_deg a, roll_deg a) in
  InitialAttitude y p r
    (if Z.ltb 0 converted then mode_of_count (Z.to_nat converted) else mode a).

Definition parse_yaw (a : initial_attitude_t) (spec : string) : initial_attitude_t :=
  InitialAttitude (atof spec) (pitch_deg a) (roll_deg a) YAW_ONLY.

(** [time_stamp_t::calendar_spec_parse]: [None] stands for [exit(-1)]. *)
Definition calendar_spec_parse (t : time_stamp_t) : option Z :=
  if is_true (ts_spec t) then Some Z0
  else match ts_spec t with
       | Some s => strtol s
       | None => None
       end.

(** [CHECK_KEY(name)], with the names [CHECK_ALIAS] put before it. *)
Definition check_key (key : string) (names : seq string) : bool :=
  has (String.eqb key) names.

(** [CHECK_OPTION(name, true, ...)]: the value may be absent. *)
Definition with_flag (o : Options) (spec key : string)
    (operation : option string -> Options) : outcome Options :=
  Return true (operation (get_value spec (String.length key) true)).

(** [CHECK_OPTION(name, false, ...)]: [return false] without a value. *)
Definition with_value (o : Options) (spec key : string)
    (operation : string -> outcome Options) : outcome Options :=
  match get_value spec (String.length key) false with
  | None => Return false o
  | Some value => operation value
  end.

Definition via_super (o : Options) (spec : string) : outcome Options :=
  match super_check_spec (super o) spec with
  | Return b g =>
      Return b (MkOptions g (dump_update o) (dump_correct o) (dump_stddev o)
        (out_is_N_packet o) (time_stamp o) (ins_gps_sync_strategy o)
        (est_bias o) (use_udkf o) (use_egm o) (back_propagate_depth o)
        (gps_fake_lock o) (gps_threshold o) (use_magnet o)
        (mag_heading_accuracy_deg o)
        (yaw_correct_with_mag_when_speed_less_than_ms o)
        (initial_attitude o) (init_misc_buf o) (init_misc_fname o)
        (debug_property o))
  | Exit c => Exit c
  end.

Definition set_strategy (o : Options) (s : sync_strategy_t) : Options :=
  MkOptions (super o) (dump_update o) (dump_correct o) (dump_stddev o)
    (out_is_N_packet o) (time_stamp o) s
    (est_bias o) (use_udkf o) (use_egm o) (back_propagate_depth o)
    (gps_fake_lock o) (gps_threshold o) (use_magnet o)
    (mag_heading_accuracy_deg o)
    (yaw_correct_with_mag_when_speed_less_than_ms o)
    (initial_attitude o) (init_misc_buf o) (init_misc_fname o)
    (debug_property o).

Definition set_gps_threshold (o : Options) (t : gps_threshold_t) : Options :=
  MkOptions (super o) (dump_update o) (dump_correct o) (dump_stddev o)
    (out_is_N_packet o) (time_stamp o) (ins_gps_sync_strategy o)
    (est_bias o) (use_udkf o) (use_egm o) (back_propagate_depth o)
    (gps_fake_lock o) t (use_magnet o)
    (mag_heading_accuracy_deg o)
    (yaw_correct_with_mag_when_speed_less_than_ms o)
    (initial_attitude o) (init_misc_buf o) (init_misc_fname o)
    (debug_property o).

Definition set_initial_attitude (o : Options) (a : initial_attitude_t) : Options :=
  MkOptions (super o) (dump_update o) (dump_correct o) (dump_stddev o)
    (out_is_N_packet o) (time_stamp o) (ins_gps_sync_strategy o)
    (est_bias o) (use_udkf o) (use_egm o) (back_propagate_depth o)
    (gps_fake_lock o) (gps_threshold o) (use_magnet o)
    (mag_heading_accuracy_deg o)
    (yaw_correct_with_mag_when_speed_less_than_ms o)
    a (init_misc_buf o) (init_misc_fname o)
    (debug_property o).

(** [Options::check_spec] *)
Definition check_spec (o : Options) (spec : string) : outcome Options :=
  let key := get_key spec in
  let value_of accept := get_value spec (String.length key) accept in
  if String.length key == 0 then via_super o spec
  else if check_key key [:: "dump-update"; "dump_update"]%string then
    with_flag o spec key (fun v =>
      MkOptions (super o) (is_true v) (dump_correct o) (dump_stddev o)
        (out_is_N_packet o) (time_stamp o) (ins_gps_sync_strategy o)
        (est_bias o) (use_udkf o) (use_egm o) (back_propagate_depth o)
        (gps_fake_lock o) (gps_threshold o) (use_magnet o)
        (mag_heading_accuracy_deg o)
        (yaw_correct_with_mag_when_speed_less_than_ms o)
        (initial_attitude o) (init_misc_buf o) (init_misc_fname o)
        (debug_property o))
  else if check_key key [:: "dump-correct"; "dump_correct"]%string then
    with_flag o spec key (fun v =>
      MkOptions (super o) (dump_update o) (is_true v) (dump_stddev o)
        (out_is_N_packet o) (time_stamp o) (ins_gps_sync_strategy o)
        (est_bias o) (use_udkf o) (use_egm o) (back_propagate_depth o)
        (gps_fake_lock o) (gps_threshold o) (use_magnet o)
        (mag_heading_accuracy_deg o)
        (yaw_correct_with_mag_when_speed_less_than_ms o)
        (initial_attitude o) (init_misc_buf o) (init_misc_fname o)
        (debug_property o))
  else if check_key key [:: "dump_stddev"]%string then
    with_flag o spec key (fun v =>
      MkOptions (super o) (dump_update o) (dump_correct o) (is_true v)
        (out_is_N_packet o) (time_stamp o) (ins_gps_sync_strategy o)
        (est_bias o) (use_udkf o) (use_egm o) (back_propagate_depth o)
        (gps_fake_lock o) (gps_threshold o) (use_magnet o)
        (mag_heading_accuracy_deg o)
        (yaw_correct_with_mag_when_speed_less_than_ms o)
        (initial_attitude o) (init_misc_buf o) (init_misc_fname o)
        (debug_property o))
  else if check_key key [:: "out_N_packet"; "out_is_N_packet"]%string then
    with_flag o spec key (fun v =>
      MkOptions (super o) (dump_update o) (dump_correct o) (dump_stddev o)
        (is_true v) (time_stamp o) (ins_gps_sync_strategy o)
        (est_bias o) (use_udkf o) (use_egm o) (back_propagate_depth o)
        (gps_fake_lock o) (gps_threshold o) (use_magnet o)
        (mag_heading_accuracy_deg o)
        (yaw_correct_with_mag_when_speed_less_than_ms o)
        (initial_attitude o) (init_misc_buf o) (init_misc_fname o)
        (debug_property o))
  else if check_key key [:: "calendar_time"]%string then
    let t := TimeStampSpec CALENDAR_TIME (value_of true) in
    (* the parsed specification is printed, which may exit *)
    if calendar_spec_parse t is Some _ then
      Return true
        (MkOptions (super o) (dump_update o) (dump_correct o) (dump_stddev o)
          (out_is_N_packet o) t (ins_gps_sync_strategy o)
          (est_bias o) (use_udkf o) (use_egm o) (back_propagate_depth o)
          (gps_fake_lock o) (gps_threshold o) (use_magnet o)
          (mag_heading_accuracy_deg o)
          (yaw_correct_with_mag_when_speed_less_than_ms o)
          (initial_attitude o) (init_misc_buf o) (init_misc_fname o)
          (debug_property o))
    else Exit (Zneg xH)
  else if check_key key [:: "back_propagate"]%string then
    with_flag o spec key (fun v =>
      if is_true v then set_strategy o INS_GPS_SYNC_BACK_PROPAGATION else o)
  else if check_key key [:: "realtime"]%string then
    with_flag o spec key (fun v =>
      if is_true v then set_strategy o INS_GPS_SYNC_REALTIME else o)
  else if check_key key [:: "est_bias"]%string then
    with_flag o spec key (fun v =>
      MkOptions (super o) (dump_update o) (dump_correct o) (dump_stddev o)
        (out_is_N_packet o) (time_stamp o) (ins_gps_sync_strategy o)
        (is_true v) (use_udkf o) (use_egm o) (back_propagate_depth o)
        (gps_fake_lock o) (gps_threshold o) (use_magnet o)
        (mag_heading_accuracy_deg o)
        (yaw_correct_with_mag_when_speed_less_than_ms o)
        (initial_attitude o) (init_misc_buf o) (init_misc_fname o)
        (debug_property o))
  else if check_key key [:: "use_udkf"]%string then
    with_flag o spec key (fun v =>
      MkOptions (super o) (dump_update o) (dump_correct o) (dump_stddev o)
        (out_is_N_packet o) (time_stamp o) (ins_gps_sync_strategy o)
        (est_bias o) (is_true v) (use_egm o) (back_propagate_depth o)
        (gps_fake_lock o) (gps_threshold o) (use_magnet o)
        (mag_heading_accuracy_deg o)
        (yaw_correct_with_mag_when_speed_less_than_ms o)
        (initial_attitude o) (init_misc_buf o) (init_misc_fname o)
        (debug_property o))
  else if check_key key [:: "use_egm"]%string then
    with_flag o spec key (fun v =>
      MkOptions (super o) (dump_update o) (dump_correct o) (dump_stddev o)
        (out_is_N_packet o) (time_stamp o) (ins_gps_sync_strategy o)
        (est_bias o) (use_udkf o) (is_true v) (back_propagate_depth o)
        (gps_fake_lock o) (gps_threshold o) (use_magnet o)
        (mag_heading_accuracy_deg o)
        (yaw_correct_with_mag_when_speed_less_than_ms o)
        (initial_attitude o) (init_misc_buf o) (init_misc_fname o)
        (debug_property o))
  else if check_key key [:: "bp_depth"]%string then
    with_value o spec key (fun value => Return true
      (MkOptions (super o) (dump_update o) (dump_correct o) (dump_stddev o)
        (out_is_N_packet o) (time_stamp o) (ins_gps_sync_strategy o)
        (est_bias o) (use_udkf o) (use_egm o) (atof value)
        (gps_fake_lock o) (gps_threshold o) (use_magnet o)
        (mag_heading_accuracy_deg o)
        (yaw_correct_with_mag_when_speed_less_than_ms o)
        (initial_attitude o) (init_misc_buf o) (init_misc_fname o)
        (debug_property o)))
  else if check_key key [:: "fake_lock"; "gps_fake_lock"]%string then
    with_flag o spec key (fun v =>
      MkOptions (super o) (dump_update o) (dump_correct o) (dump_stddev o)
        (out_is_N_packet o) (time_stamp o) (ins_gps_sync_strategy o)
        (est_bias o) (use_udkf o) (use_egm o) (back_propagate_depth o)
        (is_true v) (gps_threshold o) (use_magnet o)
        (mag_heading_accuracy_deg o)
        (yaw_correct_with_mag_when_speed_less_than_ms o)
        (initial_attitude o) (init_misc_buf o) (init_misc_fname o)
        (debug_property o))
  else if check_key key [:: "gps_init_acc_2d"]%string then
    with_value o spec key (fun value => Return true
      (set_gps_threshold o
        (GpsThreshold (atof value) (init_acc_v (gps_threshold o))
           (cont_acc_2d (gps_threshold o)))))
  else if check_key key [:: "gps_init_acc_v"]%string then
    with_value o spec key (fun value => Return true
      (set_gps_threshold o
        (GpsThreshold (init_acc_2d (gps_threshold o)) (atof value)
           (cont_acc_2d (gps_threshold o)))))
  else if check_key key [:: "gps_cont_acc_2d"]%string then
    with_value o spec key (fun value => Return true
      (set_gps_threshold o
        (GpsThreshold (init_acc_2d (gps_threshold o))
           (init_acc_v (gps_threshold o)) (atof value))))
  else if check_key key [:: "use_magnet"]%string then
    with_flag o spec key (fun v =>
      MkOptions (super o) (dump_update o) (dump_correct o) (dump_stddev o)
        (out_is_N_packet o) (time_stamp o) (ins_gps_sync_strategy o)
        (est_bias o) (use_udkf o) (use_egm o) (back_propagate_depth o)
        (gps_fake_lock o) (gps_threshold o) (is_true v)
        (mag_heading_accuracy_deg o)
        (yaw_correct_with_mag_when_speed_less_than_ms o)
        (initial_attitude o) (init_misc_buf o) (init_misc_fname o)
        (debug_property o))
  else if check_key key [:: "mag_heading_accuracy_deg"]%string then
    with_value o spec key (fun value => Return true
      (MkOptions (super o) (dump_update o) (dump_correct o) (dump_stddev o)
        (out_is_N_packet o) (time_stamp o) (ins_gps_sync_strategy o)
        (est_bias o) (use_udkf o) (use_egm o) (back_propagate_depth o)
        (gps_fake_lock o) (gps_threshold o) (use_magnet o)
        (atof value)
        (yaw_correct_with_mag_when_speed_less_than_ms o)
        (initial_attitude o) (init_misc_buf o) (init_misc_fname o)
        (debug_property o)))
  else if check_key key [:: "yaw_correct_with_mag_when_speed_less_than_ms"]%string then
    with_value o spec key (fun value => Return true
      (MkOptions (super o) (dump_update o) (dump_correct o) (dump_stddev o)
        (out_is_N_packet o) (time_stamp o) (ins_gps_sync_strategy o)
        (est_bias o) (use_udkf o) (use_egm o) (back_propagate_depth o)
        (gps_fake_lock o) (gps_threshold o) (use_magnet o)
        (mag_heading_accuracy_deg o)
        (atof value)
        (initial_attitude o) (init_misc_buf o) (init_misc_fname o)
        (debug_property o)))
  else if check_key key [:: "init-attitude-deg"; "init_attitude_deg"]%string then
    with_value o spec key (fun value => Return true
      (set_initial_attitude o (parse (initial_attitude o) value)))
  else if check_key key [:: "init-yaw-deg"; "init_yaw_deg"]%string then
    with_value o spec key (fun value => Return true
      (set_initial_attitude o (parse_yaw (initial_attitude o) value)))
  else if check_key key [:: "init_misc"]%string then
    with_value o spec key (fun value => Return true
      (MkOptions (super o) (dump_update o) (dump_correct o) (dump_stddev o)
        (out_is_N_packet o) (time_stamp o) (ins_gps_sync_strategy o)
        (est_bias o) (use_udkf o) (use_egm o) (back_propagate_depth o)
        (gps_fake_lock o) (gps_threshold o) (use_magnet o)
        (mag_heading_accuracy_deg o)
        (yaw_correct_with_mag_when_speed_less_than_ms o)
        (initial_attitude o) (rcons (init_misc_buf o) value) (init_misc_fname o)
        (debug_property o)))
  else if check_key key [:: "init_misc_fname"]%string then
    with_value o spec key (fun value => Return true
      (MkOptions (super o) (dump_update o) (dump_correct o) (dump_stddev o)
        (out_is_N_packet o) (time_stamp o) (ins_gps_sync_strategy o)
        (est_bias o) (use_udkf o) (use_egm o) (back_propagate_depth o)
        (gps_fake_lock o) (gps_threshold o) (use_magnet o)
        (mag_heading_accuracy_deg o)
        (yaw_correct_with_mag_when_speed_less_than_ms o)
        (initial_attitude o) (init_misc_buf o) (Some value)
        (debug_property o)))
  else if check_key key [:: "debug"]%string then
    with_value o spec key (fun value =>
      let '(ok, d) := check_debug_property_spec (debug_property o) value in
      let o' :=
        MkOptions (super o) (dump_update o) (dump_correct o) (dump_stddev o)
          (out_is_N_packet o) (time_stamp o) (ins_gps_sync_strategy o)
          (est_bias o) (use_udkf o) (use_egm o) (back_propagate_depth o)
          (gps_fake_lock o) (gps_threshold o) (use_magnet o)
          (mag_heading_accuracy_deg o)
          (yaw_correct_with_mag_when_speed_less_than_ms o)
          (initial_attitude o) (init_misc_buf o) (init_misc_fname o) d in
      if ok then Return true o' else via_super o' spec)
  else via_super o spec.


(** *** Facts on option parsing *)





(** *** The strategy a command line selects *)




(** The tests of the key, one name at a time. *)
Ltac split_key :=
  match goal with
  | |- context [String.eqb ?k ?lit] =>
      is_var k;
      let E := fresh "E" in
      case E: (String.eqb k lit);
      [ move/String.eqb_eq: E => E; subst k; simpl | simpl ]
  end.




(** *** What [check_spec] does with an argument *)

(** The options that are flags, and those that need a value. *)
Definition flag_options : seq string :=
  [:: "dump-update"; "dump_update"; "dump-correct"; "dump_correct";
      "dump_stddev"; "out_N_packet"; "out_is_N_packet"; "back_propagate";
      "realtime"; "est_bias"; "use_udkf"; "use_egm"; "fake_lock";
      "gps_fake_lock"; "use_magnet"]%string.

Definition value_options : seq string :=
  [:: "bp_depth"; "gps_init_acc_2d"; "gps_init_acc_v"; "gps_cont_acc_2d";
      "mag_heading_accuracy_deg";
      "yaw_correct_with_mag_when_speed_less_than_ms";
      "init-attitude-deg"; "init_attitude_deg"; "init-yaw-deg";
      "init_yaw_deg"; "init_misc"; "init_misc_fname"; "debug"]%string.

Ltac outcome_branch :=
  rewrite /with_flag /with_value /=;
  split=> //;
  try (by move=> _; eexists; reflexivity);
  try (by move=> _ ->).

(** A flag is consumed whatever its value is.  An option that needs a value
    and has none is not consumed, and leaves the options as they were.  An
    argument that is none of these options nor [calendar_time] is handed
    to the options of the base class. *)
Theorem check_spec_outcomes (o : Options) (spec : string) :
  let key := get_key spec in
  [/\ check_key key flag_options ->
        exists o', check_spec o spec = Return true o',
      check_key key value_options ->
        get_value spec (String.length key) false = None ->
        check_spec o spec = Return false o &
      ~~ check_key key (flag_options ++ value_options ++ [:: "calendar_time"%string]) ->
        check_spec o spec = via_super o spec].
Proof.
rewrite /check_spec /check_key /=.
move: (get_key spec) => key.
case E0: (String.length key == 0).
  have ->: key = EmptyString by case: key E0.
  by split.
do 29! [split_key; first by outcome_branch].
by outcome_branch.
Qed.

End OptionParsing.











(** ** Packets *)

(** [Vector3<float_sylph_t>] (param/vector3.h, not part of the sources):
    three components, with the componentwise operations the controller uses. *)
Record vec3_t := Vec3 { v_x : float; v_y : float; v_z : float }.

Definition vec3_add (a b : vec3_t) : vec3_t :=
  Vec3 (v_x a + v_x b)%fl (v_y a + v_y b)%fl (v_z a + v_z b)%fl.
Definition vec3_scale (a : vec3_t) (k : float) : vec3_t :=
  Vec3 (v_x a * k)%fl (v_y a * k)%fl (v_z a * k)%fl.
Definition vec3_div (a : vec3_t) (k : float) : vec3_t :=
  Vec3 (v_x a / k)%fl (v_y a / k)%fl (v_z a / k)%fl.
Definition vec3_zero : vec3_t := Vec3 0%float 0%float 0%float.

Record A_Packet := APacket {
  a_itow : float;
  accel : vec3_t;
  omega : vec3_t
}.

Record GPS_Solution := GpsSolution {
  latitude : float;
  longitude : float;
  height : float;
  v_n : float;
  v_e : float;
  v_d : float;
  sigma_2d : float;
  sigma_height : float;
  sigma_vel : float
}.

Record G_Packet := GPacket {
  g_itow : float;
  solution : GPS_Solution;
  lever_arm : option vec3_t
}.

Record M_Packet := MPacket {
  m_itow : float;
  mag : vec3_t
}.

Record TimePacket := TPacket {
  t_itow : float;
  week_num : Z;
  leap_sec : Z;
  valid_week_num : bool;
  valid_leap_sec : bool
}.

(** [Packet] with its four subclasses. *)
Inductive Packet :=
| PacketA (p : A_Packet)
| PacketG (p : G_Packet)
| PacketM (p : M_Packet)
| PacketT (p : TimePacket).

Definition itow (p : Packet) : float :=
  match p with
  | PacketA a => a_itow a
  | PacketG g => g_itow g
  | PacketM m => m_itow m
  | PacketT t => t_itow t
  end.

Definition one_week : float := 604800%float.

(** [Packet::interval]: positive when [another] is later. *)
Definition interval (this another : float) : float := (another - this)%fl.

(** [Packet::interval_rollover] *)
Definition interval_rollover (this another : float) : float :=
  let delta := (another - this)%fl in
  (delta - f_floor (delta / one_week + 0.5) * one_week)%fl.

(** [Packet::compare_rollover] *)
Definition compare_rollover (a b : Packet) : bool :=
  (interval_rollover (itow a) (itow b) > 0)%fl.

(** ** Page handlers of [StreamProcessor] *)

Definition f_of_Z (z : Z) : float :=
  if Z.ltb z 0 then PrimFloat.opp (PrimFloat.of_uint63 (Uint63.of_Z (Z.opp z)))
  else PrimFloat.of_uint63 (Uint63.of_Z z).

(** What the handlers read from the page observers (SylphideProcessor.h,
    not part of the sources). *)
Record A_Observer_t := AObserver {
  a_validate : bool;
  a_fetch_ITOW : float;
  a_values : seq Z;
  a_temperature : Z
}.

Record M_Observer_t := MObserver {
  m_validate : bool;
  m_fetch_ITOW : float;
  m_values_x : seq Z;
  m_values_y : seq Z;
  m_values_z : seq Z
}.

Section Handlers.

(** [options.reduce_1pps_sync_error], a member of [GlobalOptions]. *)
Variable reduce_1pps_sync_error : bool.
(** [StandardCalibration::raw2accel] and [raw2omega] on the nine channels. *)
Variable raw2accel raw2omega : seq Z -> vec3_t.

(** [AHandler::operator()]: the handler keeps [packet_latest]; the result is
    the packet handed to [updatable->update], if any. *)
Definition AHandler_call (packet_latest : A_Packet) (observer : A_Observer_t)
    : A_Packet * option A_Packet :=
  if ~~ a_validate observer then (packet_latest, None)
  else
    let itow0 := a_fetch_ITOW observer in
    let itow1 :=
      if reduce_1pps_sync_error then
        let delta_t := (itow0 - a_itow packet_latest)%fl in
        if (delta_t >= 1)%fl && (delta_t < 2)%fl then (itow0 - 1)%fl else itow0
      else itow0 in
    let ch := take 8 (a_values observer) ++ [:: a_temperature observer] in
    let p := APacket itow1 (raw2accel ch) (raw2omega ch) in
    (p, Some p).

Definition abs_diff (a b : Z) : Z := Z.abs (a - b).

(** The outlier test of [MHandler::operator()] on one axis. *)
Definition m_outlier (target : seq Z) : bool :=
  has (fun i =>
         let diff_abs := abs_diff (nth Z0 target i) (nth Z0 target 3) in
         Z.ltb 200 diff_abs && Z.ltb diff_abs (4096 * 2 - 200))
      (iota 0 3).

(** [MHandler::operator()] *)
Definition MHandler_call (packet_latest : M_Packet) (observer : M_Observer_t)
    : M_Packet * option M_Packet :=
  if ~~ m_validate observer then (packet_latest, None)
  else if has m_outlier
            [:: m_values_x observer; m_values_y observer; m_values_z observer]
  then (packet_latest, None)
  else
    let itow0 := m_fetch_ITOW observer in
    let itow1 :=
      if reduce_1pps_sync_error then
        let delta_t := (itow0 - m_itow packet_latest)%fl in
        if (delta_t >= 1)%fl && (delta_t < 2)%fl then (itow0 - 1)%fl else itow0
      else itow0 in
    let p := MPacket itow1
               (Vec3 (f_of_Z (nth Z0 (m_values_x observer) 3))
                     (f_of_Z (nth Z0 (m_values_y observer) 3))
                     (f_of_Z (nth Z0 (m_values_z observer) 3))) in
    (p, Some p).

(** *** Facts on the 1 PPS reduction *)

(** C7 (as the code has it).  With [reduce_1pps_sync_error] on, a validated
    A page (and a validated M page that passes the outlier test) whose
    time of week is in [1, 2) seconds after that of the previous delivered
    packet is delivered with exactly one second subtracted, and otherwise
    with its own time of week; the delivered packet becomes the previous
    one.  With the option off the time of week is never changed. *)
Theorem pps_glitch_reduction
    (latest_a : A_Packet) (oa : A_Observer_t)
    (latest_m : M_Packet) (om : M_Observer_t) :
  a_validate oa = true ->
  m_validate om = true ->
  has m_outlier [:: m_values_x om; m_values_y om; m_values_z om] = false ->
  let da := (a_fetch_ITOW oa - a_itow latest_a)%fl in
  let dm := (m_fetch_ITOW om - m_itow latest_m)%fl in
  let in_window d := (d >= 1)%fl && (d < 2)%fl in
  (exists pa, AHandler_call latest_a oa = (pa, Some pa) /\
     a_itow pa =
       if reduce_1pps_sync_error && in_window da
       then (a_fetch_ITOW oa - 1)%fl else a_fetch_ITOW oa) /\
  (exists pm, MHandler_call latest_m om = (pm, Some pm) /\
     m_itow pm =
       if reduce_1pps_sync_error && in_window dm
       then (m_fetch_ITOW om - 1)%fl else m_fetch_ITOW om).
Proof.
move=> Va Vm Hm da dm in_window; split.
- rewrite /AHandler_call Va /=; eexists; split; first by [].
  by rewrite /= -/da; case: reduce_1pps_sync_error.
- rewrite /MHandler_call Vm Hm /=; eexists; split; first by [].
  by rewrite /= -/dm; case: reduce_1pps_sync_error.
Qed.

End Handlers.

Definition demo_A_page : A_Observer_t :=
  AObserver true 11.5%float [:: Z0; Z0; Z0; Z0; Z0; Z0; Z0; Z0] Z0.
Definition demo_M_page : M_Observer_t :=
  MObserver true 21.25%float [:: 5; 5; 5; 5]%bz [:: 7; 7; 7; 7]%bz [:: 9; 9; 9; 9]%bz.
Definition demo_A_latest : A_Packet := APacket 10%float vec3_zero vec3_zero.
Definition demo_M_latest : M_Packet := MPacket 20%float vec3_zero.

Lemma pps_glitch_reduction_witness :
  (exists pa,
     AHandler_call true (fun _ => vec3_zero) (fun _ => vec3_zero)
       demo_A_latest demo_A_page = (pa, Some pa) /\
     a_itow pa = 10.5%float) /\
  (exists pm,
     MHandler_call true demo_M_latest demo_M_page = (pm, Some pm) /\
     m_itow pm = 20.25%float).
Proof.
exact: (@pps_glitch_reduction true (fun _ => vec3_zero) (fun _ => vec3_zero)
  demo_A_latest demo_A_page demo_M_latest demo_M_page erefl erefl erefl).
Defined.

(** C7 as stated fails when the option is off: the A page at 11.5 s that
    follows the packet at 10 s is delivered at 11.5 s. *)
Lemma pps_glitch_kept_when_option_off :
  AHandler_call false (fun _ => vec3_zero) (fun _ => vec3_zero)
    demo_A_latest demo_A_page
  = (APacket 11.5%float vec3_zero vec3_zero,
     Some (APacket 11.5%float vec3_zero vec3_zero)) /\
  ((11.5 - 10 >= 1)%fl && (11.5 - 10 < 2)%fl) = true.
Proof. by split; vm_compute. Qed.

(** ** The fusion controller ([INS_GPS_NAV<INS_GPS>::Helper]) *)

Inductive status_t :=
| UNINITIALIZED
| JUST_INITIALIZED
| TIME_UPDATED
| MEASUREMENT_UPDATED
| WAITING_UPDATE.

Definition status_rank (s : status_t) : nat :=
  match s with
  | UNINITIALIZED => 0
  | JUST_INITIALIZED => 1
  | TIME_UPDATED => 2
  | MEASUREMENT_UPDATED => 3
  | WAITING_UPDATE => 4
  end.

(** [status >= JUST_INITIALIZED] *)
Definition initialized (s : status_t) : bool := 1 <= status_rank s.

(** [PacketBuffer<T>]: a deque with its oldest element first. *)
Record PacketBuffer (T : Type) := MkPacketBuffer {
  max_size : nat;
  buf : seq T
}.

Definition push (T : Type) (b : PacketBuffer T) (packet : T) : PacketBuffer T :=
  MkPacketBuffer (max_size b)
    (rcons (if max_size b <= size (buf b) then behead (buf b) else buf b) packet).

(** [NAV::nearest]: the index of the returned iterator.  The loop runs while
    more than [group_size] elements remain after [it_head]. *)
Fixpoint nearest_loop (itows : seq float) (t : float) (eval_offset : nat)
    (remaining head : nat) : nat :=
  match remaining with
  | 0 => head
  | remaining'.+1 =>
      if (nth 0%float itows (head + eval_offset) >= t)%fl then head
      else nearest_loop itows t eval_offset remaining' head.+1
  end.

Definition nearest (itows : seq float) (t : float) (group_size : nat) : nat :=
  nearest_loop itows t (group_size %/ 2) (size itows - group_size) 0.

(** *** [PacketBuffer::push] keeps the most recent packets *)

Lemma push_max_size (T : Type) (b : PacketBuffer T) (ps : seq T) :
  max_size (foldl (@push T) b ps) = max_size b.
Proof. by elim: ps b => [|p ps IH] b //=; rewrite IH. Qed.

Lemma push_recent (T : Type) (b : PacketBuffer T) (all : seq T) (p : T) :
  0 < max_size b ->
  buf b = drop (size all - max_size b) all ->
  buf (push b p) = drop (size (rcons all p) - max_size b) (rcons all p).
Proof.
move=> Hm Hb; rewrite /push /= Hb size_drop size_rcons.
case: (leqP (max_size b) (size all)) => Hle.
- have Hlt: (size all - max_size b).+1 <= size all.
    by rewrite -subSn // leq_subLR -[X in X <= _]add1n leq_add2r.
  by rewrite subKn // leqnn subSn // -drop1 drop_drop add1n drop_rcons.
- have E: size all - max_size b = 0 by apply/eqP; rewrite subn_eq0 ltnW.
  rewrite E subn0 leqNgt Hle /= drop0.
  have ->: (size all).+1 - max_size b = 0 by apply/eqP; rewrite subn_eq0.
  by rewrite drop0.
Qed.

Lemma push_run (T : Type) (m : nat) (ps : seq T) :
  0 < m ->
  buf (foldl (@push T) (MkPacketBuffer m [::]) ps) = drop (size ps - m) ps.
Proof.
move=> Hm; elim/last_ind: ps => [|ps p IH] //.
rewrite -cats1 foldl_cat cats1.
set b0 := foldl _ _ ps in IH *.
have E: max_size b0 = m by rewrite push_max_size.
have Hm': 0 < max_size b0 by rewrite E.
have Hb: buf b0 = drop (size ps - max_size b0) ps by rewrite E.
by rewrite -E -(push_recent p Hm' Hb).
Qed.

(** A buffer filled by [push] holds the most recent packets, the oldest
    first: all of them while there are at most [max_size], and the last
    [max_size] of them from then on. *)
Theorem push_holds_most_recent (T : Type) (m : nat) (ps : seq T) :
  0 < m ->
  let b := foldl (@push T) (MkPacketBuffer m [::]) ps in
  buf b = drop (size ps - m) ps /\ size (buf b) = minn (size ps) m.
Proof.
move=> Hm b; rewrite /b push_run //; split=> //; rewrite size_drop.
by case: (leqP (size ps) m) => Hle; [rewrite (eqP Hle : size ps - m = 0) subn0
  | rewrite subKn // ltnW].
Qed.

Lemma push_holds_most_recent_witness :
  buf (foldl (@push nat) (MkPacketBuffer 2 [::]) [:: 1; 2; 3]) = [:: 2; 3].
Proof.
exact: (proj1 (@push_holds_most_recent nat 2 [:: 1; 2; 3] (erefl true))).
Defined.

Definition A_Packet_zero : A_Packet := APacket 0%float vec3_zero vec3_zero.
Definition M_Packet_zero : M_Packet := MPacket 0%float vec3_zero.

Section Controller.

(** The inertial filter [INS_GPS] (navigation/INS_GPS_*.h), the magnetic
    model and libm are not part of the sources: the filter is a state with
    the operations the controller calls. *)
Variable INS : Type.
Variable TimeStamp : Type.
Variable TSG : Type.
Variable ins_update : INS -> vec3_t -> vec3_t -> float -> INS.
Variable ins_correct : INS -> G_Packet -> INS.
Variable ins_correct_lever : INS -> G_Packet -> vec3_t -> vec3_t -> INS.
Variable ins_correct_yaw : INS -> float -> float -> INS.
Variable ins_initPosition ins_initVelocity ins_initAttitude :
  INS -> float -> float -> float -> INS.
Variable ins_init_misc : INS -> string -> INS.
(** [true] when the filter is an [INS_GPS_RealTime<...>]. *)
Variable is_realtime : bool.
Variable ins_setup_correct : INS -> float -> bool * INS.
Variable get_mag_yaw : vec3_t -> float -> float -> float -> float -> float -> float.
Variable get_mag_delta_yaw : vec3_t -> INS -> float.
Variable tsg_update : TSG -> TimePacket -> TSG.
Variable t_stamp : TSG -> float -> TimeStamp.
Variable vec3_abs : vec3_t -> float.
Variable f_atan2 f_pow : float -> float -> float.
Variable deg2rad f_asin : float -> float.

(** The fields of [options] the controller reads. *)
Variable opt_gps_threshold : gps_threshold_t.
Variable opt_initial_attitude : initial_attitude_t.
Variable opt_yaw_correct_with_mag_when_speed_less_than_ms : float.
Variable opt_mag_heading_accuracy_deg : float.
Variable opt_init_misc : seq string.

(** [INS_NAVData]: the filter with the header of its next output record. *)
Record ins_gps_t := MkInsGps {
  pure_ins : INS;
  header_mode : string;
  header_itow : option TimeStamp
}.

Definition set_header (n : ins_gps_t) (m : string) : ins_gps_t :=
  MkInsGps (pure_ins n) m (header_itow n).

Definition set_header_at (n : ins_gps_t) (m : string) (t : TimeStamp) : ins_gps_t :=
  MkInsGps (pure_ins n) m (Some t).

Definition on_ins (n : ins_gps_t) (f : INS -> INS) : ins_gps_t :=
  MkInsGps (f (pure_ins n)) (header_mode n) (header_itow n).

Record Helper := MkHelper {
  status : status_t;
  ins_gps : ins_gps_t;
  min_a_packets_for_init : nat;
  recent_a : PacketBuffer A_Packet;
  recent_m : PacketBuffer M_Packet;
  t_stamp_generator : TSG
}.

(** [Helper::Helper] *)
Definition Helper_new (n : ins_gps_t) (g : TSG) : Helper :=
  let min_a := if mode opt_initial_attitude is FULL_GIVEN then 1 else 16 in
  MkHelper UNINITIALIZED n min_a
    (MkPacketBuffer (maxn min_a 256) [::])
    (MkPacketBuffer 16 [::]) g.

Definition with_status (h : Helper) (s : status_t) : Helper :=
  MkHelper s (ins_gps h) (min_a_packets_for_init h) (recent_a h) (recent_m h)
    (t_stamp_generator h).

Definition with_ins_gps (h : Helper) (n : ins_gps_t) : Helper :=
  MkHelper (status h) n (min_a_packets_for_init h) (recent_a h) (recent_m h)
    (t_stamp_generator h).

(** [Helper::get_mag] *)
Definition get_mag (h : Helper) (t : float) : vec3_t :=
  let ms := buf (recent_m h) in
  if size ms < 2 then Vec3 1%float 0%float 0%float
  else
    let ia := nearest (map m_itow ms) t 2 in
    let it_a := nth M_Packet_zero ms ia in
    let it_b := nth M_Packet_zero ms ia.+1 in
    let weight_a := ((m_itow it_b - t) / (m_itow it_b - m_itow it_a))%fl in
    let weight_b := (1 - weight_a)%fl in
    let '(weight_a, weight_b) :=
      if (weight_a > 3)%fl then (1%float, 0%float)
      else if (weight_b > 3)%fl then (0%float, 1%float)
      else (weight_a, weight_b) in
    vec3_add (vec3_scale (mag it_a) weight_a) (vec3_scale (mag it_b) weight_b).

(** [Helper::before_any_update] *)
Definition before_any_update (h : Helper) : Helper :=
  if initialized (status h) then with_status h WAITING_UPDATE else h.

(** [Helper::compass] *)
Definition compass (h : Helper) (packet : M_Packet) : Helper :=
  MkHelper (status h) (ins_gps h) (min_a_packets_for_init h) (recent_a h)
    (push (recent_m h) packet) (t_stamp_generator h).

Definition INTERVAL_THRESHOLD : float := 10%float.

(** [Helper::time_update(const A_Packet &, float_t deltaT)]: the interval
    after the roll-over check, and the update it guards. *)
Definition rollover_checked (deltaT : float) : float :=
  if (deltaT <= - (one_week / 2))%fl then (deltaT + one_week)%fl else deltaT.

Definition time_update_by (h : Helper) (a_packet : A_Packet) (deltaT : float)
    : Helper :=
  let deltaT := rollover_checked deltaT in
  if (deltaT <= 0)%fl || (deltaT >= INTERVAL_THRESHOLD)%fl then h
  else
    with_status
      (with_ins_gps h
         (on_ins (ins_gps h)
            (fun i => ins_update i (accel a_packet) (omega a_packet) deltaT)))
      TIME_UPDATED.

Definition push_a (h : Helper) (a_packet : A_Packet) : Helper :=
  MkHelper (status h) (ins_gps h) (min_a_packets_for_init h)
    (push (recent_a h) a_packet) (recent_m h) (t_stamp_generator h).

(** [Helper::time_update(const A_Packet &)].  [buf.back()] is read only
    after initialization, which needs a buffered A packet. *)
Definition time_update (h : Helper) (a_packet : A_Packet) : Helper :=
  let h1 :=
    if initialized (status h) then
      let previous := last A_Packet_zero (buf (recent_a h)) in
      let deltaT := interval (a_itow previous) (a_itow a_packet) in
      let h' := time_update_by h a_packet deltaT in
      with_ins_gps h'
        (set_header_at (ins_gps h') "TU"
           (t_stamp (t_stamp_generator h') (a_itow a_packet)))
    else h in
  push_a h1 a_packet.

(** [Helper::time_update_after_initialization]: the buffered A packets that
    follow the last one not later than the G packet are replayed. *)
Definition packets_after (g_packet : G_Packet) (s : seq A_Packet) : seq A_Packet :=
  let n := find (fun a => (interval_rollover (g_itow g_packet) (a_itow a) <= 0)%fl)
             (rev s) in
  drop (size s - n) s.

Fixpoint replay (h : Helper) (previous : float) (s : seq A_Packet) : Helper :=
  match s with
  | [::] => h
  | a :: s' =>
      replay (time_update_by h a (interval previous (a_itow a))) (a_itow a) s'
  end.

Definition time_update_after_initialization (h : Helper) (g_packet : G_Packet)
    : Helper :=
  let h' := replay h (g_itow g_packet)
              (packets_after g_packet (buf (recent_a h))) in
  with_ins_gps h'
    (set_header_at (ins_gps h') "MU"
       (t_stamp (t_stamp_generator h') (g_itow g_packet))).

(** [Helper::initialize] *)
Definition initial_angles (h : Helper) (t lat lon hgt : float)
    : float * float * float :=
  let yaw := deg2rad (yaw_deg opt_initial_attitude) in
  let pitch := deg2rad (pitch_deg opt_initial_attitude) in
  let roll := deg2rad (roll_deg opt_initial_attitude) in
  if mode_rank (mode opt_initial_attitude) < mode_rank FULL_GIVEN then
    let acc := foldl (fun s a => vec3_add s (accel a)) vec3_zero
                 (buf (recent_a h)) in
    let acc := vec3_div acc (f_of_nat (size (buf (recent_a h)))) in
    let acc_reg := vec3_div (Vec3 (- v_x acc)%fl (- v_y acc)%fl (- v_z acc)%fl)
                     (vec3_abs acc) in
    let roll := f_atan2 (v_y acc_reg) (v_z acc_reg) in
    if mode_rank YAW_PITCH <= mode_rank (mode opt_initial_attitude)
    then (yaw, pitch, roll)
    else
      let pitch := (- f_asin (v_x acc_reg))%fl in
      if mode_rank YAW_ONLY <= mode_rank (mode opt_initial_attitude)
      then (yaw, pitch, roll)
      else if ~~ nilp (buf (recent_m h))
      then (get_mag_yaw (get_mag h t) pitch roll lat lon hgt, pitch, roll)
      else (yaw, pitch, roll)
  else (yaw, pitch, roll).

Definition initialize (h : Helper) (t lat lon hgt vn ve vd : float) : Helper :=
  let '(yaw, pitch, roll) := initial_angles h t lat lon hgt in
  let i := pure_ins (ins_gps h) in
  let i := ins_initPosition i lat lon hgt in
  let i := ins_initVelocity i vn ve vd in
  let i := ins_initAttitude i yaw pitch roll in
  let i := foldl ins_init_misc i opt_init_misc in
  with_status (with_ins_gps h (on_ins (ins_gps h) (fun _ => i))) JUST_INITIALIZED.

(** [time_update_before_measurement_update], by the kind of filter. *)
Definition time_update_before_measurement_update (h : Helper) (advanceT : float)
    : Helper :=
  if is_realtime then h
  else if (advanceT <= 0)%fl then h
  else time_update_by h (last A_Packet_zero (buf (recent_a h))) advanceT.

(** [INS_GPS_NAV::correct] with [advanceT] *)
Definition correct (n : ins_gps_t) (advanceT : float) (f : INS -> INS) : ins_gps_t :=
  if is_realtime then
    let '(ok, i) := ins_setup_correct (pure_ins n) advanceT in
    on_ins n (fun _ => if ok then f i else i)
  else on_ins n f.

(** The mean angular rate used with a lever arm. *)
Definition mean_omega (s : seq A_Packet) (t : float) : vec3_t :=
  let packets_for_mean := 16 in
  let used := take packets_for_mean (drop (nearest (map a_itow s) t packets_for_mean) s) in
  vec3_div (foldl (fun w a => vec3_add w (omega a)) vec3_zero used)
    (f_of_nat (size used)).

(** [Helper::measurement_update] *)
Definition measurement_update (h : Helper) (g_packet : G_Packet) : Helper :=
  let sol := solution g_packet in
  if (sigma_2d sol >= cont_acc_2d opt_gps_threshold)%fl then h
  else if initialized (status h) then
    let gps_advance :=
      interval (a_itow (last A_Packet_zero (buf (recent_a h)))) (g_itow g_packet) in
    let h := time_update_before_measurement_update h gps_advance in
    let n :=
      match lever_arm g_packet with
      | Some arm =>
          correct (ins_gps h) gps_advance (fun i =>
            ins_correct_lever i g_packet arm
              (mean_omega (buf (recent_a h)) (g_itow g_packet)))
      | None => correct (ins_gps h) gps_advance (fun i => ins_correct i g_packet)
      end in
    let n :=
      if ~~ nilp (buf (recent_m h))
         && (opt_yaw_correct_with_mag_when_speed_less_than_ms > 0)%fl
         && (f_pow (v_n sol) 2 + f_pow (v_e sol) 2
               < f_pow opt_yaw_correct_with_mag_when_speed_less_than_ms 2)%fl
      then on_ins n (fun i =>
             ins_correct_yaw i
               (get_mag_delta_yaw (get_mag h (g_itow g_packet)) (pure_ins n))
               (f_pow (deg2rad opt_mag_heading_accuracy_deg) 2))
      else n in
    with_status (with_ins_gps h (set_header n "MU")) MEASUREMENT_UPDATED
  else if (min_a_packets_for_init h <= size (buf (recent_a h)))
       && (PrimFloat.abs (a_itow (head A_Packet_zero (buf (recent_a h)))
                            - g_itow g_packet)
             < 0.1 * f_of_nat (size (buf (recent_a h))))%fl
       && (sigma_2d sol <= init_acc_2d opt_gps_threshold)%fl
       && (sigma_height sol <= init_acc_v opt_gps_threshold)%fl
  then
    time_update_after_initialization
      (initialize h (g_itow g_packet) (latitude sol) (longitude sol) (height sol)
         (v_n sol) (v_e sol) (v_d sol))
      g_packet
  else h.

(** [INS_GPS_NAV::update] on each kind of packet. *)
Definition nav_update (h : Helper) (p : Packet) : Helper :=
  match p with
  | PacketA a => time_update (before_any_update h) a
  | PacketG g => measurement_update (before_any_update h) g
  | PacketM m => compass (before_any_update h) m
  | PacketT t =>
      MkHelper (status h) (ins_gps h) (min_a_packets_for_init h) (recent_a h)
        (recent_m h) (tsg_update (t_stamp_generator h) t)
  end.

(** *** Facts on the controller *)

Lemma rollover_checked_spec (deltaT : float) :
  rollover_checked deltaT =
    if (deltaT <= (-302400)%float)%fl then (deltaT + 604800%float)%fl else deltaT.
Proof. by []. Qed.

Lemma nearest_loop_le (itows : seq float) (t : float) (off remaining head : nat) :
  nearest_loop itows t off remaining head <= head + remaining.
Proof.
elim: remaining head => [|r IH] head /=; first by rewrite addn0.
case: ifP => _; first exact: leq_addr.
by rewrite (leq_trans (IH _)) // addSnnS.
Qed.

Lemma nearest_le (itows : seq float) (t : float) (group_size : nat) :
  nearest itows t group_size <= size itows - group_size.
Proof. exact: nearest_loop_le. Qed.

Lemma time_update_by_min (h : Helper) (a : A_Packet) (d : float) :
  min_a_packets_for_init (time_update_by h a d) = min_a_packets_for_init h.
Proof. by rewrite /time_update_by; case: ifP. Qed.

Lemma time_update_by_initialized (h : Helper) (a : A_Packet) (d : float) :
  initialized (status h) -> initialized (status (time_update_by h a d)).
Proof. by rewrite /time_update_by; case: ifP. Qed.

Lemma replay_min (h : Helper) (previous : float) (s : seq A_Packet) :
  min_a_packets_for_init (replay h previous s) = min_a_packets_for_init h.
Proof.
by elim: s h previous => [|a s IH] h previous //=; rewrite IH time_update_by_min.
Qed.

Lemma replay_initialized (h : Helper) (previous : float) (s : seq A_Packet) :
  initialized (status h) -> initialized (status (replay h previous s)).
Proof.
elim: s h previous => [|a s IH] h previous //= Hh.
exact/IH/time_update_by_initialized.
Qed.

Lemma initialize_min (h : Helper) (t lat lon hgt vn ve vd : float) :
  min_a_packets_for_init (initialize h t lat lon hgt vn ve vd)
  = min_a_packets_for_init h.
Proof. by rewrite /initialize; case: (initial_angles _ _ _ _ _) => [[]]. Qed.

Lemma measurement_update_min (h : Helper) (g : G_Packet) :
  min_a_packets_for_init (measurement_update h g) = min_a_packets_for_init h.
Proof.
rewrite /measurement_update; case: ifP => // _; case: ifP => _.
  rewrite /time_update_before_measurement_update /=.
  by case: is_realtime => //; case: ifP => // _; rewrite time_update_by_min.
case: ifP => // _.
by rewrite /time_update_after_initialization /= replay_min initialize_min.
Qed.

Lemma before_any_update_min (h : Helper) :
  min_a_packets_for_init (before_any_update h) = min_a_packets_for_init h.
Proof. by rewrite /before_any_update; case: ifP. Qed.

Lemma nav_update_min (h : Helper) (p : Packet) :
  min_a_packets_for_init (nav_update h p) = min_a_packets_for_init h.
Proof.
case: p => [a|g|m|t] //=.
- rewrite /time_update /= -[RHS]before_any_update_min.
  by case: ifP => //= _; rewrite time_update_by_min.
- by rewrite measurement_update_min before_any_update_min.
- by rewrite before_any_update_min.
Qed.

Lemma run_min (h : Helper) (ps : seq Packet) :
  min_a_packets_for_init (foldl nav_update h ps) = min_a_packets_for_init h.
Proof. by elim: ps h => [|p ps IH] h //=; rewrite IH nav_update_min. Qed.

(** C2.  After initialization an A packet is turned into a time update over
    the interval from the previous A packet, a week being added to an
    interval of at most -302400 s.  If that interval is not positive or is at
    least 10 s, the update is dropped: [time_update_by] returns the controller
    as it was, so the filter and the controller status are unchanged.
    Otherwise the filter is advanced by exactly that interval, which (not
    being NaN) lies strictly between 0 and 10 s. *)
Theorem time_update_interval_gate (h : Helper) (a : A_Packet) :
  initialized (status h) = true ->
  let previous := last A_Packet_zero (buf (recent_a h)) in
  let d0 := interval (a_itow previous) (a_itow a) in
  let deltaT :=
    if (d0 <= (-302400)%float)%fl then (d0 + 604800%float)%fl else d0 in
  let h' := time_update h a in
  ((deltaT <= 0)%fl || (deltaT >= 10%float)%fl = true ->
     time_update_by h a d0 = h /\
     pure_ins (ins_gps h') = pure_ins (ins_gps h) /\
     status h' = status h) /\
  ((deltaT <= 0)%fl || (deltaT >= 10%float)%fl = false ->
     pure_ins (ins_gps h') =
       ins_update (pure_ins (ins_gps h)) (accel a) (omega a) deltaT /\
     status h' = TIME_UPDATED /\
     (PrimFloat.is_nan deltaT = false ->
        (0%float < deltaT)%fl && (deltaT < 10%float)%fl
          && (deltaT <= 10%float)%fl = true)).
Proof.
move=> Hi previous d0 deltaT h'.
have E: time_update_by h a d0 =
    if (deltaT <= 0)%fl || (deltaT >= 10%float)%fl then h
    else with_status (with_ins_gps h (on_ins (ins_gps h)
           (fun i => ins_update i (accel a) (omega a) deltaT))) TIME_UPDATED.
  by [].
have E' : h' = push_a (with_ins_gps (time_update_by h a d0)
      (set_header_at (ins_gps (time_update_by h a d0)) "TU"
         (t_stamp (t_stamp_generator (time_update_by h a d0)) (a_itow a)))) a.
  by rewrite /h' /time_update Hi.
split=> [Hd|Hd]; rewrite E' E Hd //=.
split=> //; split=> // Hn.
move: Hd => /norP [H0 H10].
have Z0n: PrimFloat.is_nan 0%float = false by [].
have Z10n: PrimFloat.is_nan 10%float = false by [].
have L0: (0%float < deltaT)%fl = true.
  by apply: f_not_le_lt => //; apply/negbTE.
have L10: (deltaT < 10%float)%fl = true.
  by apply: f_not_le_lt => //; apply/negbTE.
by rewrite L0 L10 (f_lt_le L10).
Qed.

(** C3.  A G packet whose [sigma_2d] is at least [cont_acc_2d] leaves the
    controller as it was (in particular no measurement update is made once
    initialized).  A G packet initializes an uninitialized controller only
    when [sigma_2d <= init_acc_2d], [sigma_height <= init_acc_v] and the
    oldest buffered A packet is less than 0.1 s times the number of buffered
    A packets away from it.  The default thresholds are 20, 10 and 100 m. *)
Theorem gps_gate (h : Helper) (g : G_Packet) :
  ((sigma_2d (solution g) >= cont_acc_2d opt_gps_threshold)%fl = true ->
     measurement_update h g = h) /\
  (status h = UNINITIALIZED ->
   initialized (status (measurement_update h g)) = true ->
     (sigma_2d (solution g) <= init_acc_2d opt_gps_threshold)%fl = true /\
     (sigma_height (solution g) <= init_acc_v opt_gps_threshold)%fl = true /\
     (PrimFloat.abs (a_itow (head A_Packet_zero (buf (recent_a h))) - g_itow g)
        < 0.1 * f_of_nat (size (buf (recent_a h))))%fl = true) /\
  gps_threshold_default = GpsThreshold 20%float 10%float 100%float.
Proof.
split; first by rewrite /measurement_update => ->.
split=> // Hs; rewrite /measurement_update Hs /=.
case: ifP => _; first by rewrite Hs.
by case: ifP => [/andP [/andP [/andP [_ ->] ->] ->]|_] //; rewrite Hs.
Qed.

(** C9.  The controller is built with [min_a_packets_for_init] equal to 1
    when the initial attitude was given in full and to 16 otherwise, and no
    packet changes it.  Whatever packets it has received, an uninitialized
    controller holding fewer A packets than that is left unchanged, hence
    uninitialized, by a G packet. *)
Theorem init_needs_min_a_packets
    (n : ins_gps_t) (tsg : TSG) (ps : seq Packet) (g : G_Packet) :
  let h := foldl nav_update (Helper_new n tsg) ps in
  let min_a := if mode opt_initial_attitude is FULL_GIVEN then 1 else 16 in
  min_a_packets_for_init h = min_a /\
  (status h = UNINITIALIZED ->
   size (buf (recent_a h)) < min_a ->
     nav_update h (PacketG g) = h /\
     status (nav_update h (PacketG g)) = UNINITIALIZED).
Proof.
move=> h min_a.
have Hm: min_a_packets_for_init h = min_a by rewrite /h run_min.
split=> // Hs Hlt.
have ->: nav_update h (PacketG g) = h; last by [].
rewrite /= /before_any_update Hs /= /measurement_update Hs /= Hm.
by case: ifP => // _; rewrite leqNgt Hlt.
Qed.

(** C10.  With fewer than two buffered M packets the magnetic sample is the
    vector (1, 0, 0).  With two or more it is the combination of two
    neighbouring buffered samples with the weights of linear interpolation
    at the requested time, except that a weight above 3 is replaced by 1 and
    the other weight by 0. *)
Theorem get_mag_interpolation (h : Helper) (t : float) :
  (size (buf (recent_m h)) < 2 -> get_mag h t = Vec3 1%float 0%float 0%float) /\
  (2 <= size (buf (recent_m h)) ->
   let ia := nearest (map m_itow (buf (recent_m h))) t 2 in
   ia.+1 < size (buf (recent_m h)) /\
   let it_a := nth M_Packet_zero (buf (recent_m h)) ia in
   let it_b := nth M_Packet_zero (buf (recent_m h)) ia.+1 in
   let weight_a := ((m_itow it_b - t) / (m_itow it_b - m_itow it_a))%fl in
   let weight_b := (1 - weight_a)%fl in
   get_mag h t =
     if (weight_a > 3)%fl then
       vec3_add (vec3_scale (mag it_a) 1%float) (vec3_scale (mag it_b) 0%float)
     else if (weight_b > 3)%fl then
       vec3_add (vec3_scale (mag it_a) 0%float) (vec3_scale (mag it_b) 1%float)
     else
       vec3_add (vec3_scale (mag it_a) weight_a)
                (vec3_scale (mag it_b) weight_b)).
Proof.
split=> [Hlt|Hge]; first by rewrite /get_mag Hlt.
move=> ia; split.
  have := nearest_le (map m_itow (buf (recent_m h))) t 2.
  rewrite size_map -/ia => Hle.
  by rewrite -(subnK Hge) addn2 ltnS ltnS.
rewrite /get_mag ltnNge Hge /= -/ia.
by case: ifP => // _; case: ifP.
Qed.

(** *** The buffers and the status along a stream of packets *)

Definition a_packets (ps : seq Packet) : seq A_Packet :=
  pmap (fun p => if p is PacketA a then Some a else None) ps.

Definition m_packets (ps : seq Packet) : seq M_Packet :=
  pmap (fun p => if p is PacketM m then Some m else None) ps.

Lemma time_update_by_buffers (h : Helper) (a : A_Packet) (d : float) :
  recent_a (time_update_by h a d) = recent_a h /\
  recent_m (time_update_by h a d) = recent_m h.
Proof. by rewrite /time_update_by; case: ifP. Qed.

Lemma replay_buffers (h : Helper) (previous : float) (s : seq A_Packet) :
  recent_a (replay h previous s) = recent_a h /\
  recent_m (replay h previous s) = recent_m h.
Proof.
elim: s h previous => [|a s IH] h previous //=.
by have [-> ->] := IH (time_update_by h a (interval previous (a_itow a))) (a_itow a);
   exact: time_update_by_buffers.
Qed.

Lemma initialize_buffers (h : Helper) (t lat lon hgt vn ve vd : float) :
  recent_a (initialize h t lat lon hgt vn ve vd) = recent_a h /\
  recent_m (initialize h t lat lon hgt vn ve vd) = recent_m h.
Proof. by rewrite /initialize; case: (initial_angles _ _ _ _ _) => [[]]. Qed.

Lemma before_any_update_buffers (h : Helper) :
  recent_a (before_any_update h) = recent_a h /\
  recent_m (before_any_update h) = recent_m h.
Proof. by rewrite /before_any_update; case: ifP. Qed.

Lemma measurement_update_buffers (h : Helper) (g : G_Packet) :
  recent_a (measurement_update h g) = recent_a h /\
  recent_m (measurement_update h g) = recent_m h.
Proof.
rewrite /measurement_update; case: ifP => // _; case: ifP => _.
  rewrite /time_update_before_measurement_update /=.
  case: is_realtime => //; case: ifP => // _.
  exact: time_update_by_buffers.
case: ifP => // _; rewrite /time_update_after_initialization /=.
have [-> ->] := replay_buffers
  (initialize h (g_itow g) (latitude (solution g)) (longitude (solution g))
     (height (solution g)) (v_n (solution g)) (v_e (solution g)) (v_d (solution g)))
  (g_itow g)
  (packets_after g (buf (recent_a (initialize h (g_itow g) (latitude (solution g))
     (longitude (solution g)) (height (solution g)) (v_n (solution g))
     (v_e (solution g)) (v_d (solution g)))))).
exact: initialize_buffers.
Qed.

Lemma nav_update_buffers (h : Helper) (p : Packet) :
  recent_a (nav_update h p) =
    (if p is PacketA a then push (recent_a h) a else recent_a h) /\
  recent_m (nav_update h p) =
    (if p is PacketM m then push (recent_m h) m else recent_m h).
Proof.
have [Ea Em] := before_any_update_buffers h.
case: p => [a|g|m|t] /=; rewrite -?Ea -?Em //.
- rewrite /time_update; case: ifP => //= _.
  by have [-> ->] := time_update_by_buffers (before_any_update h) a
    (interval (a_itow (last A_Packet_zero (buf (recent_a (before_any_update h)))))
       (a_itow a)).
- exact: measurement_update_buffers.
Qed.

Lemma run_buffers (h : Helper) (ps : seq Packet) :
  recent_a (foldl nav_update h ps) = foldl (@push _) (recent_a h) (a_packets ps) /\
  recent_m (foldl nav_update h ps) = foldl (@push _) (recent_m h) (m_packets ps).
Proof.
elim: ps h => [|p ps IH] h //=.
have [-> ->] := IH (nav_update h p).
have [-> ->] := nav_update_buffers h p.
by case: p.
Qed.

Lemma run_recent (n : ins_gps_t) (tsg : TSG) (ps : seq Packet) :
  let h := foldl nav_update (Helper_new n tsg) ps in
  buf (recent_a h) = drop (size (a_packets ps) - 256) (a_packets ps) /\
  buf (recent_m h) = drop (size (m_packets ps) - 16) (m_packets ps).
Proof.
move=> h; have [-> ->] := run_buffers (Helper_new n tsg) ps.
by rewrite /Helper_new /=; case: (mode opt_initial_attitude); rewrite !push_run.
Qed.

(** Whatever the stream of packets and whatever the controller did with
    them (before or after initialization, updates made or dropped), it holds
    the last 256 A packets and the last 16 M packets of the stream, the
    oldest first, and all of them while there are fewer. *)
Theorem controller_holds_recent_packets
    (n : ins_gps_t) (tsg : TSG) (ps : seq Packet) :
  let h := foldl nav_update (Helper_new n tsg) ps in
  [/\ buf (recent_a h) = drop (size (a_packets ps) - 256) (a_packets ps),
      buf (recent_m h) = drop (size (m_packets ps) - 16) (m_packets ps),
      size (buf (recent_a h)) = minn (size (a_packets ps)) 256 &
      size (buf (recent_m h)) = minn (size (m_packets ps)) 16].
Proof.
move=> h; have [Ea Em] := run_recent n tsg ps.
have Hsz (T : Type) (s : seq T) (m : nat): size (drop (size s - m) s) = minn (size s) m.
  rewrite size_drop.
  by case: (leqP (size s) m) => Hle; [rewrite (eqP Hle : size s - m = 0) subn0
    | rewrite subKn // ltnW].
by split; rewrite -/h ?Ea ?Em ?Hsz.
Qed.

Definition is_G_packet (p : Packet) : bool :=
  if p is PacketG _ then true else false.

Lemma before_any_update_initialized (h : Helper) :
  initialized (status (before_any_update h)) = initialized (status h).
Proof. by rewrite /before_any_update; case E: (initialized (status h)). Qed.

Lemma before_any_update_uninitialized (h : Helper) :
  ~~ initialized (status h) -> before_any_update h = h.
Proof. by rewrite /before_any_update => /negbTE ->. Qed.

Lemma time_update_initialized (h : Helper) (a : A_Packet) :
  initialized (status (time_update h a)) = initialized (status h).
Proof.
rewrite /time_update; case E: (initialized (status h)) => /=; last by rewrite E.
exact: time_update_by_initialized.
Qed.

Lemma measurement_update_uninitialized (h : Helper) (g : G_Packet) :
  ~~ initialized (status h) ->
  if initialized (status (measurement_update h g))
  then is_true (min_a_packets_for_init h <= size (buf (recent_a h)))
  else measurement_update h g = h.
Proof.
move=> /negbTE Hh; rewrite /measurement_update.
case: (sigma_2d (solution g) >= cont_acc_2d opt_gps_threshold)%fl.
  by rewrite Hh.
rewrite Hh; case E: (_ && _); last by rewrite Hh.
have Hi: initialized (status (time_update_after_initialization
    (initialize h (g_itow g) (latitude (solution g)) (longitude (solution g))
       (height (solution g)) (v_n (solution g)) (v_e (solution g))
       (v_d (solution g))) g)).
  rewrite /time_update_after_initialization /= replay_initialized //.
  by rewrite /initialize; case: (initial_angles _ _ _ _ _) => [[]].
by rewrite Hi; case/andP: E => /andP [/andP [Hm _] _] _.
Qed.

Lemma measurement_update_initialized (h : Helper) (g : G_Packet) :
  initialized (status h) -> initialized (status (measurement_update h g)).
Proof.
rewrite /measurement_update => Hh.
by case: (sigma_2d (solution g) >= cont_acc_2d opt_gps_threshold)%fl; rewrite // Hh.
Qed.

Lemma nav_update_initialized (h : Helper) (p : Packet) :
  initialized (status h) -> initialized (status (nav_update h p)).
Proof.
move=> Hh; case: p => [a|g|m|t]; rewrite /nav_update //.
- by rewrite time_update_initialized before_any_update_initialized.
- by apply: measurement_update_initialized; rewrite before_any_update_initialized.
- by rewrite /compass /= before_any_update_initialized.
Qed.

Lemma nav_update_uninitialized (h : Helper) (p : Packet) :
  ~~ initialized (status h) ->
  if initialized (status (nav_update h p))
  then is_true (is_G_packet p
                && (min_a_packets_for_init h <= size (buf (recent_a h))))
  else ins_gps (nav_update h p) = ins_gps h.
Proof.
move=> Hh; have E := before_any_update_uninitialized Hh.
case: p => [a|g|m|t]; rewrite /nav_update ?E.
- by rewrite time_update_initialized (negbTE Hh) /time_update (negbTE Hh).
- have := measurement_update_uninitialized g Hh.
  by case: (initialized _) => // ->.
- by rewrite /= (negbTE Hh).
- by rewrite /= (negbTE Hh).
Qed.

(** The status of the controller under one packet.  An initialized
    controller stays initialized whatever it receives.  An uninitialized one
    can only be initialized by a G packet, and only when it holds at least
    [min_a_packets_for_init] A packets; as long as it stays uninitialized
    the filter and the header of its record are left untouched. *)
Theorem initialized_only_by_G_packet (h : Helper) (p : Packet) :
  let h' := nav_update h p in
  [/\ initialized (status h) -> initialized (status h'),
      ~~ initialized (status h) -> initialized (status h') ->
        (exists g, p = PacketG g) /\
        min_a_packets_for_init h <= size (buf (recent_a h)) &
      ~~ initialized (status h') -> ins_gps h' = ins_gps h].
Proof.
move=> h'; split; first exact: nav_update_initialized.
- move=> Hh Hh'; have := nav_update_uninitialized p Hh.
  rewrite -/h' Hh' => /andP [Hp ->]; split=> //.
  by case: p Hp {h' Hh'} => // g _; exists g.
- move=> Hh'.
  have Hh: ~~ initialized (status h).
    by apply: contra Hh'; exact: nav_update_initialized.
  by have := nav_update_uninitialized p Hh; rewrite -/h' (negbTE Hh').
Qed.

Lemma nav_update_has_previous (h : Helper) (p : Packet) :
  0 < min_a_packets_for_init h ->
  (initialized (status h) -> 0 < size (buf (recent_a h))) ->
  initialized (status (nav_update h p)) ->
  0 < size (buf (recent_a (nav_update h p))).
Proof.
move=> Hm Hinv Hh'.
have [-> _] := nav_update_buffers h p.
case Hh: (initialized (status h)).
  by case: p {Hh'} => [a|g|m|t]; rewrite ?Hinv //= size_rcons.
have := nav_update_uninitialized p (negbT Hh); rewrite Hh'.
by case: p {Hh'} => //= g; exact: leq_trans.
Qed.

(** Along any stream of packets, a controller that is initialized has
    received a G packet and holds at least one A packet: [recent_a.buf.back()],
    which the time and measurement updates read once initialized, is never
    read from an empty buffer, and it is the last A packet of the stream. *)
Theorem initialized_has_previous_A_packet
    (n : ins_gps_t) (tsg : TSG) (ps : seq Packet) :
  let h := foldl nav_update (Helper_new n tsg) ps in
  initialized (status h) ->
  [/\ has is_G_packet ps,
      0 < size (buf (recent_a h)) &
      last A_Packet_zero (buf (recent_a h)) = last A_Packet_zero (a_packets ps)].
Proof.
move=> h Hh.
have Hmin: 0 < min_a_packets_for_init (Helper_new n tsg).
  by rewrite /Helper_new /=; case: (mode opt_initial_attitude).
have [HG Hsz]: has is_G_packet ps /\ 0 < size (buf (recent_a h)).
  move: Hh; rewrite /h; elim/last_ind: ps {h} => [|ps p IH] //.
  rewrite -cats1 foldl_cat /= has_cat /= orbF.
  set h := foldl nav_update _ ps in IH *.
  move=> Hh'; split.
    case Hh: (initialized (status h)); first by have [->] := IH Hh.
    have := nav_update_uninitialized p (negbT Hh); rewrite Hh'.
    by case/andP=> ->; rewrite orbT.
  apply: nav_update_has_previous => //; first by rewrite /h run_min.
  by move=> Hh; have [] := IH Hh.
split=> //.
have [E _] := run_recent n tsg ps.
move: Hsz; rewrite -/h E; set k := _ - _ => Hsz.
rewrite -{2}(cat_take_drop k (a_packets ps)) last_cat.
by case: (drop k _) Hsz.
Qed.

(** *** The records written for a packet ([NAVDisplay]) *)

(** Two more fields of [options]. *)
Variable opt_dump_update opt_dump_correct : bool.







Lemma replay_header (h : Helper) (previous : float) (s : seq A_Packet) :
  t_stamp_generator (replay h previous s) = t_stamp_generator h.
Proof.
elim: s h previous => [|a s IH] h previous //=; rewrite IH.
by rewrite /time_update_by; case: ifP.
Qed.


End Controller.

(** *** A bench filter

    The filter is replaced by a clock that adds up the intervals it is
    advanced by; corrections and initializations leave it alone. *)

Definition bench_ins_update (i : float) (_ _ : vec3_t) (elapsedT : float) : float :=
  (i + elapsedT)%fl.
Definition bench_stamp (_ : unit) (t : float) : float := t.
Definition bench_abs (v : vec3_t) : float :=
  PrimFloat.sqrt (v_x v * v_x v + v_y v * v_y v + v_z v * v_z v)%fl.

Definition bench_nav_update :=
  @nav_update float float unit bench_ins_update
    (fun i _ => i) (fun i _ _ _ => i) (fun i _ _ => i)
    (fun i _ _ _ => i) (fun i _ _ _ => i) (fun i _ _ _ => i) (fun i _ => i)
    false (fun i _ => (true, i))
    (fun _ _ _ _ _ _ => 0%float) (fun _ _ => 0%float)
    (fun g _ => g) bench_stamp bench_abs
    (fun _ _ => 0%float) (fun x _ => (x * x)%fl) (fun x => x) (fun x => x)
    gps_threshold_default initial_attitude_default 5%float 3%float [::].

Definition bench_measurement_update :=
  @measurement_update float float unit bench_ins_update
    (fun i _ => i) (fun i _ _ _ => i) (fun i _ _ => i)
    (fun i _ _ _ => i) (fun i _ _ _ => i) (fun i _ _ _ => i) (fun i _ => i)
    false (fun i _ => (true, i))
    (fun _ _ _ _ _ _ => 0%float) (fun _ _ => 0%float)
    bench_stamp bench_abs
    (fun _ _ => 0%float) (fun x _ => (x * x)%fl) (fun x => x) (fun x => x)
    gps_threshold_default initial_attitude_default 5%float 3%float [::].

Definition bench_new : Helper float float unit :=
  Helper_new initial_attitude_default (MkInsGps 0%float "N/A" None) tt.

(** A level, resting unit sampled every 10 ms from time 0. *)
Definition bench_A (k : nat) : A_Packet :=
  APacket (f_of_nat k * 0.01)%fl (Vec3 0%float 0%float (-9.80665)%float) vec3_zero.

Definition bench_As (n : nat) : seq Packet :=
  [seq PacketA (bench_A k) | k <- iota 0 n].

Definition bench_G (t s2d sh : float) : G_Packet :=
  GPacket t (GpsSolution 0.6%float 2.4%float 50%float 0%float 0%float 0%float
               s2d sh 0.5%float) None.

Definition bench_running : Helper float float unit :=
  foldl bench_nav_update bench_new
    (bench_As 16 ++ [:: PacketG (bench_G 0.15%float 5%float 3%float)]).

Lemma time_update_interval_gate_witness :
  initialized (status bench_running) = true /\
  PrimFloat.is_nan
    (a_itow (bench_A 16) - a_itow (last A_Packet_zero (buf (recent_a bench_running))))%fl
    = false /\
  (let h' := time_update bench_ins_update bench_stamp bench_running (bench_A 16) in
   pure_ins (ins_gps h') =
     (pure_ins (ins_gps bench_running) + (0.16 - 0.15))%fl /\
   status h' = TIME_UPDATED) /\
  (let late := APacket 0.15%float vec3_zero vec3_zero in
   let h' := time_update bench_ins_update bench_stamp bench_running late in
   pure_ins (ins_gps h') = pure_ins (ins_gps bench_running) /\
   status h' = status bench_running).
Proof.
split; first by vm_compute.
split; first by vm_compute.
split.
- have [_ H] := @time_update_interval_gate float float unit bench_ins_update
    bench_stamp bench_running (bench_A 16) (erefl true).
  have [H1 [H2 _]] := H (erefl false).
  by split; [rewrite H1; vm_compute | exact: H2].
- have [H _] := @time_update_interval_gate float float unit bench_ins_update
    bench_stamp bench_running (APacket 0.15%float vec3_zero vec3_zero)
    (erefl true).
  by have [_ H1] := H (erefl true).
Defined.

Definition bench_buffered : Helper float float unit :=
  foldl bench_nav_update bench_new (bench_As 16).

Lemma gps_gate_witness :
  bench_measurement_update bench_running (bench_G 0.25%float 150%float 3%float)
    = bench_running /\
  ((5 <= 20)%fl = true /\ (3 <= 10)%fl = true /\
   (PrimFloat.abs (0 * 0.01 - 0.15) < 0.1 * f_of_nat 16)%fl = true).
Proof.
split.
- have [H _] := @gps_gate float float unit bench_ins_update
    (fun i _ => i) (fun i _ _ _ => i) (fun i _ _ => i)
    (fun i _ _ _ => i) (fun i _ _ _ => i) (fun i _ _ _ => i) (fun i _ => i)
    false (fun i _ => (true, i))
    (fun _ _ _ _ _ _ => 0%float) (fun _ _ => 0%float)
    bench_stamp bench_abs
    (fun _ _ => 0%float) (fun x _ => (x * x)%fl) (fun x => x) (fun x => x)
    gps_threshold_default initial_attitude_default 5%float 3%float [::]
    bench_running (bench_G 0.25%float 150%float 3%float).
  exact: (H (erefl true)).
- have [_ [H _]] := @gps_gate float float unit bench_ins_update
    (fun i _ => i) (fun i _ _ _ => i) (fun i _ _ => i)
    (fun i _ _ _ => i) (fun i _ _ _ => i) (fun i _ _ _ => i) (fun i _ => i)
    false (fun i _ => (true, i))
    (fun _ _ _ _ _ _ => 0%float) (fun _ _ => 0%float)
    bench_stamp bench_abs
    (fun _ _ => 0%float) (fun x _ => (x * x)%fl) (fun x => x) (fun x => x)
    gps_threshold_default initial_attitude_default 5%float 3%float [::]
    bench_buffered (bench_G 0.15%float 5%float 3%float).
  exact: (H (erefl UNINITIALIZED) (erefl true)).
Defined.

Lemma init_needs_min_a_packets_witness :
  let h := foldl bench_nav_update bench_new (bench_As 15) in
  bench_nav_update h (PacketG (bench_G 0.15%float 5%float 3%float)) = h /\
  status (bench_nav_update h (PacketG (bench_G 0.15%float 5%float 3%float)))
    = UNINITIALIZED.
Proof.
have [_ H] := @init_needs_min_a_packets float float unit bench_ins_update
    (fun i _ => i) (fun i _ _ _ => i) (fun i _ _ => i)
    (fun i _ _ _ => i) (fun i _ _ _ => i) (fun i _ _ _ => i) (fun i _ => i)
    false (fun i _ => (true, i))
    (fun _ _ _ _ _ _ => 0%float) (fun _ _ => 0%float)
    (fun g _ => g) bench_stamp bench_abs
    (fun _ _ => 0%float) (fun x _ => (x * x)%fl) (fun x => x) (fun x => x)
    gps_threshold_default initial_attitude_default 5%float 3%float [::]
    (MkInsGps 0%float "N/A" None) tt (bench_As 15)
    (bench_G 0.15%float 5%float 3%float).
exact: (H (erefl UNINITIALIZED) (erefl true)).
Defined.

Definition bench_M (k : nat) : M_Packet :=
  MPacket (f_of_nat k) (Vec3 (f_of_nat (10 * k)) 1%float 2%float).

Definition bench_compass (n : nat) : Helper float float unit :=
  foldl bench_nav_update bench_new [seq PacketM (bench_M k) | k <- iota 0 n].

Lemma get_mag_interpolation_witness :
  get_mag (bench_compass 1) 0.5%float = Vec3 1%float 0%float 0%float /\
  get_mag (bench_compass 3) 1.25%float = Vec3 12.5%float 1%float 2%float /\
  get_mag (bench_compass 3) 9%float = Vec3 20%float 1%float 2%float.
Proof.
split.
  exact: (proj1 (get_mag_interpolation (bench_compass 1) 0.5%float) (erefl true)).
split.
- have [_ ->] :=
    proj2 (get_mag_interpolation (bench_compass 3) 1.25%float) (erefl true).
  by vm_compute.
- have [_ ->] :=
    proj2 (get_mag_interpolation (bench_compass 3) 9%float) (erefl true).
  by vm_compute.
Defined.

Lemma initialized_has_previous_A_packet_witness :
  0 < size (buf (recent_a bench_running)).
Proof.
have [_ H _] := @initialized_has_previous_A_packet float float unit bench_ins_update
    (fun i _ => i) (fun i _ _ _ => i) (fun i _ _ => i)
    (fun i _ _ _ => i) (fun i _ _ _ => i) (fun i _ _ _ => i) (fun i _ => i)
    false (fun i _ => (true, i))
    (fun _ _ _ _ _ _ => 0%float) (fun _ _ => 0%float)
    (fun g _ => g) bench_stamp bench_abs
    (fun _ _ => 0%float) (fun x _ => (x * x)%fl) (fun x => x) (fun x => x)
    gps_threshold_default initial_attitude_default 5%float 3%float [::]
    (MkInsGps 0%float "N/A" None) tt
    (bench_As 16 ++ [:: PacketG (bench_G 0.15%float 5%float 3%float)])
    (erefl true).
exact: H.
Defined.

(** ** The sorting buffer of [loop] *)

(** [std::stable_sort] with the strict comparison [compare_rollover]: [a]
    may stay before [b] unless [b] compares before [a]. *)
Definition not_after (a b : Packet) : bool := ~~ compare_rollover b a.

Definition stable_sort (pool : seq Packet) : seq Packet := sort not_after pool.

Section SortingBuffer.

(** The navigation object behind [Updatable]; [apply] is [Packet::apply]. *)
Variable NAV : Type.
Variable apply : NAV -> Packet -> NAV.

Record buffer_t := MkBuffer {
  packet_pool : seq Packet;
  nav : NAV
}.

(** [buffer_t::sort_and_apply]; its callers never ask for more packets than
    the pool holds. *)
Definition sort_and_apply (b : buffer_t) (packets : nat) : buffer_t :=
  let pool := stable_sort (packet_pool b) in
  MkBuffer (drop packets pool) (foldl apply (nav b) (take packets pool)).

(** [buffer_t::sort_and_apply2] *)
Definition sort_and_apply2 (b : buffer_t) : buffer_t :=
  if size (packet_pool b) < 512 then b else sort_and_apply b 256.

(** [buffer_t::update] *)
Definition buffer_update (b : buffer_t) (packet : Packet) : buffer_t :=
  sort_and_apply2 (MkBuffer (rcons (packet_pool b) packet) (nav b)).

(** [buffer_t::~buffer_t] *)
Definition buffer_flush (b : buffer_t) : buffer_t :=
  sort_and_apply b (size (packet_pool b)).

(** [loop]: the navigation object after the packets of the stream, which go
    to it directly in the real-time strategy and through the buffer
    otherwise. *)
Definition loop (strategy : sync_strategy_t) (n : NAV) (stream : seq Packet) : NAV :=
  if strategy is INS_GPS_SYNC_REALTIME then foldl apply n stream
  else nav (buffer_flush (foldl buffer_update (MkBuffer [::] n) stream)).

End SortingBuffer.

(** The packets in the order in which [loop] applies them. *)
Definition delivered (strategy : sync_strategy_t) (stream : seq Packet) : seq Packet :=
  loop (fun tr p => rcons tr p) strategy [::] stream.

(** *** Facts on the sorting buffer *)


Section SortingBufferFacts.

Variable NAV : Type.
Variable apply : NAV -> Packet -> NAV.

Lemma foldl_rcons_trace (tr : seq Packet) (ps : seq Packet) :
  foldl (fun tr p => rcons tr p) tr ps = tr ++ ps.
Proof.
by elim: ps tr => [|p ps IH] tr /=; rewrite ?cats0 // IH cat_rcons.
Qed.






End SortingBufferFacts.








(** ** The dense matrix kernel ([Matrix<T>] over [Array2D_Dense<T>])

    The template parameter [T] comes with the operators the kernel applies
    to it.  Matrices are taken without a view (the decompositions copy a
    viewed matrix first); the storage is the row-major array of
    [Array2D_Dense]. *)

Record num_ops (T : Type) := NumOps {
  zero : T;
  one : T;
  add : T -> T -> T;
  sub : T -> T -> T;
  mul : T -> T -> T;
  div : T -> T -> T;
  opp : T -> T;
  eqb : T -> T -> bool
}.

(** [Matrix<double>] *)
Definition double_ops : num_ops float :=
  NumOps 0%float 1%float PrimFloat.add PrimFloat.sub PrimFloat.mul
    PrimFloat.div PrimFloat.opp PrimFloat.eqb.

(** [for(i = lo; i < hi; i++)] *)
Definition for_range (A : Type) (lo hi : nat) (body : nat -> A -> A) (a : A) : A :=
  foldl (fun st i => body i st) a (iota lo (hi - lo)).

(** [for(i = hi; i > lo;){ i--; ... }], the descending loop. *)
Definition for_down (A : Type) (lo hi : nat) (body : nat -> A -> A) (a : A) : A :=
  foldl (fun st i => body i st) a (rev (iota lo (hi - lo))).

Section MatrixKernel.

Variable T : Type.
Variable ops : num_ops T.

Local Notation "0" := (zero ops).
Local Notation "1" := (one ops).

Record Matrix := MkMatrix {
  rows : nat;
  columns : nat;
  values : seq T
}.

(** [operator()(row, column)] reads [values[(row * columns()) + column]]. *)
Definition get (M : Matrix) (row column : nat) : T :=
  nth 0 (values M) (row * columns M + column).

Definition set (M : Matrix) (row column : nat) (v : T) : Matrix :=
  MkMatrix (rows M) (columns M)
    (set_nth 0 (values M) (row * columns M + column) v).

(** [Matrix(rows, columns)], cleared with [T(0)]. *)
Definition cleared (new_rows new_columns : nat) : Matrix :=
  MkMatrix new_rows new_columns (nseq (new_rows * new_columns) 0).

(** [blank(rows, columns)]: the storage is not initialized in the source;
    every use below writes an element before reading it. *)
Definition blank (new_rows new_columns : nat) : Matrix :=
  MkMatrix new_rows new_columns (nseq (new_rows * new_columns) 0).

Definition copy (M : Matrix) : Matrix := M.

Definition isSquare (M : Matrix) : bool := rows M == columns M.

Definition isSymmetric (M : Matrix) : bool :=
  if isSquare M then
    all (fun i =>
           all (fun j => eqb ops (get M i j) (get M j i))
               (iota i.+1 (columns M - i.+1)))
        (iota 0 (rows M))
  else false.

(** [coMatrix(row, column)], called [matrix_for_minor] in the later
    revision: the matrix without a row and a column. *)
Definition copy_row_without (M : Matrix) (column i i2 : nat) (res : Matrix) : Matrix :=
  let res := for_range 0 column (fun j res => set res i j (get M i2 j)) res in
  for_range column (columns res) (fun j res => set res i j (get M i2 j.+1)) res.

Definition coMatrix (M : Matrix) (row column : nat) : Matrix :=
  let res := blank (rows M - 1) (columns M - 1) in
  let res := for_range 0 row (fun i res => copy_row_without M column i i res) res in
  for_range row (rows res) (fun i res => copy_row_without M column i i.+1 res) res.

(** [determinant] of the earlier revision: the expansion along the first
    column.  The recursion is on the number of rows, which [fuel] bounds. *)
Fixpoint determinant_rec (fuel : nat) (M : Matrix) : T :=
  if rows M == 1%N then get M 0 0
  else
    match fuel with
    | 0%N => 0
    | fuel'.+1 =>
        (for_range 0 (rows M)
           (fun i '(sum, sign) =>
              ((if ~~ eqb ops (get M i 0) 0
                then add ops sum
                       (mul ops
                          (mul ops (get M i 0)
                             (determinant_rec fuel' (coMatrix M i 0)))
                          sign)
                else sum),
               opp ops sign))
           (0, 1)).1
    end.

(** [None] stands for the [MatrixException]. *)
Definition determinant (M : Matrix) (do_check : bool) : option T :=
  if do_check && ~~ isSquare M then None
  else Some (determinant_rec (rows M) M).

(** [decomposeLUP] of the later revision: L in the columns [0, n) and U in
    the columns [n, 2n) of the result. *)
Definition getL (LU : Matrix) (i j : nat) : T := get LU i j.
Definition getU (LU : Matrix) (n i j : nat) : T := get LU i (j + n).
Definition setL (LU : Matrix) (i j : nat) (v : T) : Matrix := set LU i j v.
Definition setU (LU : Matrix) (n i j : nat) (v : T) : Matrix := set LU i (j + n) v.

Definition LU_start_row (M : Matrix) (n rws i : nat) (LU : Matrix) : Matrix :=
  let LU := setU LU n i i (get M i i) in
  let LU := setL LU i i 1 in
  for_range i.+1 rws
    (fun j LU =>
       let LU := setU LU n i j (get M i j) in
       let LU := setU LU n j i (get M j i) in
       setL LU i j 0)
    LU.

Definition LU_start (M : Matrix) : Matrix :=
  for_range 0 (rows M) (LU_start_row M (columns M) (rows M))
    (blank (rows M) (columns M * 2)).

(** [do{ if(++j == rows()) throw ...; }while(U(i, j) == T(0));]: the
    columns that remain after [j] are counted by [left]. *)
Fixpoint find_pivot (LU : Matrix) (n i j left : nat) : option nat :=
  match left with
  | 0%N => None
  | left'.+1 =>
      if eqb ops (getU LU n i j.+1) 0 then find_pivot LU n i j.+1 left'
      else Some j.+1
  end.

Definition exchange_columns (LU : Matrix) (n rws i j : nat) : Matrix :=
  for_range 0 rws
    (fun i2 LU =>
       let temp := getU LU n i2 i in
       let LU := setU LU n i2 i (getU LU n i2 j) in
       setU LU n i2 j temp)
    LU.

Definition exchange_pivot (pivot : seq nat) (i j : nat) : seq nat :=
  let temp := nth 0%N pivot i in
  set_nth 0%N (set_nth 0%N pivot i (nth 0%N pivot j)) j temp.

Definition eliminate_row (n rws i i2 : nat) (LU : Matrix) : Matrix :=
  let LU := setL LU i2 i (div ops (getU LU n i2 i) (getU LU n i i)) in
  let LU := setU LU n i2 i 0 in
  for_range i.+1 rws
    (fun j2 LU =>
       setU LU n i2 j2
         (sub ops (getU LU n i2 j2)
            (mul ops (getL LU i2 i) (getU LU n i j2))))
    LU.

Definition eliminate (LU : Matrix) (n rws i : nat) : Matrix :=
  for_range i.+1 rws (eliminate_row n rws i) LU.

(** One turn of the elimination loop on (LU, pivot_num, pivot). *)
Definition LUP_step (n rws i : nat) (st : option (Matrix * nat * seq nat))
    : option (Matrix * nat * seq nat) :=
  match st with
  | None => None
  | Some (LU, pivot_num, pivot) =>
      if eqb ops (getU LU n i i) 0 then
        match find_pivot LU n i i (rws - i.+1) with
        | None => None
        | Some j =>
            Some (eliminate (exchange_columns LU n rws i j) n rws i,
                  pivot_num.+1, exchange_pivot pivot i j)
        end
      else Some (eliminate LU n rws i, pivot_num, pivot)
  end.

Definition decomposeLUP (M : Matrix) (do_check : bool)
    : option (Matrix * nat * seq nat) :=
  if do_check && ~~ isSquare M then None
  else
    for_range 0 (rows M) (LUP_step (columns M) (rows M))
      (Some (LU_start M, 0%N, iota 0 (rows M))).

(** [determinant_LU], which is [determinant] in the later revision. *)
Definition determinant_LU (M : Matrix) (do_check : bool) : option T :=
  match decomposeLUP M do_check with
  | None => None
  | Some (LU, pivot_num, _) =>
      Some (for_range 0 (rows M)
              (fun i res => mul ops res (mul ops (get LU i i) (get LU i (i + rows M))))
              (if pivot_num %% 2 == 0%N then 1 else opp ops 1))
  end.

(** [decomposeUD] (the same in both revisions): U in the columns [0, n) and
    D in the columns [n, 2n) of the result. *)
Definition UD_reduce (n i j : nat) (UD P : Matrix) : Matrix :=
  for_range 0 j.+1
    (fun k P =>
       set P k j
         (sub ops (get P k j)
            (mul ops (mul ops (get UD k i) (get UD i (i + n))) (get UD j i))))
    P.

Definition UD_row (n i j : nat) (st : Matrix * Matrix) : Matrix * Matrix :=
  let '(P, UD) := st in
  let UD := set UD j i (div ops (get P j i) (get UD i (i + n))) in
  (UD_reduce n i j UD P, UD).

Definition UD_column (n i : nat) (st : Matrix * Matrix) : Matrix * Matrix :=
  let '(P, UD) := st in
  let UD := set UD i (i + n) (get P i i) in
  let UD := set UD i i 1 in
  for_range 0 i (UD_row n i) (P, UD).

Definition decomposeUD (M : Matrix) (do_check : bool) : option Matrix :=
  if do_check && ~~ isSymmetric M then None
  else
    Some (for_down 0 (rows M) (UD_column (columns M))
            (copy M, cleared (rows M) (columns M * 2))).2.

End MatrixKernel.

(** *** Loops and element access *)

Lemma for_range_nil (A : Type) (lo hi : nat) (body : nat -> A -> A) (a : A) :
  hi <= lo -> for_range lo hi body a = a.
Proof. by rewrite /for_range -subn_eq0 => /eqP ->. Qed.

Lemma for_range_recr (A : Type) (lo hi : nat) (body : nat -> A -> A) (a : A) :
  lo <= hi -> for_range lo hi.+1 body a = body hi (for_range lo hi body a).
Proof.
move=> Hle; rewrite /for_range subSn // -addn1 iotaD foldl_cat /=.
by rewrite subnKC.
Qed.

(** The invariant rule of an ascending loop. *)
Lemma for_range_ind (A : Type) (P : nat -> A -> Prop) (lo hi : nat)
    (body : nat -> A -> A) (a : A) :
  lo <= hi -> P lo a ->
  (forall i st, lo <= i < hi -> P i st -> P i.+1 (body i st)) ->
  P hi (for_range lo hi body a).
Proof.
move=> Hle H0 Hstep.
elim: hi Hle Hstep => [|hi IH] Hle Hstep.
  by move: Hle H0; rewrite leqn0 => /eqP ->.
move: Hle; rewrite leq_eqVlt => /orP [/eqP E|].
  by rewrite -E for_range_nil.
rewrite ltnS => Hlt.
rewrite for_range_recr //; apply: (Hstep); first by rewrite Hlt /=.
apply: IH => // i st /andP [Hi1 Hi2]; apply: (Hstep).
by rewrite Hi1 (ltn_trans Hi2).
Qed.

Lemma for_down_recl (A : Type) (lo hi : nat) (body : nat -> A -> A) (a : A) :
  lo <= hi -> for_down lo hi.+1 body a = for_down lo hi body (body hi a).
Proof.
move=> Hle; rewrite /for_down subSn // -addn1 iotaD rev_cat /=.
by rewrite subnKC.
Qed.

(** The invariant rule of a descending loop: [P i] holds before the turn
    for [i - 1]. *)
Lemma for_down_ind (A : Type) (P : nat -> A -> Prop) (lo hi : nat)
    (body : nat -> A -> A) (a : A) :
  lo <= hi -> P hi a ->
  (forall i st, lo <= i < hi -> P i.+1 st -> P i (body i st)) ->
  P lo (for_down lo hi body a).
Proof.
move=> Hle H0 Hstep.
elim: hi a Hle H0 Hstep => [|hi IH] a Hle H0 Hstep.
  by move: Hle H0; rewrite leqn0 => /eqP ->.
move: Hle; rewrite leq_eqVlt => /orP [/eqP E|].
  by move: H0; rewrite /for_down -E subnn.
rewrite ltnS => Hlt.
rewrite for_down_recl //; apply: IH => //.
  by apply: (Hstep) => //; rewrite Hlt /=.
move=> i st /andP [Hi1 Hi2]; apply: (Hstep).
by rewrite Hi1 (ltn_trans Hi2).
Qed.

Lemma flat_index_eq (c i j i' j' : nat) :
  j < c -> j' < c ->
  (i' * c + j' == i * c + j) = (i' == i) && (j' == j).
Proof.
move=> Hj Hj'; have c0: 0 < c by exact: leq_ltn_trans Hj.
apply/eqP/andP => [E|[/eqP -> /eqP ->] //].
have Ed := congr1 (divn^~ c) E; have Em := congr1 (modn^~ c) E.
move: Ed Em; rewrite !divnMDl // !divn_small // !addn0 => ->.
by rewrite !modnMDl !modn_small // => ->.
Qed.

Section MatrixAccess.

Variable T : Type.
Variable ops : num_ops T.

Lemma rows_set (M : Matrix T) i j v : rows (set ops M i j v) = rows M.
Proof. by []. Qed.

Lemma columns_set (M : Matrix T) i j v : columns (set ops M i j v) = columns M.
Proof. by []. Qed.

Lemma get_set (M : Matrix T) i j v i' j' :
  j < columns M -> j' < columns M ->
  get ops (set ops M i j v) i' j' =
    if (i' == i) && (j' == j) then v else get ops M i' j'.
Proof.
by move=> Hj Hj'; rewrite /get /set /= nth_set_nth /= flat_index_eq.
Qed.

End MatrixAccess.

Section CoMatrixFacts.

Variable T : Type.
Variable ops : num_ops T.

Lemma copy_row_without_spec (M res : Matrix T) (column i i2 c : nat) :
  columns res = c -> column <= c ->
  let res' := copy_row_without ops M column i i2 res in
  [/\ rows res' = rows res, columns res' = c &
      forall i' j', j' < c ->
        get ops res' i' j' =
          if i' == i then get ops M i2 (bump column j') else get ops res i' j'].
Proof.
move=> Hc Hcol; rewrite /copy_row_without.
set r1 := for_range 0 column _ res.
have [R1 C1 G1]: [/\ rows r1 = rows res, columns r1 = c &
    forall i' j', j' < c ->
      get ops r1 i' j' =
        if (i' == i) && (j' < column) then get ops M i2 j' else get ops res i' j'].
  rewrite /r1; apply: (@for_range_ind _ (fun j r =>
    [/\ rows r = rows res, columns r = c &
      forall i' j', j' < c ->
        get ops r i' j' =
          if (i' == i) && (j' < j) then get ops M i2 j' else get ops res i' j'])) => //.
    by split=> // i' j' _; rewrite ltn0 andbF.
  move=> j r /andP [_ Hj] [Rr Cr Gr]; split=> // i' j' Hj'.
  have Hjc: j < c by exact: leq_trans Hj Hcol.
  rewrite get_set ?Cr // Gr // ltnS [j' <= j]leq_eqVlt.
  case: (i' == i) => //=; case: (j' == j) / eqP => [->|] //=.
rewrite C1.
set r2 := for_range column c _ r1.
have [R2 C2 G2]: [/\ rows r2 = rows res, columns r2 = c &
    forall i' j', j' < c ->
      get ops r2 i' j' =
        if i' == i then
          (if j' < column then get ops M i2 j'
           else if j' < c then get ops M i2 j'.+1 else get ops res i' j')
        else get ops res i' j'].
  rewrite /r2; apply: (@for_range_ind _ (fun j r =>
    [/\ rows r = rows res, columns r = c &
      forall i' j', j' < c ->
        get ops r i' j' =
          if i' == i then
            (if j' < column then get ops M i2 j'
             else if j' < j then get ops M i2 j'.+1 else get ops res i' j')
          else get ops res i' j'])) => //.
  - split=> // i' j' Hj'; rewrite G1 //.
    by case: (i' == i) => //=; case: ifP => //; rewrite ltnNge => ->.
  - move=> j r /andP [Hj1 Hj2] [Rr Cr Gr]; split=> // i' j' Hj'.
    rewrite get_set ?Cr // Gr // ltnS [j' <= j]leq_eqVlt.
    case: (i' == i) => //=; case: (j' == j) / eqP => [->|] //=.
    by rewrite ltnNge Hj1.
split=> // i' j' Hj'; rewrite G2 // /bump Hj'.
by case: (i' == i) => //; rewrite ltnNge; case: (column <= j').
Qed.

Lemma coMatrix_spec (M : Matrix T) (n c row column : nat) :
  rows M = n.+1 -> columns M = c.+1 -> row <= n -> column <= c ->
  [/\ rows (coMatrix ops M row column) = n,
      columns (coMatrix ops M row column) = c &
      forall i j, i < n -> j < c ->
        get ops (coMatrix ops M row column) i j
        = get ops M (bump row i) (bump column j)].
Proof.
move=> HR HC Hrow Hcol; rewrite /coMatrix HR HC !subn1 /=.
set r0 := blank ops n c.
set r1 := for_range 0 row _ r0.
have [R1 C1 G1]: [/\ rows r1 = n, columns r1 = c &
    forall i j, i < row -> j < c -> get ops r1 i j = get ops M i (bump column j)].
  rewrite /r1; apply: (@for_range_ind _ (fun k r =>
    [/\ rows r = n, columns r = c &
      forall i j, i < k -> j < c ->
        get ops r i j = get ops M i (bump column j)])) => //.
  move=> k r _ [Rr Cr Gr].
  have [R' C' G'] := @copy_row_without_spec M r column k k c Cr Hcol.
  split=> //; first by rewrite R'.
  move=> i j; rewrite ltnS leq_eqVlt => Hi Hj; rewrite G' //.
  by case: (i == k) / eqP Hi => [->|_] //= Hi; apply: Gr.
rewrite R1.
set r2 := for_range row n _ r1.
have [R2 C2 G2]: [/\ rows r2 = n, columns r2 = c &
    forall i j, i < n -> j < c ->
      get ops r2 i j = get ops M (bump row i) (bump column j)].
  rewrite /r2; apply: (@for_range_ind _ (fun k r =>
    [/\ rows r = n, columns r = c &
      forall i j, i < k -> j < c ->
        get ops r i j = get ops M (bump row i) (bump column j)])) => //.
  - split=> // i j Hi Hj; rewrite G1 //.
    by have ->: bump row i = i by rewrite /bump leqNgt Hi.
  - move=> k r /andP [Hk _] [Rr Cr Gr].
    have [R' C' G'] := @copy_row_without_spec M r column k k.+1 c Cr Hcol.
    split=> //; first by rewrite R'.
    move=> i j; rewrite ltnS leq_eqVlt => Hi Hj; rewrite G' //.
    case: (i == k) / eqP Hi => [->|_] //= Hi; last exact: Gr.
    by have ->: bump row k = k.+1 by rewrite /bump Hk add1n.
by [].
Qed.

End CoMatrixFacts.

Section FieldKernel.

Variable F : fieldType.

Import GRing.Theory.
Local Open Scope ring_scope.

(** The kernel over a field: exact arithmetic. *)
Definition field_ops : num_ops F :=
  NumOps 0 1 +%R (fun x y => x - y) *%R (fun x y => x / y) -%R eq_op.

(** The mathematical matrix a stored matrix stands for. *)
Definition mx_of (n m : nat) (M : Matrix F) : 'M[F]_(n, m) :=
  \matrix_(i, j) get field_ops M i j.

Lemma mx_of_coMatrix (n : nat) (M : Matrix F) (i : 'I_n.+1) (j : 'I_n.+1) :
  rows M = n.+1 -> columns M = n.+1 ->
  mx_of n n (coMatrix field_ops M i j) = row' i (col' j (mx_of n.+1 n.+1 M)).
Proof.
move=> HR HC.
have [_ _ G] := @coMatrix_spec F field_ops M n n i j HR HC
                  (ltn_ord i : i <= n)%N (ltn_ord j : j <= n)%N.
by apply/matrixP => k l; rewrite !mxE G.
Qed.

Lemma determinant_rec_det (n : nat) (M : Matrix F) :
  rows M = n.+1 -> columns M = n.+1 ->
  determinant_rec field_ops n.+1 M = \det (mx_of n.+1 n.+1 M).
Proof.
elim: n M => [|n IH] M HR HC.
  by rewrite /= HR eqxx (det_mx11 (mx_of 1 1 M)) mxE.
rewrite [LHS]/= HR /=.
set body := (X in for_range _ _ X).
have [Hsum _]:
  let st := for_range 0 n.+2 body (0, 1) in
  st.1 = \sum_(0 <= i < n.+2)
           get field_ops M i 0 *
             determinant_rec field_ops n.+1 (coMatrix field_ops M i 0) * (-1) ^+ i
  /\ st.2 = (-1) ^+ n.+2.
  apply: (@for_range_ind _ (fun k st =>
    st.1 = \sum_(0 <= i < k)
             get field_ops M i 0 *
               determinant_rec field_ops n.+1 (coMatrix field_ops M i 0) * (-1) ^+ i
    /\ st.2 = (-1) ^+ k)) => //.
    by rewrite big_geq.
  move=> k [sum sign] _ /= [-> ->]; rewrite big_nat_recr //= exprS mulN1r; split=> //.
  case: eqP => // ->.
  by rewrite !mul0r addr0.
rewrite Hsum big_mkord (expand_det_col (mx_of n.+2 n.+2 M) ord0).
apply: eq_bigr => i _.
rewrite /cofactor -mx_of_coMatrix // -IH ?mxE ?addn0.
- by have [-> _ _] := @coMatrix_spec F field_ops M n.+1 n.+1 i 0 HR HC
                        (ltn_ord i : i <= n.+1)%N (leq0n _).
- by have [_ -> _] := @coMatrix_spec F field_ops M n.+1 n.+1 i 0 HR HC
                        (ltn_ord i : i <= n.+1)%N (leq0n _).
- by rewrite -mulrA; congr (_ * _); rewrite mulrC.
Qed.

End FieldKernel.

Section LUAccess.

Variable T : Type.
Variable ops : num_ops T.

Lemma ltn_double_l (n j : nat) : j < n -> j < (n * 2)%N.
Proof. by move=> Hj; rewrite muln2 -addnn ltn_addl. Qed.

Lemma ltn_double_r (n j : nat) : j < n -> j + n < (n * 2)%N.
Proof. by move=> Hj; rewrite muln2 -addnn ltn_add2r. Qed.

Lemma getU_setU (LU : Matrix T) (n i j i' j' : nat) (v : T) :
  columns LU = (n * 2)%N -> j < n -> j' < n ->
  getU ops (setU ops LU n i j v) n i' j' =
    if (i' == i) && (j' == j) then v else getU ops LU n i' j'.
Proof.
move=> HC Hj Hj'; rewrite /getU /setU get_set.
- by rewrite HC; exact: ltn_double_r.
- by rewrite HC; exact: ltn_double_r.
- by rewrite eqn_add2r.
Qed.

Lemma getU_setL (LU : Matrix T) (n i j i' j' : nat) (v : T) :
  columns LU = (n * 2)%N -> j < n -> j' < n ->
  getU ops (setL ops LU i j v) n i' j' = getU ops LU n i' j'.
Proof.
move=> HC Hj Hj'; rewrite /getU /setL get_set.
- by rewrite HC; exact: ltn_double_l.
- by rewrite HC; exact: ltn_double_r.
- have ->: (j' + n == j) = false.
    by apply/negbTE; rewrite neq_ltn [X in _ || X]ltn_addl ?orbT.
  by rewrite andbF.
Qed.

Lemma getL_setU (LU : Matrix T) (n i j i' j' : nat) (v : T) :
  columns LU = (n * 2)%N -> j < n -> j' < n ->
  getL ops (setU ops LU n i j v) i' j' = getL ops LU i' j'.
Proof.
move=> HC Hj Hj'; rewrite /getL /setU get_set.
- by rewrite HC; exact: ltn_double_r.
- by rewrite HC; exact: ltn_double_l.
- have ->: (j' == j + n) = false.
    by apply/negbTE; rewrite neq_ltn ltn_addl.
  by rewrite andbF.
Qed.

Lemma getL_setL (LU : Matrix T) (n i j i' j' : nat) (v : T) :
  columns LU = (n * 2)%N -> j < n -> j' < n ->
  getL ops (setL ops LU i j v) i' j' =
    if (i' == i) && (j' == j) then v else getL ops LU i' j'.
Proof.
move=> HC Hj Hj'; rewrite /getL /setL get_set //.
- by rewrite HC; exact: ltn_double_l.
- by rewrite HC; exact: ltn_double_l.
Qed.

End LUAccess.

Section LUFacts.

Variable T : Type.
Variable ops : num_ops T.

Lemma LU_start_row_spec (M LU : Matrix T) (n i : nat) :
  i < n -> rows LU = n -> columns LU = (n * 2)%N ->
  let LU' := LU_start_row ops M n n i LU in
  [/\ rows LU' = n, columns LU' = (n * 2)%N,
      forall r c, r < n -> c < n ->
        getU ops LU' n r c =
          if ((r == i) && (i <= c)) || ((c == i) && (i <= r))
          then get ops M r c else getU ops LU n r c &
      forall r, r < n ->
        getL ops LU' r r = if r == i then one ops else getL ops LU r r].
Proof.
move=> Hi R C LU'.
have: [/\ rows LU' = n, columns LU' = (n * 2)%N,
      forall r c, r < n -> c < n ->
        getU ops LU' n r c =
          if ((r == i) && (i <= c < n)) || ((c == i) && (i <= r < n))
          then get ops M r c else getU ops LU n r c &
      forall r, r < n ->
        getL ops LU' r r = if r == i then one ops else getL ops LU r r].
  rewrite /LU' /LU_start_row.
  apply: (@for_range_ind _ (fun j X =>
    [/\ rows X = n, columns X = (n * 2)%N,
      forall r c, r < n -> c < n ->
        getU ops X n r c =
          if ((r == i) && (i <= c < j)) || ((c == i) && (i <= r < j))
          then get ops M r c else getU ops LU n r c &
      forall r, r < n ->
        getL ops X r r = if r == i then one ops else getL ops LU r r])) => //.
  - split=> // [r c Hr Hc|r Hr].
      rewrite getU_setL // getU_setU // !ltnS -!eqn_leq.
      rewrite ![i == _]eq_sym [(c == i) && _]andbC orbb.
      by case: andP => [[/eqP -> /eqP ->]|].
    by rewrite (@getL_setL _ _ _ n) // getL_setU // andbb.
  - move=> j X /andP [Hij Hj] [RX CX GU GL]; split=> // [r c Hr Hc|r Hr].
      rewrite getU_setL // getU_setU // getU_setU // GU //.
      rewrite [c < j.+1]ltnS [r < j.+1]ltnS [c <= j]leq_eqVlt [r <= j]leq_eqVlt.
      case EA: ((r == j) && (c == i)).
        move/andP: EA => [/eqP -> /eqP ->].
        by rewrite !eqxx (ltnW Hij) /= orbT.
      case EB: ((r == i) && (c == j)).
        move/andP: EB => [/eqP -> /eqP ->].
        by rewrite !eqxx (ltnW Hij).
      move: EA EB.
      by case: (r == i); case: (c == i); case: (r == j); case: (c == j);
         case: (i <= c); case: (c < j); case: (i <= r); case: (r < j).
    rewrite (@getL_setL _ _ _ n) // getL_setU // getL_setU // GL //.
    case: (r =P i) => [->|_] //=.
    by rewrite (ltn_eqF Hij).
case=> R' C' GU GL; split=> // r c Hr Hc; rewrite GU // Hr Hc.
by rewrite !andbT.
Qed.

Lemma LU_start_spec (M : Matrix T) (n : nat) :
  rows M = n -> columns M = n ->
  [/\ rows (LU_start ops M) = n, columns (LU_start ops M) = (n * 2)%N,
      forall r c, r < n -> c < n ->
        getU ops (LU_start ops M) n r c = get ops M r c &
      forall r, r < n -> getL ops (LU_start ops M) r r = one ops].
Proof.
move=> HR HC; rewrite /LU_start HR HC.
have: [/\ rows (for_range 0 n (LU_start_row ops M n n) (blank ops n (n * 2))) = n,
    columns (for_range 0 n (LU_start_row ops M n n) (blank ops n (n * 2)))
      = (n * 2)%N,
    forall r c, r < n -> c < n -> (r < n) || (c < n) ->
      getU ops (for_range 0 n (LU_start_row ops M n n) (blank ops n (n * 2)))
        n r c = get ops M r c &
    forall r, r < n -> r < n ->
      getL ops (for_range 0 n (LU_start_row ops M n n) (blank ops n (n * 2)))
        r r = one ops].
  apply: (@for_range_ind _ (fun i LU =>
    [/\ rows LU = n, columns LU = (n * 2)%N,
        forall r c, r < n -> c < n -> (r < i) || (c < i) ->
          getU ops LU n r c = get ops M r c &
        forall r, r < n -> r < i -> getL ops LU r r = one ops])) => //.
  move=> i LU /andP [_ Hi] [R C GU GL].
  have [R' C' GU' GL'] := LU_start_row_spec M Hi R C.
  split=> // [r c Hr Hc|r Hr].
    rewrite GU' // [r < i.+1]ltnS [c < i.+1]ltnS [r <= i]leq_eqVlt [c <= i]leq_eqVlt.
    case: (r =P i) => [->|Hri] /=; case: (c =P i) => [->|Hci] /=;
      rewrite ?leqnn ?andbT ?andbF ?orbT ?orbF //=.
    + by case: (leqP i c) => //= Hci' _; apply: GU => //; rewrite Hci' orbT.
    + by case: (leqP i r) => //= Hri' _; apply: GU => //; rewrite Hri'.
    + exact: GU.
  rewrite GL' // ltnS leq_eqVlt.
  by case: (r =P i) => [->|_] //= Hri; apply: GL.
case=> R C GU GL; split=> // [r c Hr Hc|r Hr]; first by apply: GU => //; rewrite Hr.
exact: GL.
Qed.

Definition swap_index (i j c : nat) : nat :=
  if c == i then j else if c == j then i else c.

Lemma exchange_columns_spec (LU : Matrix T) (n i j : nat) :
  i < n -> j < n -> rows LU = n -> columns LU = (n * 2)%N ->
  let LU' := exchange_columns ops LU n n i j in
  [/\ rows LU' = n, columns LU' = (n * 2)%N,
      forall r c, r < n -> c < n ->
        getU ops LU' n r c = getU ops LU n r (swap_index i j c) &
      forall r c, r < n -> c < n -> getL ops LU' r c = getL ops LU r c].
Proof.
move=> Hi Hj R C LU'.
have: [/\ rows LU' = n, columns LU' = (n * 2)%N,
      forall r c, r < n -> c < n ->
        getU ops LU' n r c =
          if r < n then getU ops LU n r (swap_index i j c) else getU ops LU n r c &
      forall r c, r < n -> c < n -> getL ops LU' r c = getL ops LU r c].
  rewrite /LU' /exchange_columns.
  apply: (@for_range_ind _ (fun i2 X =>
    [/\ rows X = n, columns X = (n * 2)%N,
      forall r c, r < n -> c < n ->
        getU ops X n r c =
          if r < i2 then getU ops LU n r (swap_index i j c) else getU ops LU n r c &
      forall r c, r < n -> c < n -> getL ops X r c = getL ops LU r c])) => //.
  move=> i2 X /andP [_ Hi2] [RX CX GU GL]; split=> // [r c Hr Hc|r c Hr Hc].
    rewrite getU_setU // getU_setU // !GU // ltnn [r < i2.+1]ltnS [r <= i2]leq_eqVlt.
    rewrite /swap_index.
    case: (r =P i2) => [->|_] /=; last by [].
    rewrite ltnn.
    case: (c =P j) => [->|_]; first by case: (j =P i) => [->|].
    by case: (c =P i).
  by rewrite getL_setU // getL_setU // GL.
by case=> R' C' GU GL; split=> // r c Hr Hc; rewrite GU // Hr.
Qed.

Lemma find_pivot_spec (LU : Matrix T) (n i j left p : nat) :
  find_pivot ops LU n i j left = Some p ->
  [/\ j < p, p <= j + left & eqb ops (getU ops LU n i p) (zero ops) = false].
Proof.
elim: left j => [|left IH] j //=.
case E: (eqb ops _ _).
  move/IH => [H1 H2 H3]; split=> //; first exact: ltnW.
  by rewrite addnS -addSn.
by case=> <-; split=> //; rewrite addnS ltnS leq_addr.
Qed.

Lemma eliminate_row_spec (LU : Matrix T) (n i i2 : nat) :
  i < i2 -> i2 < n -> rows LU = n -> columns LU = (n * 2)%N ->
  let LU' := eliminate_row ops n n i i2 LU in
  let l := div ops (getU ops LU n i2 i) (getU ops LU n i i) in
  [/\ rows LU' = n, columns LU' = (n * 2)%N,
      forall r c, r < n -> c < n ->
        getU ops LU' n r c =
          if r == i2 then
            if c == i then zero ops
            else if i < c then
                   sub ops (getU ops LU n i2 c) (mul ops l (getU ops LU n i c))
                 else getU ops LU n r c
          else getU ops LU n r c &
      forall r c, r < n -> c < n ->
        getL ops LU' r c =
          if (r == i2) && (c == i) then l else getL ops LU r c].
Proof.
move=> Hi Hi2 R C LU' l.
have Hin: i < n by exact: ltn_trans Hi Hi2.
have: [/\ rows LU' = n, columns LU' = (n * 2)%N,
      forall r c, r < n -> c < n ->
        getU ops LU' n r c =
          if r == i2 then
            if c == i then zero ops
            else if i < c < n then
                   sub ops (getU ops LU n i2 c) (mul ops l (getU ops LU n i c))
                 else getU ops LU n r c
          else getU ops LU n r c &
      forall r c, r < n -> c < n ->
        getL ops LU' r c =
          if (r == i2) && (c == i) then l else getL ops LU r c].
  rewrite /LU' /eliminate_row.
  apply: (@for_range_ind _ (fun j2 X =>
    [/\ rows X = n, columns X = (n * 2)%N,
      forall r c, r < n -> c < n ->
        getU ops X n r c =
          if r == i2 then
            if c == i then zero ops
            else if i < c < j2 then
                   sub ops (getU ops LU n i2 c) (mul ops l (getU ops LU n i c))
                 else getU ops LU n r c
          else getU ops LU n r c &
      forall r c, r < n -> c < n ->
        getL ops X r c =
          if (r == i2) && (c == i) then l else getL ops LU r c])) => //.
  - split=> // [r c Hr Hc|r c Hr Hc].
      rewrite getU_setU // getU_setL // [c < i.+1]ltnS.
      have ->: (i < c <= i) = false by rewrite ltnNge andNb.
      by case: (r == i2) => //=; case: (c == i).
    by rewrite getL_setU // (@getL_setL _ _ _ n).
  - move=> j2 X /andP [Hj2 Hj2n] [RX CX GU GL]; split=> // [r c Hr Hc|r c Hr Hc].
      rewrite getU_setU // !GU // GL // !eqxx /= (gtn_eqF Hj2) (ltn_eqF Hi) ltnn andbF.
      rewrite [c < j2.+1]ltnS [c <= j2]leq_eqVlt.
      case: (r =P i2) => [->|_] //=.
      case: (c =P j2) => [->|_] /=; last by [].
      by rewrite (gtn_eqF Hj2) Hj2.
    by rewrite getL_setU // GL.
case=> R' C' GU GL; split=> // r c Hr Hc; rewrite GU //.
by rewrite Hc andbT.
Qed.

Lemma eliminate_spec (LU : Matrix T) (n i : nat) :
  i < n -> rows LU = n -> columns LU = (n * 2)%N ->
  let LU' := eliminate ops LU n n i in
  [/\ rows LU' = n, columns LU' = (n * 2)%N,
      forall r c, r < n -> c < n ->
        getU ops LU' n r c =
          if i < r then
            if c == i then zero ops
            else if i < c then
                   sub ops (getU ops LU n r c)
                     (mul ops (div ops (getU ops LU n r i) (getU ops LU n i i))
                        (getU ops LU n i c))
                 else getU ops LU n r c
          else getU ops LU n r c &
      forall r c, r < n -> c < n ->
        getL ops LU' r c =
          if (i < r) && (c == i)
          then div ops (getU ops LU n r i) (getU ops LU n i i)
          else getL ops LU r c].
Proof.
move=> Hi R C LU'.
have: [/\ rows LU' = n, columns LU' = (n * 2)%N,
      forall r c, r < n -> c < n ->
        getU ops LU' n r c =
          if i < r < n then
            if c == i then zero ops
            else if i < c then
                   sub ops (getU ops LU n r c)
                     (mul ops (div ops (getU ops LU n r i) (getU ops LU n i i))
                        (getU ops LU n i c))
                 else getU ops LU n r c
          else getU ops LU n r c &
      forall r c, r < n -> c < n ->
        getL ops LU' r c =
          if (i < r < n) && (c == i)
          then div ops (getU ops LU n r i) (getU ops LU n i i)
          else getL ops LU r c].
  rewrite /LU' /eliminate.
  apply: (@for_range_ind _ (fun i2 X =>
    [/\ rows X = n, columns X = (n * 2)%N,
      forall r c, r < n -> c < n ->
        getU ops X n r c =
          if i < r < i2 then
            if c == i then zero ops
            else if i < c then
                   sub ops (getU ops LU n r c)
                     (mul ops (div ops (getU ops LU n r i) (getU ops LU n i i))
                        (getU ops LU n i c))
                 else getU ops LU n r c
          else getU ops LU n r c &
      forall r c, r < n -> c < n ->
        getL ops X r c =
          if (i < r < i2) && (c == i)
          then div ops (getU ops LU n r i) (getU ops LU n i i)
          else getL ops LU r c])) => //.
  - split=> // [r c Hr Hc|r c Hr Hc].
      by rewrite [r < i.+1]ltnS ltnNge andNb.
    by rewrite [r < i.+1]ltnS ltnNge andNb.
  - move=> i2 X /andP [Hi2 Hi2n] [RX CX GU GL].
    have [R' C' GU' GL'] := eliminate_row_spec Hi2 Hi2n RX CX.
    split=> // [r c Hr Hc|r c Hr Hc].
      rewrite GU' // !GU // ?ltnn ?andbF ?(ltnn i) //.
      rewrite [r < i2.+1]ltnS [r <= i2]leq_eqVlt.
      case: (r =P i2) => [->|_] /=; last by [].
      by rewrite ltnn andbF Hi2.
    rewrite GL' // GL // !GU // ?ltnn ?andbF //.
    rewrite [r < i2.+1]ltnS [r <= i2]leq_eqVlt.
    case: (r =P i2) => [->|_] /=; last by [].
    by rewrite ltnn andbF Hi2.
case=> R' C' GU GL; split=> // r c Hr Hc; first by rewrite GU // Hr andbT.
by rewrite GL // Hr andbT.
Qed.

End LUFacts.

Section FieldLU.

Variable F : fieldType.

Import GRing.Theory.
Local Open Scope ring_scope.

Local Notation fops := (field_ops F).

(** The U part of a decomposition in progress. *)
Definition Umx (n : nat) (LU : Matrix F) : 'M[F]_n :=
  \matrix_(i, j) getU fops LU n i j.

Lemma swap_index_tperm (n : nat) (i j c : 'I_n) :
  swap_index i j c = tperm i j c :> nat.
Proof.
rewrite /swap_index; case: tpermP => [->|->|/eqP Hi /eqP Hj].
- by rewrite eqxx.
- by rewrite eqxx; case: (j =P i :> nat) => // ->.
- by rewrite -!val_eqE /= in Hi Hj; rewrite (negbTE Hi) (negbTE Hj).
Qed.

Lemma det_exchange_columns (n : nat) (LU : Matrix F) (i j : 'I_n) :
  i != j -> rows LU = n -> columns LU = (n * 2)%N ->
  \det (Umx n (exchange_columns fops LU n n i j)) = - \det (Umx n LU).
Proof.
move=> Hij R C.
have [_ _ GU _] := exchange_columns_spec fops (ltn_ord i) (ltn_ord j) R C.
have ->: Umx n (exchange_columns fops LU n n i j) = xcol i j (Umx n LU).
  by apply/matrixP => r c; rewrite !mxE GU // swap_index_tperm.
by rewrite xcolE det_mulmx det_perm odd_tperm Hij expr1 mulrN1.
Qed.

Lemma det_unit_lower (n : nat) (V : 'M[F]_n) (i : 'I_n) :
  (forall r k : 'I_n, ~~ ((i < r)%N && (k == i)) -> V r k = 0) ->
  \det (1%:M - V) = 1.
Proof.
move=> HV; rewrite det_trig.
- apply/is_trig_mxP => r c Hrc.
  have Hn: ~~ ((i < r)%N && (c == i)).
    apply/negP => /andP [Hir /eqP Hci].
    by move: Hrc; rewrite Hci ltnNge (ltnW Hir).
  by rewrite !mxE (HV _ _ Hn) subr0 -val_eqE /= (ltn_eqF Hrc).
- rewrite big1 // => r _.
  have Hn: ~~ ((i < r)%N && (r == i)).
    by apply/negP => /andP [Hir /eqP Hri]; move: Hir; rewrite Hri ltnn.
  by rewrite !mxE eqxx (HV _ _ Hn) subr0.
Qed.

Lemma det_eliminate (n : nat) (LU : Matrix F) (i : 'I_n) :
  rows LU = n -> columns LU = (n * 2)%N ->
  getU fops LU n i i != 0 ->
  (forall c, (c < i)%N -> getU fops LU n i c = 0) ->
  \det (Umx n (eliminate fops LU n n i)) = \det (Umx n LU).
Proof.
move=> R C Hpiv Hzero.
have [_ _ GU _] := eliminate_spec fops (ltn_ord i) R C.
pose V : 'M[F]_n :=
  \matrix_(r, k) (if (i < r)%N && (k == i)
                  then getU fops LU n r i / getU fops LU n i i else 0).
have ->: Umx n (eliminate fops LU n n i) = (1%:M - V) *m Umx n LU.
  apply/matrixP => r c; rewrite mulmxBl mul1mx !mxE (bigD1 i) //= big1 ?addr0.
    by move=> k Hk; rewrite !mxE (negbTE Hk) andbF mul0r.
  rewrite !mxE eqxx andbT (GU r c (ltn_ord r) (ltn_ord c)) /=.
  case: (ltnP i r) => Hir; last by rewrite mul0r subr0.
  case: (c =P i :> nat) => [Hci|/eqP Hci].
    by rewrite Hci divfK // subrr.
  case: (ltnP i c) => Hic //.
  have Hlt: (c < i)%N by rewrite ltn_neqAle Hci.
  by rewrite (Hzero _ Hlt) mulr0 subr0.
have HV: forall r k : 'I_n, ~~ ((i < r)%N && (k == i)) -> V r k = 0.
  by move=> r k Hn; rewrite mxE (negbTE Hn).
by rewrite det_mulmx (det_unit_lower HV) mul1r.
Qed.

(** The invariant of the elimination loop before the turn for column [i]. *)
Definition LU_inv (n : nat) (A : 'M[F]_n) (i : nat)
    (st : option (Matrix F * nat * seq nat)) : Prop :=
  match st with
  | None => True
  | Some (LU, pivot_num, _) =>
      [/\ rows LU = n, columns LU = (n * 2)%N,
          \det A = (-1) ^+ pivot_num * \det (Umx n LU),
          (forall r c, (r < n)%N -> (c < i)%N -> (c < r)%N ->
             getU fops LU n r c = 0) &
          (forall r, (r < n)%N -> getL fops LU r r = 1)]
  end.

Lemma eliminate_inv (n : nat) (A : 'M[F]_n) (i : nat) (LU : Matrix F)
    (pivot_num : nat) (pivot : seq nat) :
  (i < n)%N -> getU fops LU n i i != 0 ->
  LU_inv A i (Some (LU, pivot_num, pivot)) ->
  LU_inv A i.+1 (Some (eliminate fops LU n n i, pivot_num, pivot)).
Proof.
move=> Hi Hpiv [R C Hdet Hzero Hdiag].
have [R' C' GU GL] := eliminate_spec fops Hi R C.
have Hrow: forall c, (c < Ordinal Hi)%N -> getU fops LU n (Ordinal Hi) c = 0.
  move=> c Hc; apply: Hzero => //.
split=> //.
- by rewrite (@det_eliminate n LU (Ordinal Hi)).
- move=> r c Hr Hc Hcr.
  have Hcn: (c < n)%N by exact: ltn_trans Hcr Hr.
  rewrite GU //; move: Hc; rewrite ltnS leq_eqVlt.
  case: (c =P i) => [Ec _|_ /= Hci].
    by rewrite -Ec Hcr.
  rewrite [(i < c)%N]ltnNge (ltnW Hci) /=.
  by case: ifP => _; apply: Hzero.
- move=> r Hr; rewrite GL //.
  case: (ltnP i r) => [Hir|_] /=; last exact: Hdiag.
  by rewrite (gtn_eqF Hir); apply: Hdiag.
Qed.

Lemma LUP_step_inv (n : nat) (A : 'M[F]_n) (i : nat)
    (st : option (Matrix F * nat * seq nat)) :
  (i < n)%N -> LU_inv A i st -> LU_inv A i.+1 (LUP_step fops n n i st).
Proof.
move=> Hi; case: st => [[[LU pivot_num] pivot]|] //= Hinv.
have [R C Hdet Hzero Hdiag] := Hinv.
case E: (getU fops LU n i i == 0); last first.
  by apply: eliminate_inv => //; rewrite E.
case Ef: (find_pivot _ _ _ _ _ _) => [j|] //.
have [Hij Hjn Hj] := find_pivot_spec Ef.
have {}Hjn: (j < n)%N.
  by move: Hjn; rewrite -ltnS -addSn subnKC.
have [R1 C1 GU1 GL1] := exchange_columns_spec fops Hi Hjn R C.
apply: eliminate_inv => //.
  rewrite GU1 // /swap_index eqxx.
  by move: Hj => /= ->.
split=> //.
- have Hne: Ordinal Hi != Ordinal Hjn by rewrite -val_eqE /= (ltn_eqF Hij).
  rewrite (@det_exchange_columns n LU (Ordinal Hi) (Ordinal Hjn) Hne R C).
  by rewrite Hdet exprS mulN1r mulNr mulrN opprK.
- move=> r c Hr Hc Hcr.
  have Hcn: (c < n)%N by exact: ltn_trans Hcr Hr.
  rewrite GU1 // /swap_index (ltn_eqF Hc) (ltn_eqF (ltn_trans Hc Hij)).
  exact: Hzero.
- by move=> r Hr; rewrite GL1 //; apply: Hdiag.
Qed.

(** The later revision computes the mathematical determinant whenever its
    decomposition succeeds. *)
Lemma determinant_LU_det (n : nat) (M : Matrix F) (d : F) :
  rows M = n -> columns M = n ->
  determinant_LU fops M true = Some d -> d = \det (mx_of n n M).
Proof.
move=> HR HC; rewrite /determinant_LU /decomposeLUP /isSquare HR HC eqxx /=.
have [R0 C0 GU0 GL0] := LU_start_spec fops HR HC.
have Hinv: LU_inv (mx_of n n M) n
    (for_range 0 n (LUP_step fops n n) (Some (LU_start fops M, 0%N, iota 0 n))).
  apply: (@for_range_ind _ (LU_inv (mx_of n n M))) => //.
    split=> //; rewrite expr0 mul1r; congr (\det _).
    by apply/matrixP => r c; rewrite !mxE GU0.
  by move=> i st /andP [_ Hi]; apply: LUP_step_inv.
case: (for_range _ _ _ _) Hinv => [[[LU pivot_num] pivot]|] //=.
move=> [R C Hdet Hzero Hdiag] [<-].
have ->: for_range 0 n
    (fun i res => res * (get fops LU i i * get fops LU i (i + n)))
    (if (pivot_num %% 2)%N == 0%N then 1 else - 1)
  = (-1) ^+ pivot_num * \prod_(0 <= i < n) getU fops LU n i i.
  apply: (@for_range_ind _ (fun k res =>
    res = (-1) ^+ pivot_num * \prod_(0 <= i < k) getU fops LU n i i)) => //.
    rewrite big_geq // mulr1 modn2 -signr_odd.
    by case: (odd pivot_num); rewrite ?expr1 ?expr0.
  move=> i res /andP [_ Hi] ->.
  rewrite big_nat_recr //= -mulrA; congr (_ * (_ * _)).
  by rewrite -/(getL fops LU i i) Hdiag // mul1r.
rewrite Hdet; congr (_ * _).
rewrite -det_tr det_trig.
  apply/is_trig_mxP => r c Hrc; rewrite !mxE.
  exact: Hzero.
by rewrite big_mkord; apply: eq_bigr => r _; rewrite !mxE.
Qed.

End FieldLU.

Section DeterminantAgreement.

Variable F : fieldType.

Import GRing.Theory.
Local Open Scope ring_scope.

(** C8 (in exact arithmetic, from one row on).  Over a field, for every
    square matrix with at least one row on which the LU decomposition of the
    later revision succeeds, the cofactor expansion of the earlier revision
    and the LU determinant of the later one return the same value, the
    determinant of the matrix. *)
Theorem determinant_cofactor_eq_LU (M : Matrix F) :
  rows M = columns M -> (0 < rows M)%N ->
  isSome (determinant_LU (field_ops F) M true) ->
  determinant (field_ops F) M true = determinant_LU (field_ops F) M true /\
  determinant (field_ops F) M true
    = Some (\det (mx_of (rows M) (rows M) M)).
Proof.
move=> Hsq Hpos Hsome.
have HC: columns M = rows M by [].
case En: (rows M) Hpos => [|n] // _.
have Hold: determinant (field_ops F) M true
    = Some (\det (mx_of n.+1 n.+1 M)).
  rewrite /determinant /isSquare -Hsq eqxx /= En.
  by rewrite determinant_rec_det // HC.
split=> //; rewrite Hold.
case Ed: (determinant_LU (field_ops F) M true) Hsome => [d|] // _.
by rewrite (@determinant_LU_det F n.+1 M d) // HC.
Qed.

End DeterminantAgreement.

Definition rat_of_nat (k : nat) : rat := k%:R.

Definition rational_3x3 : Matrix rat :=
  MkMatrix 3 3 [seq rat_of_nat k | k <- [:: 0; 2; 1; 1; 1; 1; 2; 0; 5]].

Lemma determinant_cofactor_eq_LU_witness :
  determinant (field_ops rat) rational_3x3 true
  = determinant_LU (field_ops rat) rational_3x3 true.
Proof.
have Hs: isSome (determinant_LU (field_ops rat) rational_3x3 true).
  by vm_compute.
exact: (proj1 (@determinant_cofactor_eq_LU rat rational_3x3 (erefl 3)
                 (erefl true) Hs)).
Defined.

(** C8 as stated fails on the matrix without rows (the expansion returns 0,
    the product over no pivot 1), and on binary64 by rounding. *)
Lemma determinant_cofactor_differs_from_LU :
  determinant double_ops (MkMatrix 0 0 [::]) true = Some 0%float /\
  determinant_LU double_ops (MkMatrix 0 0 [::]) true = Some 1%float /\
  determinant double_ops (MkMatrix 2 2 [:: 0.1; 0.2; 0.3; 0.4]%float) true
    = Some (-0.01999999999999999)%float /\
  determinant_LU double_ops (MkMatrix 2 2 [:: 0.1; 0.2; 0.3; 0.4]%float) true
    = Some (-0.019999999999999997)%float.
Proof. by vm_compute. Qed.

Section UDFacts.

Variable T : Type.
Variable ops : num_ops T.

(** The innermost loop of [decomposeUD] on the column [j] of P. *)
Lemma UD_reduce_spec (UD P : Matrix T) (n i j : nat) :
  columns P = n -> j < n ->
  let P' := UD_reduce ops n i j UD P in
  [/\ rows P' = rows P, columns P' = n &
      forall r c, c < n ->
        get ops P' r c =
          if (c == j) && (r <= j) then
            sub ops (get ops P r j)
              (mul ops (mul ops (get ops UD r i) (get ops UD i (i + n)))
                 (get ops UD j i))
          else get ops P r c].
Proof.
move=> C Hj P'.
have: [/\ rows P' = rows P, columns P' = n &
      forall r c, c < n ->
        get ops P' r c =
          if (c == j) && (r < j.+1) then
            sub ops (get ops P r j)
              (mul ops (mul ops (get ops UD r i) (get ops UD i (i + n)))
                 (get ops UD j i))
          else get ops P r c].
  rewrite /P' /UD_reduce.
  apply: (@for_range_ind _ (fun k X =>
    [/\ rows X = rows P, columns X = n &
      forall r c, c < n ->
        get ops X r c =
          if (c == j) && (r < k) then
            sub ops (get ops P r j)
              (mul ops (mul ops (get ops UD r i) (get ops UD i (i + n)))
                 (get ops UD j i))
          else get ops P r c])) => //.
  - by split=> // r c Hc; rewrite ltn0 andbF.
  - move=> k X /andP [_ Hk] [RX CX GX]; split=> // r c Hc.
    rewrite get_set ?CX // GX // eqxx ltnn /=.
    rewrite [r < k.+1]ltnS [r <= k]leq_eqVlt GX //.
    case: (c =P j) => [->|_]; last by rewrite andbF.
    by rewrite andbT /=; case: (r =P k) => [->|_].
by case=> R' C' G; split.
Qed.

(** One turn of the loop over [j]: the state is (P, UD). *)
Lemma UD_row_spec (P UD : Matrix T) (n i j : nat) :
  columns P = n -> columns UD = (n * 2)%N -> j < i -> i < n ->
  let st := UD_row ops n i j (P, UD) in
  let u := div ops (get ops P j i) (get ops UD i (i + n)) in
  [/\ columns st.1 = n, columns st.2 = (n * 2)%N,
      forall r c, c < (n * 2)%N ->
        get ops st.2 r c = if (r == j) && (c == i) then u else get ops UD r c &
      forall r c, c < n ->
        get ops st.1 r c =
          if (c == j) && (r <= j) then
            sub ops (get ops P r j)
              (mul ops (mul ops (if r == j then u else get ops UD r i)
                          (get ops UD i (i + n)))
                 u)
          else get ops P r c].
Proof.
move=> CP CU Hj Hi st u.
have Hjn: j < n by exact: ltn_trans Hj Hi.
have Hi2: i < (n * 2)%N by exact: ltn_double_l.
have Hin2: i + n < (n * 2)%N by exact: ltn_double_r.
have [R' C' G'] := @UD_reduce_spec (set ops UD j i u) P n i j CP Hjn.
rewrite /st /UD_row /=; split=> // [r c Hc|r c Hc].
  by rewrite get_set ?CU.
rewrite G' // !get_set ?CU // !eqxx /=.
have ->: (i + n == i) = false by rewrite -[X in _ == X]addn0 eqn_add2l gtn_eqF // (leq_ltn_trans _ Hi).
by rewrite (gtn_eqF Hj) !andbF andbT.
Qed.

(** One turn of the outer loop: the column [i] of U and the entry [i] of D
    are written, and the columns before [i] of P are reduced. *)
Lemma UD_column_spec (P UD : Matrix T) (n i : nat) :
  columns P = n -> columns UD = (n * 2)%N -> i < n ->
  let st := UD_column ops n i (P, UD) in
  let d := get ops P i i in
  let u := fun r => div ops (get ops P r i) d in
  [/\ columns st.1 = n, columns st.2 = (n * 2)%N,
      forall r c, c < (n * 2)%N ->
        get ops st.2 r c =
          if (c == i) && (r < i) then u r
          else if (r == i) && (c == i) then one ops
          else if (r == i) && (c == i + n) then d
          else get ops UD r c &
      forall r c, c < n ->
        get ops st.1 r c =
          if (c < i) && (r <= c) then
            sub ops (get ops P r c) (mul ops (mul ops (u r) d) (u c))
          else get ops P r c].
Proof.
move=> CP CU Hi st d u.
have Hi2: i < (n * 2)%N by exact: ltn_double_l.
have Hin2: i + n < (n * 2)%N by exact: ltn_double_r.
have Hne: (i + n == i) = false.
  by rewrite -[X in _ == X]addn0 eqn_add2l gtn_eqF // (leq_ltn_trans _ Hi).
pose UD2 := set ops (set ops UD i (i + n) d) i i (one ops).
have C2: columns UD2 = (n * 2)%N by [].
have G2 r c: c < (n * 2)%N ->
    get ops UD2 r c =
      if (r == i) && (c == i) then one ops
      else if (r == i) && (c == i + n) then d else get ops UD r c.
  by move=> Hc; rewrite /UD2 !get_set ?CU.
rewrite /st /UD_column -/d -/UD2.
apply: (@for_range_ind _ (fun m X =>
  [/\ columns X.1 = n, columns X.2 = (n * 2)%N,
      forall r c, c < (n * 2)%N ->
        get ops X.2 r c =
          if (c == i) && (r < m) then u r
          else if (r == i) && (c == i) then one ops
          else if (r == i) && (c == i + n) then d
          else get ops UD r c &
      forall r c, c < n ->
        get ops X.1 r c =
          if (c < m) && (r <= c) then
            sub ops (get ops P r c) (mul ops (mul ops (u r) d) (u c))
          else get ops P r c])) => //.
- by split=> // r c Hc; rewrite ?ltn0 ?andbF //= G2.
- move=> m [Pm Um] /andP [_ Hm] /= [CPm CUm GU GP].
  have [C1 C2' GU' GP'] := UD_row_spec CPm CUm Hm Hi.
  have Hmn: m < n by exact: ltn_trans Hm Hi.
  have Ed: get ops Um i (i + n) = d.
    by rewrite GU // Hne !eqxx.
  have Eu: div ops (get ops Pm m i) (get ops Um i (i + n)) = u m.
    by rewrite Ed GP // ltnNge (ltnW Hm).
  split=> // [r c Hc|r c Hc].
    rewrite GU' // Eu GU // [r < m.+1]ltnS [r <= m]leq_eqVlt.
    case: (r =P m) => [->|_] /=; last by [].
    by case: (c =P i) => [->|_].
  rewrite GP' // Eu Ed !GP // ltnn /= [c < m.+1]ltnS [c <= m]leq_eqVlt.
  case: (c =P m) => [->|_] /=; last by [].
  case Hr: (r <= m); last by rewrite andbF.
  case: (r =P m) => [->|/eqP Hrm] //.
  rewrite GU // eqxx /=.
  by move: Hr; rewrite leq_eqVlt (negbTE Hrm) /= => ->.
Qed.

End UDFacts.

Section FieldUD.

Variable F : fieldType.

Import GRing.Theory.
Local Open Scope ring_scope.

Local Notation fops := (field_ops F).

(** The factors held by the result of [decomposeUD]. *)
Definition U_of (n : nat) (UD : Matrix F) : 'M[F]_n :=
  \matrix_(i, j) get fops UD i j.

Definition D_of (n : nat) (UD : Matrix F) : 'M[F]_n :=
  \matrix_(i, j) get fops UD i (j + n).

Lemma isSymmetric_sym (M : Matrix F) :
  isSymmetric fops M ->
  rows M = columns M /\
  forall i j, (i < columns M)%N -> (j < columns M)%N ->
    get fops M i j = get fops M j i.
Proof.
rewrite /isSymmetric /isSquare; case: eqP => // E /allP Hall; split=> //.
have Hlt i j: (i < j)%N -> (j < columns M)%N -> get fops M i j = get fops M j i.
  move=> Hij Hj.
  have Hi: (i < rows M)%N by rewrite E; exact: ltn_trans Hij Hj.
  have Hmem: i \in iota 0 (rows M) by rewrite mem_iota add0n Hi.
  have /allP Hrow := Hall i Hmem.
  apply/eqP; apply: (Hrow j).
  by rewrite mem_iota Hij /= subnKC // -E.
move=> i j Hi Hj; case: (ltngtP i j) => [Hij|Hji|->] //; first exact: Hlt.
by rewrite -Hlt.
Qed.

(** The invariant of the outer loop of [decomposeUD] before the turn for
    the column [i - 1]: the columns from [i] on are final. *)
Definition UD_inv (n : nat) (A : nat -> nat -> F) (i : nat)
    (st : Matrix F * Matrix F) : Prop :=
  let U := fun r c => get fops st.2 r c in
  let D := fun m => get fops st.2 m (m + n) in
  [/\ columns st.1 = n /\ columns st.2 = (n * 2)%N,
      forall m, (i <= m < n)%N -> U m m = 1,
      forall r c, (c < n)%N -> (c < i)%N || (c < r)%N -> U r c = 0,
      forall r c, (c < n)%N -> (r != c) || (c < i)%N ->
        get fops st.2 r (c + n) = 0 &
      (forall m, (0 < m)%N -> (i <= m < n)%N -> D m != 0) ->
      (forall k j, (k <= j)%N -> (j < i)%N ->
         get fops st.1 k j
           = A k j - \sum_(i <= m < n) U k m * D m * U j m) /\
      (forall k j, (k <= j)%N -> (i <= j < n)%N ->
         A k j = \sum_(i <= m < n) U k m * D m * U j m)].

Lemma UD_inv_start (M : Matrix F) (n : nat) :
  columns M = n ->
  UD_inv n (get fops M) n (copy M, cleared fops (rows M) (n * 2)).
Proof.
move=> C.
have G0 r c: get fops (cleared fops (rows M) (n * 2)) r c = 0.
  by rewrite /get /cleared /= nth_nseq; case: ifP.
split=> //=.
- by move=> m; rewrite ltnNge andbC; case: (n <= m)%N.
- move=> _; split=> [k j Hkj Hj|k j _].
    by rewrite big_geq // subr0.
  by rewrite ltnNge andbC; case: (n <= j)%N.
Qed.

Lemma UD_column_inv (n : nat) (A : nat -> nat -> F) (i : nat)
    (st : Matrix F * Matrix F) :
  (i < n)%N -> UD_inv n A i.+1 st -> UD_inv n A i (UD_column fops n i st).
Proof.
case: st => P UD Hi [[/= CP CU] S1 S2 S3 Alg].
have [/= CP' CU' GU GP] := UD_column_spec fops CP CU Hi.
set st' := UD_column fops n i (P, UD) in CP' CU' GU GP *.
set d := get fops P i i in GU GP.
have Hne c: (c < n)%N -> (c == i + n)%N = false.
  by move=> Hc; apply/negbTE; rewrite neq_ltn ltn_addl.
have Hne' c: (c + n == i)%N = false.
  by apply/negbTE; rewrite neq_ltn [X in _ || X]ltn_addl ?orbT.
have Hl c: (c < n)%N -> (c < n * 2)%N by exact: ltn_double_l.
have Hr c: (c < n)%N -> (c + n < n * 2)%N by exact: ltn_double_r.
(* the columns after [i] of U and the other entries of D are kept *)
have EU r m: (i < m < n)%N -> get fops st'.2 r m = get fops UD r m.
  case/andP=> Him Hm; rewrite GU ?Hl // (gtn_eqF Him) /= andbF.
  by rewrite Hne // andbF.
have ED m: (m < n)%N -> m != i ->
    get fops st'.2 m (m + n) = get fops UD m (m + n).
  by move=> Hm /negbTE Hmi; rewrite GU ?Hr // Hne' Hmi.
have EDi: get fops st'.2 i (i + n) = d.
  by rewrite GU ?Hr // Hne' !eqxx.
have EUi: get fops st'.2 i i = 1.
  by rewrite GU ?Hl // !eqxx ltnn.
have EUlo r: (r < i)%N -> get fops st'.2 r i = get fops P r i / d.
  by move=> Hri; rewrite GU ?Hl // eqxx Hri.
have EUhi r: (i < r)%N -> get fops st'.2 r i = 0.
  move=> Hir; rewrite GU ?Hl // eqxx /= ltnNge (ltnW Hir) /= (gtn_eqF Hir) /=.
  by apply: S2 => //; rewrite ltnS leqnn.
split=> //.
- move=> m /andP [Him Hm]; move: Him; rewrite leq_eqVlt.
  case/orP=> [/eqP <-|Him] //.
  by rewrite EU ?Him // S1 // Him.
- move=> r c Hc Hor; case: (ltngtP c i) => [Hci|Hic|Ec].
  + rewrite GU ?Hl // (ltn_eqF Hci) /= andbF Hne // andbF.
    by apply: S2 => //; rewrite ltnS (ltnW Hci).
  + rewrite EU ?Hic //; apply: S2 => //.
    by move: Hor; rewrite ltnS [(c < i)%N]ltnNge (ltnW Hic) /= => ->; rewrite orbT.
  + by move: Hor; rewrite Ec ltnn /=; exact: EUhi.
- move=> r c Hc Hor; rewrite GU ?Hr // Hne' /= andbF eqn_add2r.
  case E: ((r == i) && (c == i)).
    by move: E Hor => /andP [/eqP -> /eqP ->]; rewrite eqxx ltnn.
  apply: S3 => //; case/orP: Hor => [->|Hci] //.
  by rewrite ltnS (ltnW Hci) orbT.
move=> Hpiv.
have Hpiv1: forall m, (0 < m)%N -> (i < m < n)%N ->
    get fops UD m (m + n) != 0.
  move=> m Hm0 /andP [Him Hm].
  rewrite -ED ?(gtn_eqF Him) //; apply: Hpiv => //.
  by rewrite (ltnW Him).
have [Hp Ha] := Alg Hpiv1.
have Esum k j:
    \sum_(i <= m < n) get fops st'.2 k m * get fops st'.2 m (m + n)
                        * get fops st'.2 j m
    = get fops st'.2 k i * d * get fops st'.2 j i
      + \sum_(i.+1 <= m < n) get fops UD k m * get fops UD m (m + n)
                               * get fops UD j m.
  rewrite big_ltn // EDi; congr (_ + _).
  apply: eq_big_nat => m /andP [Him Hm].
  by rewrite ED ?(gtn_eqF Him) // (EU k m) ?Him // (EU j m) ?Him.
split=> [k j Hkj Hj|k j Hkj /andP [Hij Hj]].
- have Hjn: (j < n)%N by exact: ltn_trans Hj Hi.
  have Hk: (k < i)%N by exact: leq_ltn_trans Hkj Hj.
  rewrite GP // Hj Hkj /= Esum !EUlo // Hp ?ltnS ?(ltnW Hj) //.
  by rewrite opprD addrA addrAC.
- rewrite Esum; move: Hij; rewrite leq_eqVlt => /orP [/eqP Eij|Hij].
    move: Hkj; rewrite -{j Hj}Eij => Hki.
    rewrite EUi mulr1.
    have ->: get fops st'.2 k i * d = get fops P k i.
      move: Hki; rewrite leq_eqVlt => /orP [/eqP ->|Hki].
        by rewrite EUi mul1r.
      rewrite EUlo // divfK //; rewrite -EDi; apply: Hpiv.
        exact: leq_ltn_trans (leq0n k) Hki.
      by rewrite leqnn.
    by rewrite Hp ?ltnS // subrK.
  rewrite (EUhi j) // mulr0 add0r; apply: Ha => //.
  by rewrite Hij.
Qed.

Lemma decomposeUD_inv (M : Matrix F) (n : nat) :
  rows M = n -> columns M = n ->
  UD_inv n (get fops M) 0
    (for_down 0 (rows M) (UD_column fops (columns M))
       (copy M, cleared fops (rows M) (columns M * 2))).
Proof.
move=> R C; rewrite C {1}R.
apply: (@for_down_ind _ (fun i st => UD_inv n (get fops M) i st)) => //.
  exact: UD_inv_start.
by move=> i st /andP [_ Hi]; exact: UD_column_inv.
Qed.

(** The product U D U^T entry by entry, for a diagonal D. *)
Lemma UDUt_entry (n : nat) (UD : Matrix F) (k j : 'I_n) :
  (forall r c : 'I_n, r != c -> D_of n UD r c = 0) ->
  (U_of n UD *m D_of n UD *m (U_of n UD)^T) k j
  = \sum_(0 <= m < n) get fops UD k m * get fops UD m (m + n) * get fops UD j m.
Proof.
move=> Hdiag; rewrite big_mkord mxE; apply: eq_bigr => m _.
rewrite !mxE (bigD1 m) //= big1 ?addr0 ?mxE // => l Hl.
by rewrite Hdiag // mulr0.
Qed.

End FieldUD.

Section DecomposeUD.

Variable F : fieldType.

Import GRing.Theory.
Local Open Scope ring_scope.

Local Notation fops := (field_ops F).

(** U and D factor A: U is unit upper triangular, D is diagonal and
    U D U^T = A. *)
Definition UD_factors (n : nat) (A U D : 'M[F]_n) : Prop :=
  [/\ forall i j : 'I_n, (j < i)%N -> U i j = 0,
      forall i : 'I_n, U i i = 1,
      forall i j : 'I_n, i != j -> D i j = 0 &
      U *m D *m U^T = A].

(** What [decomposeUD] returns on a symmetric matrix, and that it factors
    the matrix when no divisor of the loop is zero. *)
Lemma decomposeUD_factors (M : Matrix F) :
  isSymmetric fops M ->
  let n := rows M in
  let UD := (for_down 0 (rows M) (UD_column fops (columns M))
               (copy M, cleared fops (rows M) (columns M * 2))).2 in
  decomposeUD fops M true = Some UD /\
  ((forall i, (0 < i < n)%N -> get fops UD i (i + n) != 0) ->
   UD_factors (mx_of n n M) (U_of n UD) (D_of n UD)).
Proof.
move=> Hsym n; rewrite /decomposeUD Hsym /=.
have [R Sym] := isSymmetric_sym Hsym.
have C: columns M = n by rewrite -R.
have := @decomposeUD_inv F M n (erefl _) C.
set st := for_down _ _ _ _ => -[_ S1 S2 S3 Alg].
split=> // Hpiv.
have Hdiag: forall i j : 'I_n, i != j -> D_of n st.2 i j = 0.
  by move=> i j Hij; rewrite mxE S3 // Hij.
split=> //.
- by move=> i j Hji; rewrite mxE S2 // Hji orbT.
- by move=> i; rewrite mxE S1 //= ltn_ord.
have [|_ Ha] := Alg.
  by move=> m Hm0 /= Hm; apply: Hpiv; rewrite Hm0.
have Hle (k j : 'I_n): (k <= j)%N ->
    (U_of n st.2 *m D_of n st.2 *m (U_of n st.2)^T) k j = mx_of n n M k j.
  by move=> Hkj; rewrite UDUt_entry // [RHS]mxE (Ha k j) //= ltn_ord.
apply/matrixP => k j; case: (leqP k j) => [|/ltnW Hjk]; first exact: Hle.
rewrite [RHS]mxE Sym ?C // -[RHS]/(get fops M j k).
have <-: mx_of n n M j k = get fops M j k by rewrite mxE.
rewrite -Hle // !UDUt_entry //; apply: eq_bigr => m _.
by rewrite -mulrA mulrC [X in X * _]mulrC.
Qed.

End DecomposeUD.

(** *** Positive definite matrices: no divisor is zero *)

Section QuadraticForms.

Variable R : realFieldType.

Import GRing.Theory Num.Theory.
Local Open Scope ring_scope.

(** The quadratic form of the entries [P k j], [k, j < s]. *)
Definition quad (s : nat) (P : nat -> nat -> R) (z : nat -> R) : R :=
  \sum_(0 <= k < s) \sum_(0 <= j < s) z k * P k j * z j.

Definition pos_def (s : nat) (P : nat -> nat -> R) : Prop :=
  forall z : nat -> R, (exists2 k, (k < s)%N & z k != 0) -> 0 < quad s P z.

Lemma quad_ext (s : nat) (P P' : nat -> nat -> R) (z z' : nat -> R) :
  (forall k j, (k < s)%N -> (j < s)%N -> P k j = P' k j) ->
  (forall k, (k < s)%N -> z k = z' k) ->
  quad s P z = quad s P' z'.
Proof.
move=> HP Hz; apply: eq_big_nat => k /andP [_ Hk].
apply: eq_big_nat => j /andP [_ Hj].
by rewrite HP // !Hz.
Qed.

Lemma pos_def_ext (s : nat) (P P' : nat -> nat -> R) :
  (forall k j, (k < s)%N -> (j < s)%N -> P k j = P' k j) ->
  pos_def s P -> pos_def s P'.
Proof.
move=> HP Hpos z Hz; rewrite -(@quad_ext s P P' z z) //.
exact: Hpos.
Qed.

Lemma quad_recr (s : nat) (P : nat -> nat -> R) (z : nat -> R) :
  quad s.+1 P z
  = quad s P z + (\sum_(0 <= k < s) z k * P k s) * z s
    + z s * (\sum_(0 <= j < s) P s j * z j) + z s * P s s * z s.
Proof.
rewrite /quad big_nat_recr //= big_nat_recr //=.
rewrite (eq_bigr (fun k => \sum_(0 <= j < s) z k * P k j * z j
                            + z k * P k s * z s)) => [k _|].
  by rewrite big_nat_recr.
rewrite big_split /= mulr_suml mulr_sumr addrA.
congr (_ + _ + _ + _).
by apply: eq_bigr => j _; rewrite mulrA.
Qed.

Lemma quad0 (s : nat) (P : nat -> nat -> R) (z : nat -> R) :
  (forall k, (k < s)%N -> z k = 0) -> quad s P z = 0.
Proof.
move=> Hz; rewrite /quad big_nat big1 // => k /andP [_ Hk].
by rewrite big1 // => j _; rewrite Hz // mul0r mul0r.
Qed.

(** One step of the reduction: the pivot of a positive definite form is
    positive, and the reduced form is positive definite. *)
Lemma pos_def_step (s : nat) (P : nat -> nat -> R) :
  (forall k j, P k j = P j k) ->
  pos_def s.+1 P ->
  0 < P s s /\
  pos_def s (fun k j => P k j - P k s / P s s * P s s * (P j s / P s s)).
Proof.
move=> Hsym Hpos.
have Hd: 0 < P s s.
  have Hz: exists2 k, (k < s.+1)%N & (k == s)%:R != 0 :> R.
    by exists s => //; rewrite eqxx oner_neq0.
  have := Hpos (fun k => (k == s)%:R) Hz.
  rewrite quad_recr quad0 => [k Hk|]; first by rewrite (ltn_eqF Hk).
  rewrite eqxx big_nat big1 => [k /andP [_ Hk]|].
    by rewrite (ltn_eqF Hk) mul0r.
  rewrite big_nat big1 => [k /andP [_ Hk]|].
    by rewrite (ltn_eqF Hk) mulr0.
  by rewrite mul0r mulr0 !add0r mul1r mulr1.
split=> // z [k0 Hk0 Hz0].
set d := P s s in Hd *.
have Hd0: d != 0 by exact: lt0r_neq0.
pose S := \sum_(0 <= k < s) z k * P k s.
pose t := - S / d.
pose z' := fun k => if k == s then t else z k.
have Hz' k: (k < s)%N -> z' k = z k by move=> Hk; rewrite /z' (ltn_eqF Hk).
have Hex: exists2 k, (k < s.+1)%N & z' k != 0.
  by exists k0; rewrite ?Hz' // ltnS ltnW.
have := Hpos z' Hex.
suff ->: quad s.+1 P z'
    = quad s (fun k j => P k j - P k s / d * d * (P j s / d)) z by [].
have Ezs: z' s = t by rewrite /z' eqxx.
rewrite quad_recr !Ezs -/d.
rewrite (@quad_ext s P P z' z) //.
have ->: \sum_(0 <= k < s) z' k * P k s = S.
  by apply: eq_big_nat => k /andP [_ Hk]; rewrite Hz'.
have ->: \sum_(0 <= j < s) P s j * z' j = S.
  by apply: eq_big_nat => k /andP [_ Hk]; rewrite Hz' // Hsym mulrC.
have ->: quad s (fun k j => P k j - P k s / d * d * (P j s / d)) z
    = quad s P z - S * S / d.
  rewrite /quad.
  rewrite (eq_bigr (fun k => \sum_(0 <= j < s) z k * P k j * z j
                              - z k * P k s * (S / d))) => [k _|].
    rewrite [in RHS]/S mulr_suml mulr_sumr -sumrB.
    by apply: eq_bigr => j _; field.
  by rewrite sumrB -mulr_suml mulrA.
by rewrite /t; field.
Qed.

End QuadraticForms.

Section PositiveDefiniteUD.

Variable R : realFieldType.

Import GRing.Theory Num.Theory.
Local Open Scope ring_scope.

Local Notation fops := (field_ops R).

(** [decomposeUD] reads and writes P on and above the diagonal only; the
    symmetric matrix it stands for. *)
Definition upper_sym (P : Matrix R) (k j : nat) : R :=
  if (k <= j)%N then get fops P k j else get fops P j k.

Lemma upper_symC (P : Matrix R) (k j : nat) : upper_sym P k j = upper_sym P j k.
Proof. by rewrite /upper_sym; case: (ltngtP k j) => [||->]. Qed.

Definition positive_definite (n : nat) (A : 'M[R]_n) : Prop :=
  forall x : 'rV[R]_n, x != 0 -> 0 < (x *m A *m x^T) 0 0.

Lemma positive_definite_quad (n : nat) (M : Matrix R) :
  positive_definite (mx_of n n M) -> pos_def n (get fops M).
Proof.
move=> H z [k Hk Hz]; pose x : 'rV[R]_n := \row_j z j.
have Hx: x != 0.
  apply/eqP => /rowP /(_ (Ordinal Hk)); rewrite !mxE /= => E.
  by move: Hz; rewrite E eqxx.
suff <-: (x *m mx_of n n M *m x^T) 0 0 = quad n (get fops M) z by exact: H.
rewrite /quad mxE big_mkord exchange_big /= big_mkord; apply: eq_bigr => j _.
rewrite !mxE big_distrl /=; apply: eq_bigr => i _.
by rewrite !mxE.
Qed.

(** The pivots of a positive definite matrix: before the turn for the
    column [i - 1] the part of P that is still to be reduced is positive
    definite, and the entries of D written so far are positive. *)
Definition PD_inv (n i : nat) (st : Matrix R * Matrix R) : Prop :=
  [/\ columns st.1 = n, columns st.2 = (n * 2)%N,
      pos_def i (upper_sym st.1) &
      forall m, (i <= m < n)%N -> 0 < get fops st.2 m (m + n)].

Lemma PD_inv_step (n i : nat) (st : Matrix R * Matrix R) :
  (i < n)%N -> PD_inv n i.+1 st -> PD_inv n i (UD_column fops n i st).
Proof.
case: st => P UD Hi [/= CP CU Hpos HD].
have [/= CP' CU' GU GP] := UD_column_spec fops CP CU Hi.
have E: upper_sym P i i = get fops P i i by rewrite /upper_sym leqnn.
have [] := pos_def_step (upper_symC P) Hpos.
rewrite !E => Hd Hpos'.
split=> //.
- apply: pos_def_ext Hpos' => k j Hk Hj.
  have Hkn: (k < n)%N by exact: ltn_trans Hk Hi.
  have Hjn: (j < n)%N by exact: ltn_trans Hj Hi.
  rewrite /upper_sym (ltnW Hk) (ltnW Hj).
  case: (leqP k j) => Hkj; rewrite GP // ?Hj ?Hk ?Hkj /=; first by [].
  by rewrite (ltnW Hkj) /=; ring.
- move=> m /andP [Him Hm]; rewrite GU ?ltn_double_r //.
  have ->: (m + n == i)%N = false.
    by apply/negbTE; rewrite neq_ltn [X in _ || X]ltn_addl ?orbT.
  rewrite /= andbF eqn_add2r andbb.
  case: (m =P i) => [_|/eqP Hmi] //.
  by apply: HD; rewrite ltn_neqAle eq_sym Hmi Him.
Qed.

Lemma decomposeUD_pivots (M : Matrix R) (n : nat) :
  rows M = n -> columns M = n ->
  (forall i j, (i < n)%N -> (j < n)%N -> get fops M i j = get fops M j i) ->
  positive_definite (mx_of n n M) ->
  forall m, (m < n)%N ->
    0 < get fops
          (for_down 0 (rows M) (UD_column fops (columns M))
             (copy M, cleared fops (rows M) (columns M * 2))).2 m (m + n).
Proof.
move=> Rw C Sym /positive_definite_quad Hpos.
have: PD_inv n 0
    (for_down 0 (rows M) (UD_column fops (columns M))
       (copy M, cleared fops (rows M) (columns M * 2))).
  rewrite C {1}Rw.
  apply: (@for_down_ind _ (fun i st => PD_inv n i st)) => //.
    split=> //; last by move=> m; rewrite ltnNge andbC; case: (n <= m)%N.
    apply: pos_def_ext Hpos => k j Hk Hj.
    by rewrite /upper_sym; case: ifP => // _; rewrite Sym.
  by move=> i st /andP [_ Hi]; exact: PD_inv_step.
by case=> _ _ _ HD m Hm; apply: HD.
Qed.

End PositiveDefiniteUD.

Section DecomposeUDClaim.

Variable R : realFieldType.

Import GRing.Theory Num.Theory.
Local Open Scope ring_scope.

Local Notation fops := (field_ops R).

(** C5 (in exact arithmetic, without a zero divisor).  Over an ordered
    field, [decomposeUD] throws on every matrix that is not symmetric; on a
    symmetric matrix A of n rows it returns UD.  When no entry D(i, i) with
    0 < i < n of the result is zero (the divisors of the loop), U is unit
    upper triangular, D is diagonal and U D U^T = A; this is the case when A
    is positive definite, and the entries D(i, i) are then positive. *)
Theorem decomposeUD_reconstructs (M : Matrix R) :
  let n := rows M in
  if isSymmetric fops M then
    exists2 UD : Matrix R,
      decomposeUD fops M true = Some UD &
      ((forall i, (0 < i < n)%N -> get fops UD i (i + n) != 0) ->
       UD_factors (mx_of n n M) (U_of n UD) (D_of n UD)) /\
      (positive_definite (mx_of n n M) ->
       UD_factors (mx_of n n M) (U_of n UD) (D_of n UD) /\
       forall i : 'I_n, 0 < D_of n UD i i)
  else decomposeUD fops M true = None.
Proof.
move=> n; case Hsym: (isSymmetric fops M); last by rewrite /decomposeUD Hsym.
have [E HF] := decomposeUD_factors Hsym.
have [Rw Sym] := isSymmetric_sym Hsym.
have C: columns M = n by rewrite -Rw.
set UD := (for_down _ _ _ _).2 in E HF.
exists UD => //; split=> // Hpd.
have HD: forall m, (m < n)%N -> 0 < get fops UD m (m + n).
  apply: (@decomposeUD_pivots R M n) => // i j Hi Hj.
  by apply: Sym; rewrite C.
split; last by move=> i; rewrite mxE; apply: HD.
by apply: HF => i /andP [_ Hi]; apply: lt0r_neq0; apply: HD.
Qed.

End DecomposeUDClaim.

Definition symmetric_2x2 : Matrix rat :=
  MkMatrix 2 2 [seq rat_of_nat k | k <- [:: 4; 2; 2; 3]].

Section PositiveDefiniteExample.

Import GRing.Theory Num.Theory.
Local Open Scope ring_scope.

Lemma symmetric_2x2_positive_definite :
  positive_definite (mx_of 2 2 symmetric_2x2).
Proof.
move=> x Hx.
have [a [b [Hab ->]]]: exists a b : rat, (a != 0) || (b != 0) /\
    (x *m mx_of 2 2 symmetric_2x2 *m x^T) 0 0
      = (a * 4 + b * 2) * a + (a * 2 + b * 3) * b.
  exists (x 0 0), (x 0 (lift ord0 ord0)); split.
    rewrite -negb_and; apply: contra Hx => /andP [/eqP Ha /eqP Hb].
    apply/eqP/rowP => j; rewrite mxE.
    by case: (unliftP ord0 j) => [k ->|->] //; rewrite (ord1 k).
  rewrite mxE !big_ord_recl big_ord0 !mxE !big_ord_recl !big_ord0 !mxE.
  by rewrite addr0 !addr0.
have H1: 0 <= (2 * a + b) ^+ 2 by exact: sqr_ge0.
have H2: 0 <= (2 * a + 3 * b) ^+ 2 by exact: sqr_ge0.
case/orP: Hab => H.
  have H3: 0 < a ^+ 2 by rewrite lt0r sqrf_eq0 H sqr_ge0.
  nra.
have H3: 0 < b ^+ 2 by rewrite lt0r sqrf_eq0 H sqr_ge0.
nra.
Qed.

End PositiveDefiniteExample.

Lemma decomposeUD_reconstructs_witness :
  exists2 UD : Matrix rat,
    decomposeUD (field_ops rat) symmetric_2x2 true = Some UD &
    (U_of 2 UD *m D_of 2 UD *m (U_of 2 UD)^T = mx_of 2 2 symmetric_2x2)%R.
Proof.
have := @decomposeUD_reconstructs rat symmetric_2x2.
have ->: isSymmetric (field_ops rat) symmetric_2x2 = true by vm_compute.
case=> UD E [_ H]; exists UD; first exact: E.
by case: (H symmetric_2x2_positive_definite) => -[].
Defined.

(** The entry (k, j) of U D U^T, read off a result of [decomposeUD]. *)
Definition UDUt_entry_of (T : Type) (ops : num_ops T) (n : nat) (UD : Matrix T)
    (k j : nat) : T :=
  for_range 0 n
    (fun m acc =>
       add ops acc
         (mul ops (mul ops (get ops UD k m) (get ops UD m (m + n)))
            (get ops UD j m)))
    (zero ops).

(** C5 as stated fails when a divisor D(i, i) is zero: on the symmetric
    [[0, 1], [1, 0]] and on the symmetric positive semi-definite
    [[1, 0], [0, 0]] nothing is thrown and the result holds NaN. *)
Lemma decomposeUD_zero_pivot :
  let A := MkMatrix 2 2 [:: 0; 1; 1; 0]%float in
  let B := MkMatrix 2 2 [:: 1; 0; 0; 0]%float in
  [/\ isSymmetric double_ops A = true,
      decomposeUD double_ops A true
        = Some (MkMatrix 2 4 [:: 1; infinity; nan; 0; 0; 1; 0; 0]%float),
      isSymmetric double_ops B = true,
      decomposeUD double_ops B true
        = Some (MkMatrix 2 4 [:: 1; nan; nan; 0; 0; 1; 0; 0]%float) &
      forall UD, decomposeUD double_ops A true = Some UD ->
        f_eq (UDUt_entry_of double_ops 2 UD 0 1) (get double_ops A 0 1) = false].
Proof.
split; [by vm_compute | by vm_compute | by vm_compute | by vm_compute |].
move=> UD E.
have: Some UD = Some (MkMatrix 2 4 [:: 1; infinity; nan; 0; 0; 1; 0; 0]%float).
  by rewrite -E; vm_compute.
by case=> ->; vm_compute.
Qed.


(** * Further properties of the tool *)

(** ** [NAV::nearest] *)

Lemma nearest_loop_spec (itows : seq float) (t : float) (off remaining head : nat) :
  let r := nearest_loop itows t off remaining head in
  [/\ head <= r <= head + remaining,
      forall k, head <= k < r -> (nth 0%float itows (k + off) >= t)%fl = false &
      r < head + remaining -> (nth 0%float itows (r + off) >= t)%fl = true].
Proof.
elim: remaining head => [|n IH] head /=.
  rewrite addn0 leqnn; split=> // [k|]; last by rewrite ltnn.
  by case/andP=> H1 H2; move: (leq_ltn_trans H1 H2); rewrite ltnn.
case E: (nth 0%float itows (head + off) >= t)%fl.
  rewrite leqnn leq_addr; split=> // k /andP [H1 H2].
  by move: (leq_ltn_trans H1 H2); rewrite ltnn.
have [/andP [H1 H2] Hk Hr] := IH head.+1.
rewrite addSnnS in H2 Hr; rewrite H2 (ltnW H1); split=> // k /andP [Hk1 Hk2].
move: Hk1; rewrite leq_eqVlt => /orP [/eqP <-|Hk1] //.
by apply: Hk; rewrite Hk1.
Qed.

(** [nearest] returns the first position whose evaluated sample (the one
    [group_size / 2] places further) is not earlier than [itow], among the
    positions that leave [group_size] samples; when there is none it returns
    the last such position. *)
Theorem nearest_first_not_earlier (itows : seq float) (t : float) (group_size : nat) :
  let r := nearest itows t group_size in
  [/\ r <= size itows - group_size,
      forall k, k < r ->
        (nth 0%float itows (k + group_size %/ 2) >= t)%fl = false &
      r < size itows - group_size ->
        (nth 0%float itows (r + group_size %/ 2) >= t)%fl = true].
Proof.
move=> r.
have [/andP [_ H1] H2 H3] :=
  nearest_loop_spec itows t (group_size %/ 2) (size itows - group_size) 0.
by split=> // k Hk; apply: H2.
Qed.


(** ** The sorting buffer: nothing is lost *)

Section SortingBufferCount.

Variable a : pred Packet.

Local Notation trace_update := (buffer_update (fun tr p => rcons tr p)).

Lemma count_sort_and_apply (b : buffer_t (seq Packet)) (k : nat) :
  let b' := sort_and_apply (fun tr p => rcons tr p) b k in
  count a (nav b') + count a (packet_pool b')
  = count a (nav b) + count a (packet_pool b).
Proof.
rewrite /= foldl_rcons_trace count_cat -addnA -count_cat cat_take_drop.
by rewrite /stable_sort count_sort.
Qed.

Lemma count_buffer_update (b : buffer_t (seq Packet)) (p : Packet) :
  count a (nav (trace_update b p)) + count a (packet_pool (trace_update b p))
  = count a (nav b) + count a (packet_pool b) + a p.
Proof.
rewrite /buffer_update /sort_and_apply2 /=.
case: ifP => _; first by rewrite /= -cats1 count_cat /= addn0 addnA.
by rewrite count_sort_and_apply /= -cats1 count_cat /= addn0 addnA.
Qed.

Lemma count_buffer_run (b : buffer_t (seq Packet)) (ps : seq Packet) :
  let b' := foldl trace_update b ps in
  count a (nav b') + count a (packet_pool b')
  = count a (nav b) + count a (packet_pool b) + count a ps.
Proof.
elim: ps b => [|p ps IH] b /=; first by rewrite addn0.
by rewrite IH count_buffer_update -addnA.
Qed.

End SortingBufferCount.

Lemma pool_bound_update (NAV : Type) (apply : NAV -> Packet -> NAV)
    (b : buffer_t NAV) (p : Packet) :
  size (packet_pool b) < 512 ->
  size (packet_pool (buffer_update apply b p)) < 512.
Proof.
rewrite /buffer_update /sort_and_apply2 /= size_rcons => Hlt.
case: (ltnP (size (packet_pool b)).+1 512) => [Hs|Hge]; first by rewrite /= size_rcons.
rewrite /= size_drop /stable_sort size_sort size_rcons.
have H256: 256 <= (size (packet_pool b)).+1 by exact: leq_trans Hge.
rewrite (ltn_subLR _ H256).
by apply: (@leq_trans 513).
Qed.

(** Whatever the strategy and the stream, every packet of the stream is
    delivered to the navigation object exactly once (for each property, as
    many delivered packets have it as packets of the stream), the real-time
    strategy delivers them in their order of arrival, and the pool never
    holds 512 packets after a packet has been taken in. *)
Theorem every_packet_delivered_once
    (strategy : sync_strategy_t) (stream : seq Packet) :
  (forall a : pred Packet,
     count a (delivered strategy stream) = count a stream) /\
  size (delivered strategy stream) = size stream /\
  delivered INS_GPS_SYNC_REALTIME stream = stream /\
  size (packet_pool
          (foldl (buffer_update (fun tr p => rcons tr p)) (MkBuffer [::] [::])
             stream)) < 512.
Proof.
have Hc (a : pred Packet): count a (delivered strategy stream) = count a stream.
  rewrite /delivered /loop; case: strategy; try by rewrite foldl_rcons_trace.
  - rewrite /buffer_flush.
    set b := foldl _ _ stream.
    have := count_sort_and_apply a b (size (packet_pool b)).
    rewrite /= drop_oversize ?size_sort //= addn0 => ->.
    by rewrite /b count_buffer_run.
  - rewrite /buffer_flush.
    set b := foldl _ _ stream.
    have := count_sort_and_apply a b (size (packet_pool b)).
    rewrite /= drop_oversize ?size_sort //= addn0 => ->.
    by rewrite /b count_buffer_run.
split=> //; split; first by rewrite -!count_predT.
split; first by rewrite /delivered /loop foldl_rcons_trace.
elim/last_ind: stream {Hc} => [|ps p IH] //.
by rewrite -cats1 foldl_cat /=; apply: pool_bound_update.
Qed.
(** * Further properties of the matrix kernel *)

(** ** The LU decomposition with pivoting *)

Section LUFactsMore.

Variable T : Type.
Variable ops : num_ops T.

Lemma LU_start_row_L (M LU : Matrix T) (n i : nat) :
  i < n -> rows LU = n -> columns LU = (n * 2)%N ->
  forall r c, r < n -> c < n ->
    getL ops (LU_start_row ops M n n i LU) r c =
      if (r == i) && (i <= c) then (if c == i then one ops else zero ops)
      else getL ops LU r c.
Proof.
move=> Hi R C.
have: [/\ rows (LU_start_row ops M n n i LU) = n,
      columns (LU_start_row ops M n n i LU) = (n * 2)%N &
      forall r c, r < n -> c < n ->
        getL ops (LU_start_row ops M n n i LU) r c =
          if (r == i) && (i <= c < n) then (if c == i then one ops else zero ops)
          else getL ops LU r c].
  rewrite /LU_start_row.
  apply: (@for_range_ind _ (fun j X =>
    [/\ rows X = n, columns X = (n * 2)%N &
      forall r c, r < n -> c < n ->
        getL ops X r c =
          if (r == i) && (i <= c < j) then (if c == i then one ops else zero ops)
          else getL ops LU r c])) => //.
  - split=> // r c Hr Hc.
    rewrite (@getL_setL _ _ _ n) // getL_setU // ltnS -eqn_leq [i == c]eq_sym.
    by case: (r == i) => //=; case: (c == i).
  - move=> j X /andP [Hij Hj] [RX CX GL]; split=> // r c Hr Hc.
    rewrite (@getL_setL _ _ _ n) // getL_setU // getL_setU // GL //.
    rewrite [c < j.+1]ltnS [c <= j]leq_eqVlt.
    case: (r =P i) => [->|_] //=.
    case: (c =P j) => [->|_] /=; last by [].
    by rewrite (ltnW Hij) (gtn_eqF Hij).
by case=> _ _ GL r c Hr Hc; rewrite GL // Hc andbT.
Qed.

Lemma LU_start_L (M : Matrix T) (n : nat) :
  rows M = n -> columns M = n ->
  forall r c, r < n -> c < n -> r <= c ->
    getL ops (LU_start ops M) r c = if c == r then one ops else zero ops.
Proof.
move=> HR HC; rewrite /LU_start HR HC.
have: [/\ rows (for_range 0 n (LU_start_row ops M n n) (blank ops n (n * 2))) = n,
    columns (for_range 0 n (LU_start_row ops M n n) (blank ops n (n * 2)))
      = (n * 2)%N &
    forall r c, r < n -> c < n -> r < n -> r <= c ->
      getL ops (for_range 0 n (LU_start_row ops M n n) (blank ops n (n * 2)))
        r c = if c == r then one ops else zero ops].
  apply: (@for_range_ind _ (fun i LU =>
    [/\ rows LU = n, columns LU = (n * 2)%N &
        forall r c, r < n -> c < n -> r < i -> r <= c ->
          getL ops LU r c = if c == r then one ops else zero ops])) => //.
  move=> i LU /andP [_ Hi] [R C GL].
  have [R' C' _ _] := LU_start_row_spec ops M Hi R C.
  split=> // r c Hr Hc; rewrite ltnS leq_eqVlt => Hri Hrc.
  rewrite LU_start_row_L //.
  case: (r =P i) Hri Hrc => [->|_] /=; first by move=> _ ->.
  by move=> Hri Hrc; apply: GL.
by case=> _ _ GL r c Hr Hc; apply: GL.
Qed.

Lemma find_pivot_none (LU : Matrix T) (n i j left : nat) :
  find_pivot ops LU n i j left = None ->
  forall p, j < p <= j + left -> eqb ops (getU ops LU n i p) (zero ops).
Proof.
elim: left j => [|left IH] j /=.
  by move=> _ p; rewrite addn0 => /andP [H1 H2]; move: (leq_trans H1 H2); rewrite ltnn.
case E: (eqb ops _ _) => // /IH H p /andP [H1 H2].
move: H1; rewrite leq_eqVlt => /orP [/eqP <-|H1]; first by rewrite E.
by apply: H; rewrite H1 addSnnS.
Qed.

Lemma exchange_pivot_nth (pivot : seq nat) (i j c : nat) :
  i < size pivot -> j < size pivot ->
  size (exchange_pivot pivot i j) = size pivot /\
  nth 0 (exchange_pivot pivot i j) c = nth 0 pivot (swap_index i j c).
Proof.
move=> Hi Hj; rewrite /exchange_pivot /swap_index; split.
  rewrite !size_set_nth.
  by rewrite (maxn_idPr _) // (maxn_idPr _).
rewrite !nth_set_nth /=.
case: (c =P j) => [->|_]; first by case: (j =P i) => [->|].
by rewrite nth_set_nth /=; case: (c == i).
Qed.

End LUFactsMore.

Section FieldLUFactors.

Variable F : fieldType.

Import GRing.Theory.
Local Open Scope ring_scope.

Local Notation fops := (field_ops F).

(** The L part before the turn for column [i]: the columns from [i] on are
    still to be written, and stand for those of the unit matrix. *)
Definition Lmx (n i : nat) (LU : Matrix F) : 'M[F]_n :=
  \matrix_(r, c) (if (c < i)%N && (c < r)%N then getL fops LU r c else (r == c)%:R).

(** The multipliers of the turn for column [i]. *)
Definition multipliers (n : nat) (LU : Matrix F) (i : nat) : 'M[F]_n :=
  \matrix_(r, k) (if (i < r)%N && (k == i :> nat)
                  then getU fops LU n r i / getU fops LU n i i else 0).

Lemma Umx_eliminate (n : nat) (LU : Matrix F) (i : nat) :
  (i < n)%N -> rows LU = n -> columns LU = (n * 2)%N ->
  getU fops LU n i i != 0 ->
  (forall c, (c < i)%N -> getU fops LU n i c = 0) ->
  Umx n (eliminate fops LU n n i) = (1%:M - multipliers n LU i) *m Umx n LU.
Proof.
move=> Hi R C Hpiv Hzero.
have [_ _ GU _] := eliminate_spec fops Hi R C.
apply/matrixP => r c; rewrite mulmxBl mul1mx !mxE (bigD1 (Ordinal Hi)) //= big1 ?addr0.
  move=> k Hk; rewrite !mxE.
  have ->: (k == i :> nat) = false by apply/negbTE; rewrite -val_eqE in Hk.
  by rewrite andbF mul0r.
rewrite !mxE eqxx andbT (GU r c (ltn_ord r) (ltn_ord c)) /=.
case: (ltnP i r) => Hir; last by rewrite mul0r subr0.
case: (c =P i :> nat) => [Hci|/eqP Hci].
  by rewrite Hci divfK // subrr.
case: (ltnP i c) => Hic //.
have Hlt: (c < i)%N by rewrite ltn_neqAle Hci.
by rewrite (Hzero _ Hlt) mulr0 subr0.
Qed.

Lemma Lmx_eliminate (n : nat) (LU : Matrix F) (i : nat) :
  (i < n)%N -> rows LU = n -> columns LU = (n * 2)%N ->
  Lmx n i.+1 (eliminate fops LU n n i) = Lmx n i LU + multipliers n LU i.
Proof.
move=> Hi R C.
have [_ _ _ GL] := eliminate_spec fops Hi R C.
apply/matrixP => r c; rewrite !mxE GL // ltnS [(c <= i)%N]leq_eqVlt.
case: (c =P i :> nat) => [Hci|Hci] /=.
  rewrite Hci ltnn /= andbT.
  case: (ltnP i r) => Hir; last by rewrite addr0.
  have ->: (r == c) = false.
    by apply/negbTE; rewrite -val_eqE /= Hci (gtn_eqF Hir).
  by rewrite add0r.
by rewrite andbF addr0.
Qed.

Lemma Lmx_multipliers (n : nat) (LU : Matrix F) (i : nat) :
  Lmx n i LU *m multipliers n LU i = multipliers n LU i /\
  multipliers n LU i *m multipliers n LU i = 0.
Proof.
split.
- rewrite -[RHS]mul1mx; apply/matrixP => r c; rewrite !mxE.
  apply: eq_bigr => k _; rewrite !mxE.
  case: (ltnP i k) => Hik /=; last by rewrite !mulr0.
  by rewrite [(k < i)%N]ltnNge (ltnW Hik).
- apply/matrixP => r c; rewrite !mxE big1 // => k _; rewrite !mxE.
  case: (k =P i :> nat) => [->|_]; last by rewrite andbF mul0r.
  by rewrite ltnn /= mulr0.
Qed.

Lemma LU_eliminate (n : nat) (LU : Matrix F) (i : nat) :
  (i < n)%N -> rows LU = n -> columns LU = (n * 2)%N ->
  getU fops LU n i i != 0 ->
  (forall c, (c < i)%N -> getU fops LU n i c = 0) ->
  Lmx n i.+1 (eliminate fops LU n n i) *m Umx n (eliminate fops LU n n i)
  = Lmx n i LU *m Umx n LU.
Proof.
move=> Hi R C Hpiv Hzero.
rewrite Umx_eliminate // Lmx_eliminate // mulmxA.
have [E1 E2] := Lmx_multipliers n LU i.
congr (_ *m _).
by rewrite mulmxBr mulmx1 mulmxDl E1 E2 addr0 addrK.
Qed.

(** The invariant of the elimination loop of [decomposeLUP] before the turn
    for column [i]: the pivots met so far are not zero, the product of the
    two parts is the matrix with its columns permuted as [pivot] records;
    a failure means that the matrix is singular. *)
Definition LUP_inv (n : nat) (M : Matrix F) (i : nat)
    (st : option (Matrix F * nat * seq nat)) : Prop :=
  match st with
  | None => \det (mx_of n n M) = 0
  | Some (LU, pivot_num, pivot) =>
      [/\ LU_inv (mx_of n n M) i st,
          forall k, (k < i)%N -> getU fops LU n k k != 0,
          forall r c, (r < c)%N -> (c < n)%N -> getL fops LU r c = 0,
          size pivot = n &
          exists2 s : 'S_n,
            (forall c : 'I_n, nth 0%N pivot c = s c :> nat) &
            Lmx n i LU *m Umx n LU = col_perm s (mx_of n n M)]
  end.

Lemma LUP_inv_eliminate (n : nat) (M : Matrix F) (i : nat) (LU : Matrix F)
    (pivot_num : nat) (pivot : seq nat) :
  (i < n)%N -> getU fops LU n i i != 0 ->
  LUP_inv n M i (Some (LU, pivot_num, pivot)) ->
  LUP_inv n M i.+1 (Some (eliminate fops LU n n i, pivot_num, pivot)).
Proof.
move=> Hi Hpiv [Hinv Hpivs HL Hsz [s Hs HLU]].
have [R C Hdet Hzero Hdiag] := Hinv.
have [R' C' GU GL] := eliminate_spec fops Hi R C.
split=> //.
- exact: eliminate_inv.
- move=> k; rewrite ltnS => Hk.
  have Hkn: (k < n)%N by exact: leq_ltn_trans Hk Hi.
  rewrite GU // ltnNge Hk /=.
  move: Hk; rewrite leq_eqVlt => /orP [/eqP ->|] //.
  exact: Hpivs.
- move=> r c Hrc Hc.
  have Hr: (r < n)%N by exact: ltn_trans Hrc Hc.
  rewrite GL //.
  case: (c =P i) => [Ec|_]; last by rewrite andbF; apply: HL.
  by rewrite ltnNge -Ec (ltnW Hrc) /=; apply: HL.
- exists s => //; rewrite LU_eliminate //.
  by move=> c Hc; apply: Hzero.
Qed.

Lemma LUP_inv_step (n : nat) (M : Matrix F) (i : nat)
    (st : option (Matrix F * nat * seq nat)) :
  (i < n)%N -> LUP_inv n M i st -> LUP_inv n M i.+1 (LUP_step fops n n i st).
Proof.
move=> Hi; case: st => [[[LU pivot_num] pivot]|] //= Hall.
have [Hinv Hpivs HL Hsz [s Hs HLU]] := Hall.
have [R C Hdet Hzero Hdiag] := Hinv.
case E: (getU fops LU n i i == 0); last first.
  by apply: LUP_inv_eliminate => //; rewrite E.
case Ef: (find_pivot _ _ _ _ _ _) => [j|]; last first.
  (* the row [i] of U is zero *)
  rewrite /LUP_inv Hdet.
  have ->: \det (Umx n LU) = 0; last by rewrite mulr0.
  apply/eqP/det0P.
  exists (delta_mx 0 (Ordinal Hi)).
    apply/negP => /eqP /matrixP /(_ 0 (Ordinal Hi)).
    by rewrite !mxE !eqxx => /eqP; rewrite oner_eq0.
  apply/rowP => c; rewrite !mxE (bigD1 (Ordinal Hi)) //= big1 ?addr0.
    by move=> k Hk; rewrite !mxE (negbTE Hk) andbF mul0r.
  rewrite !mxE !eqxx mul1r.
  case: (ltngtP c i) => Hci.
  - exact: Hzero.
  - apply/eqP; apply: (find_pivot_none Ef).
    by rewrite Hci /= -ltnS -addSn subnKC.
  - by rewrite Hci; apply/eqP.
have [Hij Hjn Hj] := find_pivot_spec Ef.
have {}Hjn: (j < n)%N.
  by move: Hjn; rewrite -ltnS -addSn subnKC.
have [R1 C1 GU1 GL1] := exchange_columns_spec fops Hi Hjn R C.
have Hpsz: (i < size pivot)%N by rewrite Hsz.
have Hpsz': (j < size pivot)%N by rewrite Hsz.
apply: LUP_inv_eliminate => //.
  rewrite GU1 // /swap_index eqxx.
  by move: Hj => /= ->.
have Hstep := @LUP_step_inv F n (mx_of n n M) i (Some (LU, pivot_num, pivot)) Hi Hinv.
split=> //.
- have Hne: Ordinal Hi != Ordinal Hjn by rewrite -val_eqE /= (ltn_eqF Hij).
  have [_ _ Hz Hd] := Hinv.
  split=> //.
  + rewrite (@det_exchange_columns F n LU (Ordinal Hi) (Ordinal Hjn) Hne R C).
    by rewrite Hdet exprS mulN1r mulNr mulrN opprK.
  + move=> r c Hr Hc Hcr.
    have Hcn: (c < n)%N by exact: ltn_trans Hcr Hr.
    rewrite GU1 // /swap_index (ltn_eqF Hc) (ltn_eqF (ltn_trans Hc Hij)).
    exact: Hzero.
  + by move=> r Hr; rewrite GL1 //; apply: Hdiag.
- move=> k Hk.
  have Hkn: (k < n)%N by exact: ltn_trans Hk Hi.
  rewrite GU1 // /swap_index (ltn_eqF Hk) (ltn_eqF (ltn_trans Hk Hij)).
  exact: Hpivs.
- move=> r c Hrc Hc.
  have Hr: (r < n)%N by exact: ltn_trans Hrc Hc.
  by rewrite GL1 //; apply: HL.
- by have [-> _] := exchange_pivot_nth 0 Hpsz Hpsz'.
- exists (tperm (Ordinal Hi) (Ordinal Hjn) * s)%g.
    move=> c; have [_ ->] := exchange_pivot_nth c Hpsz Hpsz'.
    rewrite permM -Hs.
    by rewrite (@swap_index_tperm n (Ordinal Hi) (Ordinal Hjn) c).
  have ->: Lmx n i (exchange_columns fops LU n n i j) = Lmx n i LU.
    by apply/matrixP => r c; rewrite !mxE GL1.
  have ->: Umx n (exchange_columns fops LU n n i j)
      = xcol (Ordinal Hi) (Ordinal Hjn) (Umx n LU).
    apply/matrixP => r c; rewrite !mxE GU1 //.
    by rewrite (@swap_index_tperm n (Ordinal Hi) (Ordinal Hjn) c).
  by rewrite col_permM -HLU /xcol !col_permE mulmxA.
Qed.

Lemma decomposeLUP_inv (M : Matrix F) (n : nat) :
  rows M = n -> columns M = n ->
  LUP_inv n M n (decomposeLUP fops M true).
Proof.
move=> HR HC; rewrite /decomposeLUP /isSquare HR HC eqxx /=.
have [R0 C0 GU0 GL0] := LU_start_spec fops HR HC.
apply: (@for_range_ind _ (LUP_inv n M)) => //; last first.
  by move=> i st /andP [_ Hi]; apply: LUP_inv_step.
split=> //.
- split=> //; rewrite expr0 mul1r; congr (\det _).
  by apply/matrixP => r c; rewrite !mxE GU0.
- move=> r c Hrc Hc.
  have Hr: (r < n)%N by exact: ltn_trans Hrc Hc.
  by rewrite (LU_start_L fops HR HC) // ?(gtn_eqF Hrc) // ltnW.
- by rewrite size_iota.
- exists 1%g; first by move=> c; rewrite perm1 nth_iota.
  rewrite col_perm1.
  have ->: Lmx n 0 (LU_start fops M) = 1%:M.
    by apply/matrixP => r c; rewrite !mxE ltn0.
  by rewrite mul1mx; apply/matrixP => r c; rewrite !mxE GU0.
Qed.

End FieldLUFactors.

Section DecomposeLUP.

Variable F : fieldType.

Import GRing.Theory.
Local Open Scope ring_scope.

Local Notation fops := (field_ops F).

(** Over a field, [decomposeLUP] fails exactly on the matrices that are not
    square or are singular.  When it returns, the left half [L] of the result
    is lower triangular with a unit diagonal, the right half [U] is upper
    triangular with a diagonal free of zeros, [pivot] is a permutation of
    the column indices, and [L * U] is the matrix with its columns (not its
    rows) permuted by [pivot]: column [c] of the product is column
    [pivot[c]] of the matrix. *)
Theorem decomposeLUP_factors (M : Matrix F) :
  let n := rows M in
  match decomposeLUP fops M true with
  | None => rows M <> columns M \/ \det (mx_of n n M) = 0
  | Some (LU, pivot_num, pivot) =>
      [/\ rows M = columns M, \det (mx_of n n M) != 0 &
          exists2 s : 'S_n,
            (forall c : 'I_n, nth 0%N pivot c = s c :> nat) &
            let L := mx_of n n LU in
            let U := Umx n LU in
            [/\ L *m U = col_perm s (mx_of n n M),
                forall r c : 'I_n, (r <= c)%N -> L r c = (r == c)%:R,
                forall r c : 'I_n, (c < r)%N -> U r c = 0 &
                forall k : 'I_n, U k k != 0]]
  end.
Proof.
move=> n; case Esq: (rows M == columns M); last first.
  by rewrite /decomposeLUP /isSquare Esq /=; left; move/eqP; rewrite Esq.
have HC: columns M = n by rewrite -(eqP Esq).
have := @decomposeLUP_inv F M n (erefl _) HC.
case: (decomposeLUP fops M true) => [[[LU pivot_num] pivot]|] /=; last by right.
move=> [[R C Hdet Hzero Hdiag] Hpivs HL Hsz [s Hs HLU]].
have HU: forall r c : 'I_n, (c < r)%N -> Umx n LU r c = 0.
  by move=> r c Hcr; rewrite mxE; apply: Hzero.
have HUd: forall k : 'I_n, Umx n LU k k != 0.
  by move=> k; rewrite mxE; apply: Hpivs.
split; first exact/eqP.
  rewrite Hdet mulf_neq0 //; first by rewrite expf_neq0 // oppr_eq0 oner_eq0.
  rewrite -det_tr det_trig.
    by apply/is_trig_mxP => r c Hrc; rewrite mxE; apply: HU.
  by apply/prodf_neq0 => k _; rewrite mxE.
exists s => //.
have EL: mx_of n n LU = Lmx n n LU.
  apply/matrixP => r c; rewrite !mxE ltn_ord /=.
  case: (ltngtP c r) => Hrc //.
  - by rewrite -/(getL fops LU r c) HL // -val_eqE /= (ltn_eqF Hrc).
  - have ->: c = r by exact/val_inj.
    by rewrite -/(getL fops LU r r) Hdiag // eqxx.
split=> //; first by rewrite EL.
move=> r c Hrc; rewrite EL mxE ltn_ord /=.
by rewrite ltnNge Hrc.
Qed.

Lemma determinant_LU_value (M : Matrix F) :
  let n := rows M in
  determinant_LU fops M true =
    if (rows M == columns M) && (\det (mx_of n n M) != 0)
    then Some (\det (mx_of n n M)) else None.
Proof.
move=> n; case Esq: (rows M == columns M); last first.
  by rewrite /determinant_LU /decomposeLUP /isSquare Esq.
have HC: columns M = n by rewrite -(eqP Esq).
have Hinv := @decomposeLUP_inv F M n (erefl _) HC.
case Ed: (determinant_LU fops M true) => [d|].
  have Ed' := @determinant_LU_det F n M d (erefl _) HC Ed.
  move: Ed Hinv; rewrite /determinant_LU.
  case: (decomposeLUP fops M true) => [[[LU pivot_num] pivot]|] //= _.
  move=> [[R C Hdet Hzero Hdiag] Hpivs _ _ _].
  have ->: \det (mx_of n n M) != 0; last by rewrite Ed'.
  rewrite Hdet mulf_neq0 //; first by rewrite expf_neq0 // oppr_eq0 oner_eq0.
  rewrite -det_tr det_trig.
    by apply/is_trig_mxP => r c Hrc; rewrite !mxE; apply: Hzero.
  by apply/prodf_neq0 => k _; rewrite !mxE; apply: Hpivs.
move: Ed Hinv; rewrite /determinant_LU.
case: (decomposeLUP fops M true) => [[[LU pivot_num] pivot]|] //= _ ->.
by rewrite eqxx.
Qed.

(** [determinant_LU] (the [determinant] of the later revision) returns the
    determinant of a square, nonsingular matrix, and throws for every other
    matrix: for a singular matrix it never returns zero. *)
Theorem determinant_LU_defined (M : Matrix F) :
  let n := rows M in
  determinant_LU fops M true =
    if (rows M == columns M) && (\det (mx_of n n M) != 0)
    then Some (\det (mx_of n n M)) else None.
Proof.
exact: determinant_LU_value.
Qed.

End DecomposeLUP.

(** ** [determinant_minor] of the later revision *)

Section DeterminantMinor.

Variable T : Type.
Variable ops : num_ops T.

(** [matrix_for_minor]: the loops are those of [coMatrix] of the earlier
    revision. *)
Definition matrix_for_minor (M : Matrix T) (row column : nat) : Matrix T :=
  let res := blank ops (rows M - 1) (columns M - 1) in
  let res :=
    for_range 0 row (fun i res => copy_row_without ops M column i i res) res in
  for_range row (rows res)
    (fun i res => copy_row_without ops M column i i.+1 res) res.

(** One turn of the loop of [determinant_minor] on (sum, sign); [None] once
    the [determinant] of a minor has thrown. *)
Definition minor_step (M : Matrix T) (i : nat) (st : option (T * T))
    : option (T * T) :=
  match st with
  | None => None
  | Some (sum, sign) =>
      if ~~ eqb ops (get ops M i 0) (zero ops) then
        match determinant_LU ops (matrix_for_minor M i 0) false with
        | None => None
        | Some d =>
            Some (add ops sum (mul ops (mul ops (get ops M i 0) d) sign),
                  opp ops sign)
        end
      else Some (sum, opp ops sign)
  end.

Definition determinant_minor (M : Matrix T) (do_check : bool) : option T :=
  if do_check && ~~ isSquare M then None
  else if rows M == 1 then Some (get ops M 0 0)
  else
    omap fst
      (for_range 0 (rows M) (minor_step M) (Some (zero ops, one ops))).

Lemma matrix_for_minor_coMatrix (M : Matrix T) (row column : nat) :
  matrix_for_minor M row column = coMatrix ops M row column.
Proof. by []. Qed.

End DeterminantMinor.

Section FieldDeterminantMinor.

Variable F : fieldType.

Import GRing.Theory.
Local Open Scope ring_scope.

Local Notation fops := (field_ops F).

(** The minor of the element [(i, 0)] is not needed or can be computed. *)
Definition minor_ok (M : Matrix F) (n i : nat) : bool :=
  (get fops M i 0 == 0)
  || (\det (mx_of n n (matrix_for_minor fops M i 0)) != 0).

Lemma determinant_LU_minor (M : Matrix F) (n i : nat) :
  rows M = n.+1 -> columns M = n.+1 -> (i <= n)%N ->
  determinant_LU fops (matrix_for_minor fops M i 0) false =
    if \det (mx_of n n (matrix_for_minor fops M i 0)) != 0
    then Some (\det (mx_of n n (matrix_for_minor fops M i 0))) else None.
Proof.
move=> HR HC Hi.
have [Rm Cm _] := @coMatrix_spec F fops M n n i 0 HR HC Hi (leq0n _).
rewrite -!matrix_for_minor_coMatrix in Rm Cm.
have ->: determinant_LU fops (matrix_for_minor fops M i 0) false
         = determinant_LU fops (matrix_for_minor fops M i 0) true.
  by rewrite /determinant_LU /decomposeLUP /isSquare Rm Cm eqxx.
by rewrite determinant_LU_value Rm Cm eqxx.
Qed.

Lemma determinant_minor_loop (M : Matrix F) (n k : nat) :
  rows M = n.+1 -> columns M = n.+1 -> (k <= n.+1)%N ->
  for_range 0 k (minor_step fops M) (Some (0, 1)) =
    if all (minor_ok M n) (iota 0 k) then
      Some (\sum_(0 <= i < k)
              get fops M i 0 *
                \det (mx_of n n (matrix_for_minor fops M i 0)) * (-1) ^+ i,
            (-1) ^+ k)
    else None.
Proof.
move=> HR HC Hk.
apply: (@for_range_ind _ (fun k st =>
  st = if all (minor_ok M n) (iota 0 k) then
         Some (\sum_(0 <= i < k)
                 get fops M i 0 *
                   \det (mx_of n n (matrix_for_minor fops M i 0)) * (-1) ^+ i,
               (-1) ^+ k)
       else None)) => //.
  by rewrite /= big_geq.
move=> i st /andP [_ Hik] ->.
have Hi: (i <= n)%N by rewrite -ltnS; exact: leq_trans Hik Hk.
rewrite -addn1 iotaD add0n all_cat /= andbT addn1.
case: (all _ _) => //=.
rewrite /minor_ok big_nat_recr //= exprS mulN1r.
case E0: (get fops M i 0 == 0) => /=.
  by rewrite (eqP E0) !mul0r addr0.
rewrite (determinant_LU_minor HR HC Hi).
by case: (_ != 0).
Qed.

(** [determinant_minor] throws for a matrix that is not square, returns 0 for
    the matrix without rows, and for every other matrix returns its
    determinant unless the minor of a non-zero element of the first column
    is zero: it throws then, as the [determinant] that it calls on the
    minors does not return zero. *)
Theorem determinant_minor_defined (M : Matrix F) :
  let n := rows M in
  determinant_minor fops M true =
    if rows M != columns M then None
    else if n == 0%N then Some 0
    else if all (minor_ok M n.-1) (iota 0 n) then Some (\det (mx_of n n M))
    else None.
Proof.
move=> n; rewrite /determinant_minor /isSquare.
case Esq: (rows M == columns M) => //=.
have HC: columns M = n by rewrite -(eqP Esq).
have HR: rows M = n by [].
case En: n HR HC => [|[|m]] HR HC; rewrite HR //.
  rewrite /= /minor_ok det_mx00 oner_neq0 orbT /=.
  by rewrite (det_mx11 (mx_of 1 1 M)) mxE.
rewrite (determinant_minor_loop HR HC (leqnn _)).
have ->: (m.+2 == 1%N) = false by [].
have ->: (m.+2 == 0%N) = false by [].
rewrite [m.+2.-1]/=.
case: (all _ _) => //=; congr Some.
rewrite big_mkord (expand_det_col (mx_of m.+2 m.+2 M) ord0).
apply: eq_bigr => i _.
rewrite /cofactor matrix_for_minor_coMatrix.
rewrite (@mx_of_coMatrix F m.+1 M i ord0 HR HC) !mxE addn0.
by rewrite -mulrA; congr (_ * _); rewrite mulrC.
Qed.

End FieldDeterminantMinor.

(** ** Further operations of [Matrix<T>] *)

Section MatrixOperations.

Variable T : Type.
Variable ops : num_ops T.

Local Notation "0" := (zero ops).
Local Notation "1" := (one ops).

(** [isDifferentSize] *)
Definition isDifferentSize (A B : Matrix T) : bool :=
  (rows A != rows B) || (columns A != columns B).

(** [getScalar(size, scalar)] and [getI(size)] *)
Definition getScalar (size : nat) (scalar : T) : Matrix T :=
  for_range 0 size (fun i result => set ops result i i scalar)
    (cleared ops size size).

Definition getI (size : nat) : Matrix T := getScalar size 1.

(** [trace]; [None] stands for the [MatrixException]. *)
Definition trace (M : Matrix T) (do_check : bool) : option T :=
  if do_check && ~~ isSquare M then None
  else Some (for_range 0 (rows M) (fun i tr => add ops tr (get ops M i i)) 0).

(** [operator*=(scalar)] and [operator/=(scalar)] *)
Definition operator_mul_assign_scalar (M : Matrix T) (scalar : T) : Matrix T :=
  for_range 0 (rows M)
    (fun i M' =>
       for_range 0 (columns M)
         (fun j M' => set ops M' i j (mul ops (get ops M' i j) scalar)) M')
    M.

Definition operator_div_assign_scalar (M : Matrix T) (scalar : T) : Matrix T :=
  operator_mul_assign_scalar M (div ops 1 scalar).

(** [operator+=] and [operator-=] *)
Definition operator_add_assign (A B : Matrix T) : option (Matrix T) :=
  if isDifferentSize A B then None
  else
    Some (for_range 0 (rows A)
            (fun i A' =>
               for_range 0 (columns A)
                 (fun j A' =>
                    set ops A' i j (add ops (get ops A' i j) (get ops B i j))) A')
            A).

Definition operator_sub_assign (A B : Matrix T) : option (Matrix T) :=
  if isDifferentSize A B then None
  else
    Some (for_range 0 (rows A)
            (fun i A' =>
               for_range 0 (columns A)
                 (fun j A' =>
                    set ops A' i j (sub ops (get ops A' i j) (get ops B i j))) A')
            A).

(** [operator+], [operator-], [operator*(scalar)], [operator/(scalar)] and
    the unary minus work on a deep copy. *)
Definition operator_add (A B : Matrix T) : option (Matrix T) :=
  operator_add_assign (copy A) B.
Definition operator_sub (A B : Matrix T) : option (Matrix T) :=
  operator_sub_assign (copy A) B.
Definition operator_mul_scalar (M : Matrix T) (scalar : T) : Matrix T :=
  operator_mul_assign_scalar (copy M) scalar.
Definition operator_div_scalar (M : Matrix T) (scalar : T) : Matrix T :=
  operator_div_assign_scalar (copy M) scalar.
Definition operator_neg (M : Matrix T) : Matrix T :=
  operator_mul_assign_scalar (copy M) (opp ops 1).

(** [operator*(matrix)] *)
Definition operator_mul (A B : Matrix T) : option (Matrix T) :=
  if columns A != rows B then None
  else
    let result := blank ops (rows A) (columns B) in
    Some (for_range 0 (rows result)
            (fun i result =>
               for_range 0 (columns B)
                 (fun j result =>
                    let result :=
                      set ops result i j (mul ops (get ops A i 0) (get ops B 0 j)) in
                    for_range 1 (columns A)
                      (fun k result =>
                         set ops result i j
                           (add ops (get ops result i j)
                              (mul ops (get ops A i k) (get ops B k j))))
                      result)
                 result)
            result).

(** [exchangeRows] and [exchangeColumns] *)
Definition exchangeRows (M : Matrix T) (row1 row2 : nat) : option (Matrix T) :=
  if (rows M <= row1) || (rows M <= row2) then None
  else
    Some (for_range 0 (columns M)
            (fun j M' =>
               let temp := get ops M' row1 j in
               let M' := set ops M' row1 j (get ops M' row2 j) in
               set ops M' row2 j temp)
            M).

Definition exchangeColumns (M : Matrix T) (column1 column2 : nat)
    : option (Matrix T) :=
  if (columns M <= column1) || (columns M <= column2) then None
  else
    Some (for_range 0 (rows M)
            (fun i M' =>
               let temp := get ops M' i column1 in
               let M' := set ops M' i column1 (get ops M' i column2) in
               set ops M' i column2 temp)
            M).

(** [isDiagonal] *)
Definition isDiagonal (M : Matrix T) : bool :=
  if isSquare M then
    all (fun i =>
           all (fun j => ~~ (~~ eqb ops (get ops M i j) 0
                             || ~~ eqb ops (get ops M j i) 0))
               (iota i.+1 (columns M - i.+1)))
        (iota 0 (rows M))
  else false.

End MatrixOperations.

(** *** Loops over the elements *)

Section ElementLoops.

Variable T : Type.
Variable ops : num_ops T.

Lemma for_row_spec (g : nat -> T -> T) (M : Matrix T) (i m : nat) :
  columns M = m ->
  let M' := for_range 0 m (fun j M' => set ops M' i j (g j (get ops M' i j))) M in
  [/\ rows M' = rows M, columns M' = m &
      forall r c, c < m ->
        get ops M' r c = if r == i then g c (get ops M r c) else get ops M r c].
Proof.
move=> HC M'.
have: [/\ rows M' = rows M, columns M' = m &
      forall r c, c < m ->
        get ops M' r c =
          if (r == i) && (c < m) then g c (get ops M r c) else get ops M r c].
  rewrite /M'; apply: (@for_range_ind _ (fun k X =>
    [/\ rows X = rows M, columns X = m &
      forall r c, c < m ->
        get ops X r c =
          if (r == i) && (c < k) then g c (get ops M r c) else get ops M r c])) => //.
    by split=> // r c _; rewrite ltn0 andbF.
  move=> k X /andP [_ Hk] [RX CX GX]; split=> // r c Hc.
  rewrite get_set ?CX // !GX // ltnS [c <= k]leq_eqVlt ltnn andbF.
  case: (r =P i) => [->|_] //=.
  by case: (c =P k) => [->|_] //=; rewrite ?ltnn.
by case=> R C G; split=> // r c Hc; rewrite G // Hc andbT.
Qed.

Lemma for_elements_spec (g : nat -> nat -> T -> T) (M : Matrix T) (n m : nat) :
  columns M = m ->
  let M' := for_range 0 n
      (fun i M' =>
         for_range 0 m (fun j M' => set ops M' i j (g i j (get ops M' i j))) M') M in
  [/\ rows M' = rows M, columns M' = m &
      forall r c, r < n -> c < m -> get ops M' r c = g r c (get ops M r c)].
Proof.
move=> HC M'.
have: [/\ rows M' = rows M, columns M' = m &
      forall r c, c < m ->
        get ops M' r c = if r < n then g r c (get ops M r c) else get ops M r c].
  rewrite /M'; apply: (@for_range_ind _ (fun k X =>
    [/\ rows X = rows M, columns X = m &
      forall r c, c < m ->
        get ops X r c = if r < k then g r c (get ops M r c) else get ops M r c])) => //.
  move=> k X /andP [_ Hk] [RX CX GX].
  have [R' C' G'] := for_row_spec (g k) k CX.
  split=> //; first by rewrite R'.
  move=> r c Hc; rewrite G' // GX // ltnS [r <= k]leq_eqVlt.
  by case: (r =P k) => [->|_] //=; rewrite ltnn.
by case=> R C G; split=> // r c Hr Hc; rewrite G // Hr.
Qed.

End ElementLoops.

Lemma for_range_ext (A : Type) (lo hi : nat) (body body' : nat -> A -> A) (a : A) :
  (forall i st, lo <= i < hi -> body i st = body' i st) ->
  for_range lo hi body a = for_range lo hi body' a.
Proof.
move=> H; rewrite /for_range.
case: (leqP lo hi) => Hle; last first.
  by rewrite (eqP (ltnW Hle : hi - lo == 0)%N).
have: all (fun i => lo <= i < hi) (iota lo (hi - lo)).
  by apply/allP => i; rewrite mem_iota subnKC.
elim: (iota _ _) a => [|i s IH] a //= /andP [Hi Hs].
by rewrite H // IH.
Qed.

Section FieldOperations.

Variable F : fieldType.

Import GRing.Theory.
Local Open Scope ring_scope.

Local Notation fops := (field_ops F).

Lemma get_set_same (M : Matrix F) (i j : nat) (v : F) :
  get fops (set fops M i j v) i j = v.
Proof. by rewrite /get /set /= nth_set_nth /= eqxx. Qed.

Lemma set_set_same (M : Matrix F) (i j : nat) (v w : F) :
  set fops (set fops M i j v) i j w = set fops M i j w.
Proof. by rewrite /set /= set_set_nth eqxx. Qed.

(** One element of the product: the first term is assigned, the others are
    added in turn. *)
Lemma product_element (A B X : Matrix F) (i j m : nat) :
  (0 < m)%N ->
  for_range 1 m
    (fun k result =>
       set fops result i j
         (add fops (get fops result i j)
            (mul fops (get fops A i k) (get fops B k j))))
    (set fops X i j (mul fops (get fops A i 0%N) (get fops B 0%N j)))
  = set fops X i j (\sum_(0 <= k < m) get fops A i k * get fops B k j).
Proof.
move=> Hm.
apply: (@for_range_ind _ (fun k' R =>
  R = set fops X i j (\sum_(0 <= k < k') get fops A i k * get fops B k j))) => //.
  by rewrite big_nat1.
move=> k R /andP [Hk _] ->.
by rewrite set_set_same get_set_same big_nat_recr //=; exact: ltnW.
Qed.

Lemma operator_mul_elements (A B : Matrix F) :
  (0 < columns A)%N ->
  match operator_mul fops A B with
  | None => columns A <> rows B
  | Some P =>
      [/\ columns A = rows B, rows P = rows A, columns P = columns B &
          forall r c, (r < rows A)%N -> (c < columns B)%N ->
            get fops P r c
            = \sum_(0 <= k < columns A) get fops A r k * get fops B k c]
  end.
Proof.
move=> Hm; rewrite /operator_mul.
case: (columns A =P rows B) => [E|] //=.
set body := (fun i result => _).
pose g (i j : nat) (_ : F) : F := \sum_(0 <= k < columns A) get fops A i k * get fops B k j.
have Eb: forall X,
    for_range 0 (rows A) body X =
    for_range 0 (rows A)
      (fun i M' => for_range 0 (columns B)
         (fun j M' => set fops M' i j (g i j (get fops M' i j))) M') X.
  move=> X; apply: for_range_ext => i st _.
  rewrite /body; apply: for_range_ext => j st' _.
  by rewrite product_element.
rewrite Eb.
have [R' C' G'] := @for_elements_spec F fops g (blank fops (rows A) (columns B))
  (rows A) (columns B) (erefl _).
by split.
Qed.

(** [operator*] throws exactly when the number of columns of the left
    operand differs from the number of rows of the right one; otherwise, the
    left operand having a column to start the sums from, the result is the
    product of the two matrices. *)
Theorem operator_mul_product (A B : Matrix F) :
  (0 < columns A)%N ->
  match operator_mul fops A B with
  | None => columns A <> rows B
  | Some P =>
      [/\ columns A = rows B, rows P = rows A, columns P = columns B &
          mx_of (rows A) (columns B) P
          = mx_of (rows A) (columns A) A *m mx_of (columns A) (columns B) B]
  end.
Proof.
move=> Hm; have := operator_mul_elements B Hm.
case: (operator_mul fops A B) => [P|] // [E R' C' G']; split=> //.
apply/matrixP => r c; rewrite !mxE G' // big_mkord.
by apply: eq_bigr => k _; rewrite !mxE.
Qed.

(** [operator+] and [operator-] throw exactly when the two sizes differ;
    otherwise they return the sum and the difference of the matrices.  The
    products and quotients by a scalar and the unary minus are taken
    element by element, the quotient as the product by [1 / scalar]. *)
Theorem linear_operations (A B : Matrix F) (s : F) :
  let n := rows A in
  let m := columns A in
  (if (rows A == rows B) && (columns A == columns B) then
     exists S D,
       [/\ operator_add fops A B = Some S, operator_sub fops A B = Some D,
           mx_of n m S = mx_of n m A + mx_of n m B,
           mx_of n m D = mx_of n m A - mx_of n m B &
           [/\ rows S = n, columns S = m, rows D = n & columns D = m]]
   else operator_add fops A B = None /\ operator_sub fops A B = None) /\
  [/\ mx_of n m (operator_mul_scalar fops A s) = s *: mx_of n m A,
      mx_of n m (operator_div_scalar fops A s) = (1 / s) *: mx_of n m A,
      mx_of n m (operator_neg fops A) = - mx_of n m A &
      [/\ rows (operator_mul_scalar fops A s) = n,
          columns (operator_mul_scalar fops A s) = m,
          rows (operator_div_scalar fops A s) = n &
          columns (operator_div_scalar fops A s) = m]].
Proof.
move=> n m; split.
- rewrite /operator_add /operator_sub /operator_add_assign /operator_sub_assign.
  rewrite /isDifferentSize /copy -negb_and.
  case: andP => [[/eqP ER /eqP EC]|] //=.
  have [RS CS GS] := @for_elements_spec F fops
    (fun i j x => x + get fops B i j) A n m (erefl _).
  have [RD CD GD] := @for_elements_spec F fops
    (fun i j x => x - get fops B i j) A n m (erefl _).
  eexists; eexists; split; [reflexivity|reflexivity| | |by split].
  + by apply/matrixP => r c; rewrite !mxE GS.
  + by apply/matrixP => r c; rewrite !mxE GD.
- have Hs (t : F): [/\ rows (operator_mul_assign_scalar fops A t) = n,
      columns (operator_mul_assign_scalar fops A t) = m &
      mx_of n m (operator_mul_assign_scalar fops A t) = t *: mx_of n m A].
    have [R' C' G'] := @for_elements_spec F fops
      (fun i j x => x * t) A n m (erefl _).
    by split=> //; apply/matrixP => r c; rewrite !mxE G' // mulrC.
  have [R1 C1 G1] := Hs s.
  have [R2 C2 G2] := Hs (1 / s).
  have [R3 C3 G3] := Hs (- 1).
  split=> //.
  by rewrite /operator_neg /copy G3 scaleN1r.
Qed.

Lemma getScalar_spec (size : nat) (s : F) :
  [/\ rows (getScalar fops size s) = size,
      columns (getScalar fops size s) = size &
      forall r c, (r < size)%N -> (c < size)%N ->
        get fops (getScalar fops size s) r c = if r == c then s else 0].
Proof.
have: [/\ rows (getScalar fops size s) = size,
      columns (getScalar fops size s) = size &
      forall r c, (r < size)%N -> (c < size)%N ->
        get fops (getScalar fops size s) r c =
          if (r == c) && (r < size)%N then s else 0].
  rewrite /getScalar; apply: (@for_range_ind _ (fun k X =>
    [/\ rows X = size, columns X = size &
      forall r c, (r < size)%N -> (c < size)%N ->
        get fops X r c = if (r == c) && (r < k)%N then s else 0])) => //.
    split=> // r c Hr Hc; rewrite ltn0 andbF /get /cleared /= nth_nseq.
    by case: ifP.
  move=> k X /andP [_ Hk] [RX CX GX]; split=> // r c Hr Hc.
  rewrite get_set ?CX // GX // ltnS [(r <= k)%N]leq_eqVlt.
  case: (r =P c) => [<-|Hrc] /=; first by rewrite andbb; case: (r == k).
  by case: (r =P k) => [Erk|] //=; case: (c =P k) => [Eck|] //; case: Hrc; rewrite Erk Eck.
by case=> R C G; split=> // r c Hr Hc; rewrite G // Hr andbT.
Qed.

(** [getScalar] builds the scalar matrix and [getI] the unit matrix, and
    [trace] returns the sum of the diagonal of a square matrix and throws
    for any other matrix. *)
Theorem getI_trace (size : nat) (s : F) (M : Matrix F) :
  [/\ mx_of size size (getScalar fops size s) = s%:M,
      mx_of size size (getI fops size) = 1%:M &
      trace fops M true =
        if rows M == columns M then Some (\tr (mx_of (rows M) (rows M) M))
        else None].
Proof.
have Hsc (t : F): mx_of size size (getScalar fops size t) = t%:M.
  have [_ _ G] := getScalar_spec size t.
  apply/matrixP => r c; rewrite !mxE G // -val_eqE /=.
  by case: (r == c :> nat); rewrite ?mulr1n ?mulr0n.
split; [exact: Hsc | exact: Hsc |].
rewrite /trace /isSquare; case: (rows M == columns M) => //=.
congr Some.
have ->: for_range 0 (rows M) (fun i tr => tr + get fops M i i) 0
       = \sum_(0 <= i < rows M) get fops M i i.
  apply: (@for_range_ind _ (fun k tr => tr = \sum_(0 <= i < k) get fops M i i)) => //.
    by rewrite big_geq.
  by move=> k tr _ ->; rewrite big_nat_recr.
by rewrite big_mkord /mxtrace; apply: eq_bigr => i _; rewrite mxE.
Qed.

End FieldOperations.

(** *** The tests [isSymmetric] and [isDiagonal] *)

Lemma upper_allP (n : nat) (p : nat -> nat -> bool) :
  reflect (forall i j, i < j < n -> p i j)
    (all (fun i => all (p i) (iota i.+1 (n - i.+1))) (iota 0 n)).
Proof.
apply: (iffP allP) => H.
- move=> i j /andP [Hij Hj].
  have Hi: i < n by exact: ltn_trans Hij Hj.
  have Hmem: i \in iota 0 n by rewrite mem_iota add0n Hi.
  have /allP Hrow := H i Hmem.
  by apply: Hrow; rewrite mem_iota Hij /= subnKC.
- move=> i; rewrite mem_iota add0n /= => Hi.
  apply/allP => j; rewrite mem_iota subnKC // => /andP [Hij Hj].
  by apply: H; rewrite Hij.
Qed.

Section FieldTests.

Variable F : fieldType.

Import GRing.Theory.
Local Open Scope ring_scope.

Local Notation fops := (field_ops F).

(** [isSymmetric] and [isDiagonal] return true exactly for the square
    matrices that are symmetric and diagonal: the loops over the elements
    above the diagonal miss no element.  So a diagonal matrix passes the
    test for symmetry, and a matrix of [getScalar] is diagonal. *)
Theorem symmetric_diagonal_tests (M : Matrix F) :
  [/\ isSymmetric fops M <->
        (rows M = columns M /\
         forall i j, (i < rows M)%N -> (j < rows M)%N ->
           get fops M i j = get fops M j i),
      isDiagonal fops M <->
        (rows M = columns M /\
         forall i j, (i < rows M)%N -> (j < rows M)%N -> i != j ->
           get fops M i j = 0),
      isDiagonal fops M -> isSymmetric fops M &
      forall size s, isDiagonal fops (getScalar fops size s)].
Proof.
have Hsym: isSymmetric fops M <->
    (rows M = columns M /\
     forall i j, (i < rows M)%N -> (j < rows M)%N ->
       get fops M i j = get fops M j i).
  rewrite /isSymmetric /isSquare; case: eqP => [E|NE]; last first.
    by split=> // -[].
  rewrite -E; split.
    move/upper_allP => H; split=> // i j Hi Hj.
    case: (ltngtP i j) => [Hij|Hji|->] //.
      by apply/eqP; apply: H; rewrite Hij.
    by apply/esym/eqP; apply: H; rewrite Hji.
  case=> _ H; apply/upper_allP => i j /andP [Hij Hj].
  by apply/eqP; apply: H => //; exact: ltn_trans Hij Hj.
have Hdiag: forall X : Matrix F, isDiagonal fops X <->
    (rows X = columns X /\
     forall i j, (i < rows X)%N -> (j < rows X)%N -> i != j ->
       get fops X i j = 0).
  move=> X; rewrite /isDiagonal /isSquare; case: eqP => [E|NE]; last first.
    by split=> // -[].
  rewrite -E; split.
    move/upper_allP => H; split=> // i j Hi Hj.
    case: (ltngtP i j) => [Hij|Hji|->] // _.
      have := H i j; rewrite Hij Hj negb_or !negbK => /(_ isT) /andP [/eqP -> _].
      by [].
    have := H j i; rewrite Hji Hi negb_or !negbK => /(_ isT) /andP [_ /eqP ->].
    by [].
  case=> _ H; apply/upper_allP => i j /andP [Hij Hj].
  have Hi: (i < rows X)%N by exact: ltn_trans Hij Hj.
  rewrite negb_or !negbK H ?(ltn_eqF Hij) // H ?(gtn_eqF Hij) //.
  by rewrite /= eqxx.
split=> //.
- move=> /Hdiag [E H]; apply/Hsym; split=> // i j Hi Hj.
  case Eij: (i == j); first by rewrite (eqP Eij).
  by rewrite !H ?Eij // eq_sym Eij.
- move=> size s; apply/Hdiag.
  have [R C G] := getScalar_spec size s.
  rewrite R C; split=> // i j Hi Hj Hij.
  by rewrite G // (negbTE Hij).
Qed.

End FieldTests.

Lemma operator_mul_product_witness :
  exists P,
    operator_mul (field_ops rat) rational_3x3 rational_3x3 = Some P /\
    mx_of 3 3 P = (mx_of 3 3 rational_3x3 *m mx_of 3 3 rational_3x3)%R.
Proof.
move: (@operator_mul_product rat rational_3x3 rational_3x3 (erefl true)).
set X := operator_mul _ _ _.
case: X => [P [_ _ _ H]|H]; first by exists P; split.
by case: H.
Defined.

(** *** Exchanging rows and columns *)

Section ExchangeFacts.

Variable T : Type.
Variable ops : num_ops T.

Lemma swap_indexK (a b r : nat) : swap_index a b (swap_index a b r) = r.
Proof.
rewrite /swap_index.
case: (r =P a) => [->|Ha]; first by rewrite eqxx; case: (b =P a).
case: (r =P b) => [->|Hb]; first by rewrite eqxx.
by move/eqP/negbTE: Ha => ->; move/eqP/negbTE: Hb => ->.
Qed.

Lemma swap_index_lt (a b r n : nat) :
  a < n -> b < n -> r < n -> swap_index a b r < n.
Proof. by move=> Ha Hb Hr; rewrite /swap_index; case: ifP => // _; case: ifP. Qed.

Lemma exchangeRows_spec (M : Matrix T) (a b : nat) :
  a < rows M -> b < rows M ->
  exists M',
    [/\ exchangeRows ops M a b = Some M', rows M' = rows M,
        columns M' = columns M &
        forall r c, c < columns M ->
          get ops M' r c = get ops M (swap_index a b r) c].
Proof.
move=> Ha Hb; rewrite /exchangeRows [rows M <= a]leqNgt [rows M <= b]leqNgt Ha Hb /=.
eexists; split; first by reflexivity.
- by apply: (@for_range_ind _ (fun _ X => rows X = rows M)).
- by apply: (@for_range_ind _ (fun _ X => columns X = columns M)).
have: [/\ columns (for_range 0 (columns M)
            (fun j M' =>
               let temp := get ops M' a j in
               let M' := set ops M' a j (get ops M' b j) in
               set ops M' b j temp) M) = columns M &
    forall r c, c < columns M ->
      get ops (for_range 0 (columns M)
            (fun j M' =>
               let temp := get ops M' a j in
               let M' := set ops M' a j (get ops M' b j) in
               set ops M' b j temp) M) r c =
        if c < columns M then get ops M (swap_index a b r) c else get ops M r c].
  apply: (@for_range_ind _ (fun k X =>
    [/\ columns X = columns M &
      forall r c, c < columns M ->
        get ops X r c =
          if c < k then get ops M (swap_index a b r) c else get ops M r c])) => //.
  move=> k X /andP [_ Hk] [CX GX]; split=> // r c Hc.
  rewrite get_set /= ?CX // get_set ?CX //.
  rewrite !GX // ltnS [c <= k]leq_eqVlt ltnn /swap_index.
  case: (c =P k) => [->|_] /=; last by rewrite !andbF.
  rewrite !andbT ltnn.
  case: (r =P b) => [->|_]; first by case: (b =P a) => [->|].
  by case: (r =P a).
by case=> _ G r c Hc; rewrite G // Hc.
Qed.

Lemma exchangeColumns_spec (M : Matrix T) (a b : nat) :
  a < columns M -> b < columns M ->
  exists M',
    [/\ exchangeColumns ops M a b = Some M', rows M' = rows M,
        columns M' = columns M &
        forall r c, r < rows M -> c < columns M ->
          get ops M' r c = get ops M r (swap_index a b c)].
Proof.
move=> Ha Hb; rewrite /exchangeColumns [columns M <= a]leqNgt [columns M <= b]leqNgt Ha Hb /=.
eexists; split; first by reflexivity.
- by apply: (@for_range_ind _ (fun _ X => rows X = rows M)).
- by apply: (@for_range_ind _ (fun _ X => columns X = columns M)).
have: [/\ columns (for_range 0 (rows M)
            (fun i M' =>
               let temp := get ops M' i a in
               let M' := set ops M' i a (get ops M' i b) in
               set ops M' i b temp) M) = columns M &
    forall r c, c < columns M ->
      get ops (for_range 0 (rows M)
            (fun i M' =>
               let temp := get ops M' i a in
               let M' := set ops M' i a (get ops M' i b) in
               set ops M' i b temp) M) r c =
        if r < rows M then get ops M r (swap_index a b c) else get ops M r c].
  apply: (@for_range_ind _ (fun k X =>
    [/\ columns X = columns M &
      forall r c, c < columns M ->
        get ops X r c =
          if r < k then get ops M r (swap_index a b c) else get ops M r c])) => //.
  move=> k X /andP [_ Hk] [CX GX]; split=> // r c Hc.
  rewrite get_set /= ?CX // get_set ?CX //.
  rewrite !GX // ltnS [r <= k]leq_eqVlt ltnn /swap_index.
  case: (r =P k) => [->|_] /=; last by [].
  rewrite ltnn.
  case: (c =P b) => [->|_]; first by case: (b =P a) => [->|].
  by case: (c =P a).
by case=> _ G r c Hr Hc; rewrite G // Hr.
Qed.

(** [exchangeRows] and [exchangeColumns] throw exactly when one of the two
    indices is out of range.  Otherwise they keep the size, exchange the two
    rows (columns) and leave every other element as it is; exchanging the
    same two again gives the elements of the original matrix back.  This
    holds for any element type. *)
Theorem exchange_rows_columns (M : Matrix T) (a b : nat) :
  (if (a < rows M) && (b < rows M) then
     exists M' M'',
       [/\ exchangeRows ops M a b = Some M',
           exchangeRows ops M' a b = Some M'',
           rows M' = rows M /\ columns M' = columns M,
           forall r c, r < rows M -> c < columns M ->
             get ops M' r c = get ops M (swap_index a b r) c &
           forall r c, r < rows M -> c < columns M ->
             get ops M'' r c = get ops M r c]
   else exchangeRows ops M a b = None) /\
  (if (a < columns M) && (b < columns M) then
     exists M' M'',
       [/\ exchangeColumns ops M a b = Some M',
           exchangeColumns ops M' a b = Some M'',
           rows M' = rows M /\ columns M' = columns M,
           forall r c, r < rows M -> c < columns M ->
             get ops M' r c = get ops M r (swap_index a b c) &
           forall r c, r < rows M -> c < columns M ->
             get ops M'' r c = get ops M r c]
   else exchangeColumns ops M a b = None).
Proof.
split.
- case: andP => [[Ha Hb]|Hn]; last first.
    rewrite /exchangeRows; case: ifP => //.
    by rewrite [rows M <= a]leqNgt [rows M <= b]leqNgt -negb_and => /negbFE /andP.
  have [M' [E1 R1 C1 G1]] := exchangeRows_spec Ha Hb.
  have Ha': a < rows M' by rewrite R1.
  have Hb': b < rows M' by rewrite R1.
  have [M'' [E2 R2 C2 G2]] := exchangeRows_spec Ha' Hb'.
  exists M', M''; split=> //; first by move=> r c _ Hc; apply: G1.
  by move=> r c Hr Hc; rewrite G2 ?C1 // G1 // swap_indexK.
- case: andP => [[Ha Hb]|Hn]; last first.
    rewrite /exchangeColumns; case: ifP => //.
    by rewrite [columns M <= a]leqNgt [columns M <= b]leqNgt -negb_and => /negbFE /andP.
  have [M' [E1 R1 C1 G1]] := exchangeColumns_spec Ha Hb.
  have Ha': a < columns M' by rewrite C1.
  have Hb': b < columns M' by rewrite C1.
  have [M'' [E2 R2 C2 G2]] := exchangeColumns_spec Ha' Hb'.
  exists M', M''; split=> // r c Hr Hc.
  rewrite G2 ?R1 ?C1 // G1 ?swap_indexK //.
  exact: swap_index_lt.
Qed.

End ExchangeFacts.

(** ** [pivotMerge]

    The two loops are left by [break] at the first row and at the first
    column outside of the matrix; the state of a loop carries whether it has
    been left.  [row + i] and [column + j] are sums of unsigned numbers that
    do not wrap around: a turn is reached only if the sum of the turn before
    was an index of the matrix.  For the same reason the tests [row + i < 0]
    and [column + j < 0] never hold. *)

Section PivotMerge.

Variable T : Type.
Variable ops : num_ops T.

Definition pivotMerge_column (m : Matrix T) (row column i j : nat)
    (st : Matrix T * bool) : Matrix T * bool :=
  let '(M, stopped) := st in
  if stopped then (M, true)
  else if columns M <= column + j then (M, true)
  else
    (set ops M (row + i) (column + j)
       (add ops (get ops M (row + i) (column + j)) (get ops m i j)),
     false).

Definition pivotMerge_row (m : Matrix T) (row column i : nat)
    (st : Matrix T * bool) : Matrix T * bool :=
  let '(M, stopped) := st in
  if stopped then (M, true)
  else if rows M <= row + i then (M, true)
  else
    ((for_range 0 (columns m) (pivotMerge_column m row column i) (M, false)).1,
     false).

Definition pivotMerge (M : Matrix T) (row column : nat) (m : Matrix T)
    : Matrix T :=
  (for_range 0 (rows m) (pivotMerge_row m row column) (M, false)).1.

Lemma in_range_next (size pivot k c : nat) :
  size <= pivot + k -> c < size -> (c < pivot + k.+1) = (c < pivot + k).
Proof.
move=> Hs Hc; rewrite (leq_trans Hc Hs).
by rewrite addnS ltnS ltnW // (leq_trans Hc Hs).
Qed.

Lemma in_range_other (pivot k c : nat) :
  (c == pivot + k) = false -> (c < pivot + k.+1) = (c < pivot + k).
Proof. by move=> E; rewrite addnS ltnS leq_eqVlt E. Qed.

(** What holds of the state of the loop over the columns before its turn
    [j], and of the state of the loop over the rows before its turn [i]. *)
Definition columns_inv (M m : Matrix T) (row column i j : nat)
    (st : Matrix T * bool) : Prop :=
  [/\ rows st.1 = rows M, columns st.1 = columns M,
      st.2 -> columns M <= column + j &
      forall r c, c < columns M ->
        get ops st.1 r c =
          if (r == row + i) && (column <= c < column + j)
          then add ops (get ops M r c) (get ops m i (c - column))
          else get ops M r c].

Definition rows_inv (M m : Matrix T) (row column i : nat)
    (st : Matrix T * bool) : Prop :=
  [/\ rows st.1 = rows M, columns st.1 = columns M,
      st.2 -> rows M <= row + i &
      forall r c, r < rows M -> c < columns M ->
        get ops st.1 r c =
          if (row <= r < row + i) && (column <= c < column + columns m)
          then add ops (get ops M r c) (get ops m (r - row) (c - column))
          else get ops M r c].

Lemma pivotMerge_column_inv (M m : Matrix T) (row column i j : nat)
    (st : Matrix T * bool) :
  columns_inv M m row column i j st ->
  columns_inv M m row column i j.+1 (pivotMerge_column m row column i j st).
Proof.
case: st => X stopped [/= RX CX HS HG].
have beyond: columns M <= column + j ->
    columns_inv M m row column i j.+1 (X, true).
  move=> Hle; split=> //= [_|r c Hc]; first by rewrite addnS leqW.
  by rewrite (in_range_next Hle Hc) HG.
rewrite /pivotMerge_column.
case: stopped HS => HS; first exact: beyond (HS isT).
rewrite CX; case: (leqP (columns M) (column + j)) => Hj; first exact: beyond.
split=> //= r c Hc.
rewrite get_set ?CX // !HG // eqxx ltnn andbF /=.
case E: ((r == row + i) && (c == column + j)).
  case/andP: E => /eqP -> /eqP ->.
  by rewrite eqxx leq_addr addnS ltnS leqnn addKn.
case Er: (r == row + i) E => //= Ec.
by rewrite (in_range_other Ec).
Qed.

Lemma pivotMerge_columns_spec (M m : Matrix T) (row column i : nat) :
  columns_inv M m row column i (columns m)
    (for_range 0 (columns m) (pivotMerge_column m row column i) (M, false)).
Proof.
apply: (@for_range_ind _ (columns_inv M m row column i)) => //.
  by split=> //= r c Hc; rewrite addn0 [(c < column)]ltnNge andbN andbF.
by move=> j st _; exact: pivotMerge_column_inv.
Qed.

Lemma pivotMerge_row_inv (M m : Matrix T) (row column i : nat)
    (st : Matrix T * bool) :
  rows_inv M m row column i st ->
  rows_inv M m row column i.+1 (pivotMerge_row m row column i st).
Proof.
case: st => X stopped [/= RX CX HS HG].
have beyond: rows M <= row + i -> rows_inv M m row column i.+1 (X, true).
  move=> Hle; split=> //= [_|r c Hr Hc]; first by rewrite addnS leqW.
  by rewrite (in_range_next Hle Hr) HG.
rewrite /pivotMerge_row.
case: stopped HS => HS; first exact: beyond (HS isT).
rewrite RX; case: (leqP (rows M) (row + i)) => Hi; first exact: beyond.
have [/= RY CY _ GY] := pivotMerge_columns_spec X m row column i.
split=> //=; rewrite ?RY ?CY // => r c Hr Hc.
rewrite GY ?CX // HG //.
case Er: (r == row + i).
  rewrite (eqP Er) ltnn andbF /= leq_addr addnS ltnS leqnn /= addKn.
  by [].
by rewrite /= (in_range_other Er).
Qed.

(** [pivotMerge] adds the part of the given matrix that lies inside of this
    matrix when its element [(0, 0)] is put on [(row, column)], and leaves
    the other elements and the size as they are; the part outside is
    dropped without an exception. *)
Theorem pivotMerge_clips (M m : Matrix T) (row column : nat) :
  let M' := pivotMerge M row column m in
  [/\ rows M' = rows M, columns M' = columns M &
      forall r c, r < rows M -> c < columns M ->
        get ops M' r c =
          if (row <= r < row + rows m) && (column <= c < column + columns m)
          then add ops (get ops M r c) (get ops m (r - row) (c - column))
          else get ops M r c].
Proof.
move=> M'.
have: rows_inv M m row column (rows m)
        (for_range 0 (rows m) (pivotMerge_row m row column) (M, false)).
  apply: (@for_range_ind _ (rows_inv M m row column)) => //.
    by split=> //= r c Hr Hc; rewrite addn0 [(r < row)]ltnNge andbN.
  by move=> i st _; exact: pivotMerge_row_inv.
by case.
Qed.

End PivotMerge.

(** ** The inverse by Gauss-Jordan elimination *)

Section MatrixInverse.

Variable T : Type.
Variable ops : num_ops T.

Local Notation "0" := (zero ops).
Local Notation "1" := (one ops).

(** The two matrices [left] and [right] of the source are [left_m] and
    [right_m] here.

    [do{ if(++i2 == rows()) throw ...; }while(left(i2, i) == T(0));]: the
    rows that remain after [i2] are counted by [remaining]. *)
Fixpoint find_row (left_m : Matrix T) (i i2 remaining : nat) : option nat :=
  match remaining with
  | 0%N => None
  | remaining'.+1 =>
      if eqb ops (get ops left_m i2.+1 i) 0 then find_row left_m i i2.+1 remaining'
      else Some i2.+1
  end.

(** The exchange of the rows [i] and [i2] of [left], from column [i] on. *)
Definition exchange_rows_from (left_m : Matrix T) (cols i i2 : nat) : Matrix T :=
  for_range i cols
    (fun j left_m =>
       let temp := get ops left_m i j in
       let left_m := set ops left_m i j (get ops left_m i2 j) in
       set ops left_m i2 j temp)
    left_m.

(** [if(left(i, i) != T(1)){ ... }] *)
Definition normalize_row (cols i : nat) (st : Matrix T * Matrix T)
    : Matrix T * Matrix T :=
  let '(left_m, right_m) := st in
  if ~~ eqb ops (get ops left_m i i) 1 then
    let right_m :=
      for_range 0 cols
        (fun j right_m =>
           set ops right_m i j (div ops (get ops right_m i j) (get ops left_m i i)))
        right_m in
    let left_m :=
      for_range i.+1 cols
        (fun j left_m =>
           set ops left_m i j (div ops (get ops left_m i j) (get ops left_m i i)))
        left_m in
    (set ops left_m i i 1, right_m)
  else (left_m, right_m).

(** [for(k = 0; k < rows(); k++){ if(k == i){continue;} ... }] *)
Definition clear_row (cols i k : nat) (st : Matrix T * Matrix T)
    : Matrix T * Matrix T :=
  let '(left_m, right_m) := st in
  if k == i then (left_m, right_m)
  else if ~~ eqb ops (get ops left_m k i) 0 then
    let right_m :=
      for_range 0 cols
        (fun j right_m =>
           set ops right_m k j
             (sub ops (get ops right_m k j)
                (mul ops (get ops right_m i j) (get ops left_m k i))))
        right_m in
    let left_m :=
      for_range i.+1 cols
        (fun j left_m =>
           set ops left_m k j
             (sub ops (get ops left_m k j)
                (mul ops (get ops left_m i j) (get ops left_m k i))))
        left_m in
    (set ops left_m k i 0, right_m)
  else (left_m, right_m).

Definition clear_column (rws cols i : nat) (st : Matrix T * Matrix T)
    : Matrix T * Matrix T :=
  for_range 0 rws (clear_row cols i) st.

(** One turn of the main loop on (left, right). *)
Definition inverse_step (rws cols i : nat) (st : option (Matrix T * Matrix T))
    : option (Matrix T * Matrix T) :=
  match st with
  | None => None
  | Some (left_m, right_m) =>
      let pivoted :=
        if eqb ops (get ops left_m i i) 0 then
          match find_row left_m i i (rws - i.+1) with
          | None => None
          | Some i2 =>
              match exchangeRows ops right_m i i2 with
              | None => None
              | Some right_m => Some (exchange_rows_from left_m cols i i2, right_m)
              end
          end
        else Some (left_m, right_m) in
      match pivoted with
      | None => None
      | Some st => Some (clear_column rws cols i (normalize_row cols i st))
      end
  end.

(** [inverse]; [None] stands for the [MatrixException]. *)
Definition inverse (M : Matrix T) : option (Matrix T) :=
  if ~~ isSquare M then None
  else
    match for_range 0 (rows M) (inverse_step (rows M) (columns M))
            (Some (copy M, getI ops (rows M))) with
    | None => None
    | Some (_, right_m) => Some right_m
    end.

(** A loop along the row [r] whose turn for column [j] writes the element
    [(r, j)] from elements that the loop has not written yet. *)
Lemma row_loop_spec (h : Matrix T -> nat -> T) (g : nat -> T)
    (X0 : Matrix T) (r lo hi m : nat) :
  columns X0 = m -> lo <= hi -> hi <= m ->
  (forall X j, lo <= j < hi -> columns X = m ->
     (forall r' c', c' < m -> ~~ ((r' == r) && (lo <= c' < j)) ->
        get ops X r' c' = get ops X0 r' c') ->
     h X j = g j) ->
  let X' := for_range lo hi (fun j X => set ops X r j (h X j)) X0 in
  [/\ rows X' = rows X0, columns X' = m &
      forall r' c', c' < m ->
        get ops X' r' c' =
          if (r' == r) && (lo <= c' < hi) then g c' else get ops X0 r' c'].
Proof.
move=> HC Hlo Hhi Hh X'; rewrite /X'.
apply: (@for_range_ind _ (fun k X =>
  [/\ rows X = rows X0, columns X = m &
      forall r' c', c' < m ->
        get ops X r' c' =
          if (r' == r) && (lo <= c' < k) then g c' else get ops X0 r' c'])) => //.
  split=> // r' c' _.
  by case: (r' == r) => //=; case: (leqP lo c') => //=; rewrite ltnNge => ->.
move=> k X /andP [Hk1 Hk2] [RX CX GX]; split=> // r' c' Hc'.
have Hkm: k < m by exact: leq_trans Hk2 Hhi.
rewrite get_set ?CX // GX //.
have ->: h X k = g k.
  apply: Hh => //; first by rewrite Hk1.
  by move=> r'' c'' Hc'' /negbTE Hn; rewrite GX // Hn.
rewrite ltnS [c' <= k]leq_eqVlt.
case: (r' =P r) => [->|_] //=.
case: (c' =P k) => [->|_] //=; first by rewrite Hk1.
Qed.

End MatrixInverse.

Section FieldInverse.

Variable F : fieldType.

Import GRing.Theory.
Local Open Scope ring_scope.

Local Notation fops := (field_ops F).

Lemma find_row_spec (L : Matrix F) (i i2 remaining p : nat) :
  find_row fops L i i2 remaining = Some p ->
  [/\ (i2 < p)%N, (p <= i2 + remaining)%N & get fops L p i != 0].
Proof.
elim: remaining i2 => [|remaining IH] i2 //=.
case E: (_ == _).
  move/IH => [H1 H2 H3]; split=> //; first exact: ltnW.
  by rewrite addnS -addSn.
by case=> <-; split=> //; rewrite ?E // addnS ltnS leq_addr.
Qed.

Lemma find_row_none (L : Matrix F) (i i2 remaining : nat) :
  find_row fops L i i2 remaining = None ->
  forall p, (i2 < p <= i2 + remaining)%N -> get fops L p i = 0.
Proof.
elim: remaining i2 => [|remaining IH] i2 /=.
  by move=> _ p; rewrite addn0 => /andP [H1 H2]; move: (leq_trans H1 H2); rewrite ltnn.
case E: (_ == _) => // /IH H p /andP [H1 H2].
move: H1; rewrite leq_eqVlt => /orP [/eqP <-|H1]; first exact/eqP.
by apply: H; rewrite H1 addSnnS.
Qed.

Lemma exchange_rows_from_spec (L : Matrix F) (n i i2 : nat) :
  columns L = n -> (i <= n)%N ->
  let L' := exchange_rows_from fops L n i i2 in
  [/\ rows L' = rows L, columns L' = n &
      forall r c, (c < n)%N ->
        get fops L' r c =
          if (i <= c)%N then get fops L (swap_index i i2 r) c else get fops L r c].
Proof.
move=> HC Hi L'.
have: [/\ rows L' = rows L, columns L' = n &
      forall r c, (c < n)%N ->
        get fops L' r c =
          if (i <= c < n)%N then get fops L (swap_index i i2 r) c
          else get fops L r c].
  rewrite /L' /exchange_rows_from.
  apply: (@for_range_ind _ (fun k X =>
    [/\ rows X = rows L, columns X = n &
      forall r c, (c < n)%N ->
        get fops X r c =
          if (i <= c < k)%N then get fops L (swap_index i i2 r) c
          else get fops L r c])) => //.
    split=> // r c _.
    by case: (leqP i c) => //=; rewrite ltnNge => ->.
  move=> k X /andP [Hk1 Hk2] [RX CX GX]; split=> // r c Hc.
  rewrite get_set /= ?CX // get_set ?CX //.
  rewrite !GX // ltnS [(c <= k)%N]leq_eqVlt ltnn andbF /swap_index.
  case: (c =P k) => [->|_] /=; last by rewrite !andbF.
  rewrite !andbT Hk1 /= ?ltnn.
  case: (r =P i2) => [->|_]; first by case: (i2 =P i) => [->|].
  by case: (r =P i).
by case=> R C G; split=> // r c Hc; rewrite G // Hc andbT.
Qed.

Lemma normalize_row_spec (L R : Matrix F) (n i : nat) :
  columns L = n -> columns R = n -> (i < n)%N ->
  get fops L i i != 0 ->
  (forall c, (c < i)%N -> get fops L i c = 0) ->
  let L' := (normalize_row fops n i (L, R)).1 in
  let R' := (normalize_row fops n i (L, R)).2 in
  [/\ rows L' = rows L /\ columns L' = n,
      rows R' = rows R /\ columns R' = n,
      forall r c, (c < n)%N ->
        get fops L' r c =
          if r == i then get fops L i c / get fops L i i else get fops L r c &
      forall r c, (c < n)%N ->
        get fops R' r c =
          if r == i then get fops R i c / get fops L i i else get fops R r c].
Proof.
move=> CL CR Hi Hp Hz; rewrite /normalize_row /=.
case E: (get fops L i i == 1)%R => /=.
  rewrite (eqP E); split=> // r c _; rewrite divr1.
  - by case: (r =P i) => [->|].
  - by case: (r =P i) => [->|].
set p := get fops L i i in Hp E *.
have [RR' CR' GR'] := @for_row_spec F fops (fun j x => x / p) R i n CR.
have Hh: forall X j, (i < j < n)%N -> columns X = n ->
    (forall r' c', (c' < n)%N -> ~~ ((r' == i) && (i < c' < j)%N) ->
       get fops X r' c' = get fops L r' c') ->
    get fops X i j / get fops X i i = get fops L i j / p.
  move=> X j /andP [Hj1 Hj2] CX HX.
  have ->: get fops X i j = get fops L i j.
    by apply: HX => //; rewrite eqxx ltnn andbF.
  have ->: get fops X i i = get fops L i i; last by [].
  by apply: HX => //; rewrite eqxx ltnn.
have [RL' CL' GL'] := @row_loop_spec F fops
  (fun X j => get fops X i j / get fops X i i) (fun j => get fops L i j / p)
  L i i.+1 n n CL Hi (leqnn n) Hh.
split=> //; last first.
  by move=> r c Hc; rewrite GR' //; case: (r =P i) => [->|].
move=> r c Hc; rewrite get_set ?CL' // GL' // Hc andbT.
case: (r =P i) => [->|_] //=.
case: (ltngtP c i) => Hci.
- by rewrite Hz // mul0r.
- by [].
- by rewrite Hci divff.
Qed.

Lemma clear_row_spec (L R : Matrix F) (n i k : nat) :
  columns L = n -> columns R = n -> (i < n)%N -> (k < n)%N ->
  get fops L i i = 1 ->
  (forall c, (c < i)%N -> get fops L i c = 0) ->
  let L' := (clear_row fops n i k (L, R)).1 in
  let R' := (clear_row fops n i k (L, R)).2 in
  let f := if k == i then 0 else get fops L k i in
  [/\ rows L' = rows L /\ columns L' = n,
      rows R' = rows R /\ columns R' = n,
      forall r c, (c < n)%N ->
        get fops L' r c =
          if r == k then get fops L k c - get fops L i c * f else get fops L r c &
      forall r c, (c < n)%N ->
        get fops R' r c =
          if r == k then get fops R k c - get fops R i c * f else get fops R r c].
Proof.
move=> CL CR Hi Hk H1 Hz; rewrite /clear_row /=.
case: (k =P i) => [Eki|/eqP Hki] /=.
  by split=> // r c _; rewrite mulr0 subr0; case: (r =P k) => [->|].
case E: (get fops L k i == 0)%R => /=.
  rewrite (eqP E).
  by split=> // r c _; rewrite mulr0 subr0; case: (r =P k) => [->|].
set f := get fops L k i.
have HhR: forall X j, (0 <= j < n)%N -> columns X = n ->
    (forall r' c', (c' < n)%N -> ~~ ((r' == k) && (0 <= c' < j)%N) ->
       get fops X r' c' = get fops R r' c') ->
    get fops X k j - get fops X i j * f = get fops R k j - get fops R i j * f.
  move=> X j /andP [Hj1 Hj2] CX HX.
  have ->: get fops X k j = get fops R k j.
    by apply: HX => //; rewrite eqxx ltnn.
  have ->: get fops X i j = get fops R i j; last by [].
  by apply: HX => //; rewrite eq_sym (negbTE Hki).
have [RR' CR' GR'] := @row_loop_spec F fops
  (fun X j => get fops X k j - get fops X i j * f)
  (fun j => get fops R k j - get fops R i j * f)
  R k 0 n n CR (leq0n n) (leqnn n) HhR.
have HhL: forall X j, (i < j < n)%N -> columns X = n ->
    (forall r' c', (c' < n)%N -> ~~ ((r' == k) && (i < c' < j)%N) ->
       get fops X r' c' = get fops L r' c') ->
    get fops X k j - get fops X i j * get fops X k i
    = get fops L k j - get fops L i j * f.
  move=> X j /andP [Hj1 Hj2] CX HX.
  have ->: get fops X k j = get fops L k j.
    by apply: HX => //; rewrite eqxx ltnn andbF.
  have ->: get fops X i j = get fops L i j.
    by apply: HX => //; rewrite eq_sym (negbTE Hki).
  have ->: get fops X k i = get fops L k i; last by [].
  by apply: HX => //; rewrite eqxx ltnn.
have [RL' CL' GL'] := @row_loop_spec F fops
  (fun X j => get fops X k j - get fops X i j * get fops X k i)
  (fun j => get fops L k j - get fops L i j * f)
  L k i.+1 n n CL Hi (leqnn n) HhL.
split=> //; last first.
  by move=> r c Hc; rewrite GR' // Hc andbT; case: (r =P k) => [->|].
move=> r c Hc; rewrite get_set ?CL' // GL' // Hc andbT.
case: (r =P k) => [->|_] //=.
case: (ltngtP c i) => Hci.
- by rewrite Hz // mul0r subr0.
- by [].
- by rewrite Hci H1 mul1r subrr.
Qed.

Lemma clear_column_spec (L R : Matrix F) (n i : nat) :
  columns L = n -> columns R = n -> (i < n)%N ->
  get fops L i i = 1 ->
  (forall c, (c < i)%N -> get fops L i c = 0) ->
  let L' := (clear_column fops n n i (L, R)).1 in
  let R' := (clear_column fops n n i (L, R)).2 in
  [/\ rows L' = rows L /\ columns L' = n,
      rows R' = rows R /\ columns R' = n,
      forall r c, (r < n)%N -> (c < n)%N ->
        get fops L' r c =
          if r == i then get fops L r c
          else get fops L r c - get fops L i c * get fops L r i &
      forall r c, (r < n)%N -> (c < n)%N ->
        get fops R' r c =
          if r == i then get fops R r c
          else get fops R r c - get fops R i c * get fops L r i].
Proof.
move=> CL CR Hi H1 Hz L' R'.
have: [/\ rows L' = rows L /\ columns L' = n,
      rows R' = rows R /\ columns R' = n,
      forall r c, (c < n)%N ->
        get fops L' r c =
          if (r < n)%N && (r != i)
          then get fops L r c - get fops L i c * get fops L r i
          else get fops L r c &
      forall r c, (c < n)%N ->
        get fops R' r c =
          if (r < n)%N && (r != i)
          then get fops R r c - get fops R i c * get fops L r i
          else get fops R r c].
  rewrite /L' /R' /clear_column.
  apply: (@for_range_ind _ (fun k st =>
    [/\ rows st.1 = rows L /\ columns st.1 = n,
      rows st.2 = rows R /\ columns st.2 = n,
      forall r c, (c < n)%N ->
        get fops st.1 r c =
          if (r < k)%N && (r != i)
          then get fops L r c - get fops L i c * get fops L r i
          else get fops L r c &
      forall r c, (c < n)%N ->
        get fops st.2 r c =
          if (r < k)%N && (r != i)
          then get fops R r c - get fops R i c * get fops L r i
          else get fops R r c])) => //.
  move=> k [Lk Rk] /andP [_ Hk] /= [[RLk CLk] [RRk CRk] GLk GRk].
  have H1k: get fops Lk i i = 1 by rewrite GLk // eqxx andbF.
  have Hzk: forall c, (c < i)%N -> get fops Lk i c = 0.
    move=> c Hc; have Hcn: (c < n)%N by exact: ltn_trans Hc Hi.
    by rewrite GLk // eqxx andbF; apply: Hz.
  have [[RL2 CL2] [RR2 CR2] GL2 GR2] :=
    @clear_row_spec Lk Rk n i k CLk CRk Hi Hk H1k Hzk.
  split=> //; first by rewrite RL2.
  - by rewrite RR2.
  - move=> r c Hc; rewrite GL2 // ltnS [(r <= k)%N]leq_eqVlt.
    case: (r =P k) => [->|_] /=; last by rewrite GLk.
    rewrite !GLk // ?ltnn /= ?eqxx ?andbF //.
    by case: (k =P i) => [->|_] /=; rewrite ?mulr0 ?subr0.
  - move=> r c Hc; rewrite GR2 // ltnS [(r <= k)%N]leq_eqVlt.
    case: (r =P k) => [->|_] /=; last by rewrite GRk.
    rewrite !GRk // !GLk // ?ltnn /= ?eqxx ?andbF //.
    by case: (k =P i) => [->|_] /=; rewrite ?mulr0 ?subr0.
case=> [HL HR GL GR]; split=> // r c Hr Hc.
- by rewrite GL // Hr /=; case: (r == i).
- by rewrite GR // Hr /=; case: (r == i).
Qed.

(** The invariant of the main loop of [inverse] before the turn for column
    [i]: [right] is invertible, [right * A] is [left], and the first [i]
    columns of [left] are those of the unit matrix; a failure means that
    the matrix is singular. *)
Definition inverse_inv (n : nat) (A : 'M[F]_n) (i : nat)
    (st : option (Matrix F * Matrix F)) : Prop :=
  match st with
  | None => \det A = 0
  | Some (L, R) =>
      [/\ rows L = n /\ columns L = n, rows R = n /\ columns R = n,
          mx_of n n R \in unitmx,
          mx_of n n R *m A = mx_of n n L &
          forall r c, (r < n)%N -> (c < i)%N -> get fops L r c = (r == c)%:R]
  end.

(** A row operation is applied to both matrices. *)
Lemma inverse_inv_row_op (n : nat) (A : 'M[F]_n) (i i' : nat)
    (L R L' R' : Matrix F) (E : 'M[F]_n) :
  inverse_inv A i (Some (L, R)) ->
  rows L' = n /\ columns L' = n -> rows R' = n /\ columns R' = n ->
  E \in unitmx ->
  mx_of n n L' = E *m mx_of n n L -> mx_of n n R' = E *m mx_of n n R ->
  (forall r c, (r < n)%N -> (c < i')%N -> get fops L' r c = (r == c)%:R) ->
  inverse_inv A i' (Some (L', R')).
Proof.
move=> [HL HR HU HP HI] HL' HR' HE EL ER HI'; split=> //.
- by rewrite ER unitmx_mul HE HU.
- by rewrite ER EL -mulmxA HP.
Qed.

Lemma inverse_inv_exchange (n : nat) (A : 'M[F]_n) (i i2 : nat)
    (L R R' : Matrix F) :
  (i < i2)%N -> (i2 < n)%N ->
  inverse_inv A i (Some (L, R)) ->
  exchangeRows fops R i i2 = Some R' ->
  inverse_inv A i (Some (exchange_rows_from fops L n i i2, R')).
Proof.
move=> Hii2 Hi2 Hinv ER.
have [[RL CL] [RR CR] HU HP HI] := Hinv.
have Hi: (i < n)%N by exact: ltn_trans Hii2 Hi2.
have [RL' CL' GL'] := exchange_rows_from_spec i2 CL (ltnW Hi).
have Hi_R: (i < rows R)%N by rewrite RR.
have Hi2_R: (i2 < rows R)%N by rewrite RR.
have [R'' [ER' RR' CR' GR']] := exchangeRows_spec fops Hi_R Hi2_R.
move: ER; rewrite ER' => -[<-].
have Hsw: forall r : 'I_n,
    swap_index i i2 r = tperm (Ordinal Hi) (Ordinal Hi2) r :> nat.
  by move=> r; rewrite (@swap_index_tperm n (Ordinal Hi) (Ordinal Hi2) r).
apply: (@inverse_inv_row_op n A i i L R _ _ (tperm_mx (Ordinal Hi) (Ordinal Hi2)))
  => //.
- by rewrite RL' RL.
- by rewrite RR' CR' RR CR.
- exact: unitmx_perm.
- rewrite -xrowE; apply/matrixP => r c; rewrite !mxE GL' // Hsw.
  case: (leqP i c) => // Hci.
  rewrite !HI //.
  by case: tpermP => [->|->|_ _] //=;
     rewrite (gtn_eqF Hci) (gtn_eqF (ltn_trans Hci Hii2)).
- by rewrite -xrowE; apply/matrixP => r c; rewrite !mxE GR' ?CR // Hsw.
- move=> r c Hr Hc; have Hcn: (c < n)%N by exact: ltn_trans Hc Hi.
  rewrite GL' // leqNgt Hc /=.
  exact: HI.
Qed.

(** The matrix that divides the row [i] by [p]. *)
Definition scale_row_mx (n i : nat) (p : F) : 'M[F]_n :=
  diag_mx (\row_k (if k == i :> nat then p^-1 else 1)).

(** The matrix that subtracts the row [i], times [f r], from every other
    row [r]. *)
Definition clear_column_mx (n i : nat) (f : nat -> F) : 'M[F]_n :=
  1%:M - \matrix_(r, c) (if (c == i :> nat) && (r != i :> nat) then f r else 0).

Lemma scale_row_mx_unit (n i : nat) (p : F) :
  p != 0 -> scale_row_mx n i p \in unitmx.
Proof.
move=> Hp; rewrite unitmxE unitfE /scale_row_mx det_diag.
apply/prodf_neq0 => k _; rewrite mxE.
by case: ifP => _; rewrite ?invr_eq0 ?oner_eq0.
Qed.

Lemma clear_column_mx_unit (n i : nat) (f : nat -> F) :
  clear_column_mx n i f \in unitmx.
Proof.
rewrite /clear_column_mx; set V := (\matrix_(r, c) _).
have HV: V *m V = 0.
  apply/matrixP => r c; rewrite !mxE big1 // => k _; rewrite !mxE.
  case: (k =P i :> nat) => [->|_] /=; last by rewrite mul0r.
  by rewrite andbF mulr0.
have: (1%:M - V) *m (1%:M + V) = 1%:M.
  by rewrite mulmxDr mulmx1 mulmxBl mul1mx HV subr0 subrK.
by case/mulmx1_unit.
Qed.

Lemma clear_column_mxE (n i : nat) (Hi : (i < n)%N) (f : nat -> F)
    (X : 'M[F]_n) (r c : 'I_n) :
  (clear_column_mx n i f *m X) r c =
    if r == i :> nat then X r c else X r c - X (Ordinal Hi) c * f r.
Proof.
rewrite /clear_column_mx mulmxBl mul1mx !mxE (bigD1 (Ordinal Hi)) //= big1 ?addr0.
  move=> k Hk; rewrite !mxE.
  have ->: (k == i :> nat) = false by apply/negbTE; rewrite -val_eqE in Hk.
  by rewrite mul0r.
rewrite !mxE eqxx /=.
by case: (r =P i :> nat) => _ /=; rewrite ?mul0r ?subr0 // mulrC.
Qed.

Lemma inverse_inv_eliminate (n : nat) (A : 'M[F]_n) (i : nat) (L R : Matrix F) :
  (i < n)%N -> get fops L i i != 0 ->
  inverse_inv A i (Some (L, R)) ->
  inverse_inv A i.+1
    (Some (clear_column fops n n i (normalize_row fops n i (L, R)))).
Proof.
move=> Hi Hp Hinv.
have [[RL CL] [RR CR] HU HP HI] := Hinv.
have Hz: forall c, (c < i)%N -> get fops L i c = 0.
  by move=> c Hc; rewrite HI // (gtn_eqF Hc).
have [[RL1 CL1] [RR1 CR1] GL1 GR1] := normalize_row_spec CL CR Hi Hp Hz.
move: RL1 CL1 RR1 CR1 GL1 GR1.
case: (normalize_row fops n i (L, R)) => L1 R1 /= RL1 CL1 RR1 CR1 GL1 GR1.
have Hinv1: inverse_inv A i (Some (L1, R1)).
  apply: (@inverse_inv_row_op n A i i L R _ _ (scale_row_mx n i (get fops L i i)))
    => //.
  - by rewrite RL1 RL.
  - by rewrite RR1 RR.
  - exact: scale_row_mx_unit.
  - apply/matrixP => r c; rewrite /scale_row_mx mul_diag_mx !mxE GL1 //.
    by case: (r =P i :> nat) => [->|_]; rewrite ?mul1r // mulrC.
  - apply/matrixP => r c; rewrite /scale_row_mx mul_diag_mx !mxE GR1 //.
    by case: (r =P i :> nat) => [->|_]; rewrite ?mul1r // mulrC.
  - move=> r c Hr Hc; have Hcn: (c < n)%N by exact: ltn_trans Hc Hi.
    rewrite GL1 //; case: (r =P i) => [->|_]; last exact: HI.
    by rewrite Hz // mul0r (gtn_eqF Hc).
have H1: get fops L1 i i = 1 by rewrite GL1 // eqxx divff.
have Hz1: forall c, (c < i)%N -> get fops L1 i c = 0.
  move=> c Hc; have Hcn: (c < n)%N by exact: ltn_trans Hc Hi.
  by rewrite GL1 // eqxx Hz // mul0r.
have [_ _ _ _ HI1] := Hinv1.
have [[RL2 CL2] [RR2 CR2] GL2 GR2] := clear_column_spec CL1 CR1 Hi H1 Hz1.
move: RL2 CL2 RR2 CR2 GL2 GR2.
case: (clear_column fops n n i (L1, R1)) => L2 R2 /= RL2 CL2 RR2 CR2 GL2 GR2.
apply: (@inverse_inv_row_op n A i i.+1 L1 R1 _ _
  (clear_column_mx n i (fun r => get fops L1 r i))) => //.
- by rewrite RL2 RL1 RL.
- by rewrite RR2 RR1 RR.
- exact: clear_column_mx_unit.
- apply/matrixP => r c; rewrite (clear_column_mxE Hi) !mxE GL2 //.
- apply/matrixP => r c; rewrite (clear_column_mxE Hi) !mxE GR2 //.
- move=> r c Hr; rewrite ltnS leq_eqVlt => Hc.
  have Hcn: (c < n)%N.
    by case/orP: Hc => [/eqP ->|Hc] //; exact: ltn_trans Hc Hi.
  rewrite GL2 //.
  case: (r =P i) => [->|/eqP Hri].
    case/orP: Hc => [/eqP ->|Hc]; first by rewrite H1 eqxx.
    by rewrite Hz1 // (gtn_eqF Hc).
  case/orP: Hc => [/eqP ->|Hc].
    by rewrite H1 mul1r subrr (negbTE Hri).
  by rewrite Hz1 // mul0r subr0 HI1.
Qed.

Lemma inverse_inv_singular (n : nat) (A : 'M[F]_n) (i : nat) (L R : Matrix F) :
  (i < n)%N -> inverse_inv A i (Some (L, R)) ->
  (forall r, (i <= r < n)%N -> get fops L r i = 0) ->
  \det A = 0.
Proof.
move=> Hi [[RL CL] [RR CR] HU HP HI] Hz.
have HdL: \det (mx_of n n L) = 0.
  rewrite -det_tr; apply/eqP/det0P.
  pose v : 'rV[F]_n :=
    \row_k (if k == i :> nat then 1
            else if (k < i)%N then - get fops L k i else 0).
  exists v.
    apply/negP => /eqP /matrixP /(_ 0 (Ordinal Hi)).
    by rewrite !mxE eqxx => /eqP; rewrite oner_eq0.
  apply/rowP => r; rewrite !mxE (bigD1 (Ordinal Hi)) //= !mxE eqxx mul1r.
  case: (ltnP r i) => Hri.
  - have Hne: r != Ordinal Hi by rewrite -val_eqE /= (ltn_eqF Hri).
    have E1: get fops L r r = 1 by rewrite HI // eqxx.
    rewrite (bigD1 r) //= !mxE (ltn_eqF Hri) Hri E1 mulr1.
    rewrite big1 ?addr0 ?subrr // => k /andP [Hki Hkr]; rewrite !mxE.
    have ->: (k == i :> nat) = false by apply/negbTE; rewrite -val_eqE in Hki.
    case: (ltnP k i) => Hk; last by rewrite mul0r.
    rewrite (HI r k) //.
    have ->: (r == k :> nat) = false.
      by apply/negbTE; rewrite eq_sym; rewrite -val_eqE in Hkr.
    by rewrite mulr0.
  - rewrite Hz ?Hri ?ltn_ord // add0r big1 // => k Hki; rewrite !mxE.
    have ->: (k == i :> nat) = false by apply/negbTE; rewrite -val_eqE in Hki.
    case: (ltnP k i) => Hk; last by rewrite mul0r.
    by rewrite (HI r k) // (gtn_eqF (leq_trans Hk Hri)) mulr0.
have: \det (mx_of n n R) * \det A = 0 by rewrite -det_mulmx HP.
move/eqP; rewrite mulf_eq0 => /orP [|/eqP //].
by move: HU; rewrite unitmxE unitfE => /negbTE ->.
Qed.

Lemma inverse_step_inv (n : nat) (A : 'M[F]_n) (i : nat)
    (st : option (Matrix F * Matrix F)) :
  (i < n)%N -> inverse_inv A i st ->
  inverse_inv A i.+1 (inverse_step fops n n i st).
Proof.
move=> Hi; case: st => [[L R]|] // Hinv.
have [[RL CL] [RR CR] HU HP HI] := Hinv.
rewrite /inverse_step /=.
case E: (get fops L i i == 0); last first.
  by apply: inverse_inv_eliminate => //; rewrite E.
case Ef: (find_row fops L i i (n - i.+1)) => [i2|]; last first.
  apply: (inverse_inv_singular Hi Hinv) => r /andP [Hr1 Hr2].
  move: Hr1; rewrite leq_eqVlt => /orP [/eqP <-|Hr1]; first exact/eqP.
  apply: (find_row_none Ef).
  by rewrite Hr1 /= -ltnS -addSn subnKC.
have [Hii2 Hi2 Hnz] := find_row_spec Ef.
have {}Hi2: (i2 < n)%N by move: Hi2; rewrite -ltnS -addSn subnKC.
have Hi_R: (i < rows R)%N by rewrite RR.
have Hi2_R: (i2 < rows R)%N by rewrite RR.
have [R' [ER' RR' CR' GR']] := exchangeRows_spec fops Hi_R Hi2_R.
rewrite ER'.
apply: inverse_inv_eliminate => //;
  last exact: (inverse_inv_exchange Hii2 Hi2 Hinv ER').
have [_ _ G] := exchange_rows_from_spec i2 CL (ltnW Hi).
by rewrite G // leqnn /swap_index eqxx.
Qed.

Lemma inverse_value (M : Matrix F) :
  let n := rows M in
  match inverse fops M with
  | None => rows M <> columns M \/ \det (mx_of n n M) = 0
  | Some R =>
      [/\ rows M = columns M, rows R = n /\ columns R = n,
          mx_of n n M \in unitmx,
          mx_of n n R = invmx (mx_of n n M) &
          mx_of n n R *m mx_of n n M = 1%:M /\
          mx_of n n M *m mx_of n n R = 1%:M]
  end.
Proof.
move=> n; rewrite /inverse /isSquare.
case: (rows M =P columns M) => [Esq|] /=; last by left.
have HC: columns M = n by rewrite -Esq.
have [RI CI GI] := getScalar_spec (F := F) n 1.
have Hinv: inverse_inv (mx_of n n M) n
    (for_range 0 n (inverse_step fops n n) (Some (copy M, getI fops n))).
  apply: (@for_range_ind _ (inverse_inv (mx_of n n M))) => //; last first.
    by move=> i st /andP [_ Hi]; apply: inverse_step_inv.
  have E1: mx_of n n (getI fops n) = 1%:M.
    apply/matrixP => r c; rewrite !mxE GI // -val_eqE /=.
    by case: (r == c :> nat); rewrite ?mulr1n ?mulr0n.
  by split=> //; rewrite E1 ?unitmx1 ?mul1mx.
rewrite HC.
case: (for_range _ _ _ _) Hinv => [[L R]|] /=; last by right.
move=> [[RL CL] [RR CR] HU HP HI].
have EL: mx_of n n L = 1%:M.
  by apply/matrixP => r c; rewrite !mxE HI // -val_eqE.
rewrite EL in HP.
have [_ HUA] := mulmx1_unit HP.
have ER: mx_of n n R = invmx (mx_of n n M).
  by rewrite -[LHS]mulmx1 -(mulmxV HUA) mulmxA HP mul1mx.
by split=> //; rewrite ER ?mulVmx ?mulmxV.
Qed.

(** [inverse] throws exactly for the matrices that are not square or are
    singular, and returns the inverse matrix of every other matrix. *)
Theorem inverse_is_inverse (M : Matrix F) :
  let n := rows M in
  match inverse fops M with
  | None => rows M <> columns M \/ \det (mx_of n n M) = 0
  | Some R =>
      [/\ rows M = columns M, rows R = n /\ columns R = n,
          mx_of n n M \in unitmx,
          mx_of n n R = invmx (mx_of n n M) &
          mx_of n n R *m mx_of n n M = 1%:M /\
          mx_of n n M *m mx_of n n R = 1%:M]
  end.
Proof.
exact: inverse_value.
Qed.

End FieldInverse.

(** ** Products and quotients of matrices in place *)

Section InPlace.

Variable T : Type.
Variable ops : num_ops T.

(** [replace_internal] copies as many elements as this matrix has, whatever
    the size of the other matrix is. *)
Definition replace_internal (M matrix : Matrix T) : Matrix T :=
  for_range 0 (rows M)
    (fun i M' =>
       for_range 0 (columns M)
         (fun j M' => set ops M' i j (get ops matrix i j)) M')
    M.

(** [operator*=] with a matrix: [replace_internal( *this * matrix)] *)
Definition operator_mul_assign (A B : Matrix T) : option (Matrix T) :=
  match operator_mul ops A B with
  | None => None
  | Some product => Some (replace_internal A product)
  end.

(** [operator/=] with a matrix: [( *this) *= matrix.inverse()] *)
Definition operator_div_assign (A B : Matrix T) : option (Matrix T) :=
  match inverse ops B with
  | None => None
  | Some inv => operator_mul_assign A inv
  end.

(** [operator/] with a matrix *)
Definition operator_div (A B : Matrix T) : option (Matrix T) :=
  operator_div_assign (copy A) B.

End InPlace.

Section FieldInPlace.

Variable F : fieldType.

Import GRing.Theory.
Local Open Scope ring_scope.

Local Notation fops := (field_ops F).

Lemma replace_internal_spec (M matrix : Matrix F) :
  [/\ rows (replace_internal fops M matrix) = rows M,
      columns (replace_internal fops M matrix) = columns M &
      forall r c, (r < rows M)%N -> (c < columns M)%N ->
        get fops (replace_internal fops M matrix) r c = get fops matrix r c].
Proof.
exact: (@for_elements_spec F fops (fun i j _ => get fops matrix i j) M
          (rows M) (columns M) (erefl _)).
Qed.

Lemma operator_mul_assign_spec (A B : Matrix F) :
  (0 < columns A)%N ->
  match operator_mul_assign fops A B with
  | None => columns A <> rows B
  | Some A' =>
      [/\ columns A = rows B, rows A' = rows A, columns A' = columns A &
          forall r c, (r < rows A)%N -> (c < columns A)%N ->
            (c < columns B)%N ->
            get fops A' r c
            = \sum_(0 <= k < columns A) get fops A r k * get fops B k c]
  end.
Proof.
move=> Hm; rewrite /operator_mul_assign.
have := operator_mul_elements B Hm.
case: (operator_mul fops A B) => [P|] // [E RP CP GP].
have [R' C' G'] := replace_internal_spec A P.
by split=> // r c Hr Hc HcB; rewrite G' // GP.
Qed.

(** [operator*=] with a matrix throws exactly when the number of columns of
    this matrix differs from the number of rows of the other one.
    Otherwise this matrix keeps its size, also if the product has another
    one: the columns that the product has beyond those of this matrix are
    dropped, and with a square right operand this matrix becomes the
    product. *)
Theorem operator_mul_assign_keeps_size (A B : Matrix F) :
  (0 < columns A)%N ->
  let n := rows A in
  let m := columns A in
  match operator_mul_assign fops A B with
  | None => columns A <> rows B
  | Some A' =>
      [/\ columns A = rows B, rows A' = n, columns A' = m,
          forall r c, (r < n)%N -> (c < m)%N -> (c < columns B)%N ->
            get fops A' r c
            = \sum_(0 <= k < m) get fops A r k * get fops B k c &
          columns B = m ->
          mx_of n m A' = mx_of n m A *m mx_of m m B]
  end.
Proof.
move=> Hm n m; have := operator_mul_assign_spec B Hm.
case: (operator_mul_assign fops A B) => [A'|] // [E R' C' G']; split=> //.
move=> EB; apply/matrixP => r c; rewrite !mxE G' ?EB // big_mkord.
by apply: eq_bigr => k _; rewrite !mxE.
Qed.

(** [operator/] with a matrix throws when the divisor is not square or is
    singular or has another number of rows than the dividend has columns;
    otherwise it returns the product of the dividend and the inverse of the
    divisor, the dividend having a column. *)
Theorem operator_div_quotient (A B : Matrix F) :
  (0 < columns A)%N ->
  let n := rows A in
  let m := columns A in
  match operator_div fops A B with
  | None =>
      [\/ rows B <> columns B, \det (mx_of (rows B) (rows B) B) = 0
        | columns A <> rows B]
  | Some Q =>
      [/\ rows B = columns B, columns A = rows B,
          rows Q = n /\ columns Q = m,
          mx_of m m B \in unitmx &
          mx_of n m Q = mx_of n m A *m invmx (mx_of m m B)]
  end.
Proof.
move=> Hm n m; rewrite /operator_div /operator_div_assign /copy.
have := inverse_value B.
case: (inverse fops B) => [R|] /=; last first.
  by case=> H; [apply: Or31 | apply: Or32].
move=> [Esq [RR CR] HU ER _].
have := operator_mul_assign_spec R Hm.
case: (operator_mul_assign fops A R) => [Q|]; last first.
  by rewrite RR => H; apply: Or33.
rewrite RR CR => -[E RQ CQ GQ].
move: HU ER GQ; rewrite -E -/m => HU ER GQ.
split=> //; first by rewrite /m E.
rewrite -ER; apply/matrixP => r c; rewrite !mxE GQ // big_mkord.
by apply: eq_bigr => k _; rewrite !mxE.
Qed.

End FieldInPlace.

Lemma operator_mul_assign_keeps_size_witness :
  exists P,
    operator_mul_assign (field_ops rat) rational_3x3 rational_3x3 = Some P /\
    mx_of 3 3 P = (mx_of 3 3 rational_3x3 *m mx_of 3 3 rational_3x3)%R.
Proof.
move: (@operator_mul_assign_keeps_size rat rational_3x3 rational_3x3 (erefl true)).
set X := operator_mul_assign _ _ _.
case: X => [P [_ _ _ _ H]|H]; last by case: H.
by exists P; split=> //; exact: H.
Defined.

Lemma operator_div_quotient_witness :
  exists Q,
    operator_div (field_ops rat) rational_3x3 rational_3x3 = Some Q /\
    mx_of 3 3 Q
    = (mx_of 3 3 rational_3x3 *m invmx (mx_of 3 3 rational_3x3))%R.
Proof.
move: (@operator_div_quotient rat rational_3x3 rational_3x3 (erefl true)).
set X := operator_div _ _ _.
have HS: isSome X by rewrite /X; vm_compute.
by case: X HS => [Q _ [_ _ _ _ H]|//]; exists Q; split.
Defined.

(** ** Solving with an LU decomposition *)

Section SolveLU.

Variable T : Type.
Variable ops : num_ops T.

Local Notation "0" := (zero ops).

(** [isLU].  The outer loop runs to [rows() - 1], which wraps around for a
    matrix without rows; its turns then find no element to test. *)
Definition isLU (M : Matrix T) : bool :=
  if rows M * 2 != columns M then false
  else
    all (fun i =>
           all (fun j => eqb ops (get ops M i j) 0
                         && eqb ops (get ops M j (rows M + i)) 0)
               (iota i.+1 (rows M - i.+1)))
        (iota 0 (rows M - 1)).

(** The first loop of [solve_linear_eq_with_LU], on (y_copy, y_prime). *)
Definition forward_step (LU : Matrix T) (n i : nat) (st : Matrix T * Matrix T)
    : Matrix T * Matrix T :=
  let '(y_copy, y_prime) := st in
  let y_prime :=
    set ops y_prime i 0 (div ops (get ops y_copy i 0) (getL ops LU i i)) in
  let y_copy :=
    for_range i.+1 n
      (fun j y_copy =>
         set ops y_copy j 0
           (sub ops (get ops y_copy j 0)
              (mul ops (getL ops LU j i) (get ops y_prime i 0))))
      y_copy in
  (y_copy, y_prime).

(** The second loop, on (y_prime, x). *)
Definition backward_step (LU : Matrix T) (n i : nat) (st : Matrix T * Matrix T)
    : Matrix T * Matrix T :=
  let '(y_prime, x) := st in
  let x := set ops x i 0 (div ops (get ops y_prime i 0) (getU ops LU n i i)) in
  let y_prime :=
    for_down 0 i
      (fun j y_prime =>
         set ops y_prime j 0
           (sub ops (get ops y_prime j 0)
              (mul ops (getU ops LU n j i) (get ops x i 0))))
      y_prime in
  (y_prime, x).

(** [solve_linear_eq_with_LU]; [None] stands for the [MatrixException] of
    the checks and of the two calls of [partial]. *)
Definition solve_linear_eq_with_LU (LU y : Matrix T) (do_check : bool)
    : option (Matrix T) :=
  if do_check && ~~ isLU LU then None
  else if (columns y != 1) || (rows y != rows LU) then None
  else if (columns LU < rows LU + 0) || (columns LU < rows LU + rows LU) then None
  else
    let n := rows LU in
    let y_copy := copy y in
    let y_prime := blank ops (rows y) 1 in
    let y_prime := (for_range 0 n (forward_step LU n) (y_copy, y_prime)).2 in
    let x := blank ops (rows y) 1 in
    Some (for_down 0 n (backward_step LU n) (y_prime, x)).2.

End SolveLU.

Section ColumnLoops.

Variable T : Type.
Variable ops : num_ops T.

Lemma for_column_spec (g : nat -> T -> T) (Y : Matrix T) (lo hi : nat) :
  columns Y = 1 -> lo <= hi ->
  let Y' := for_range lo hi (fun j Y => set ops Y j 0 (g j (get ops Y j 0))) Y in
  [/\ rows Y' = rows Y, columns Y' = 1 &
      forall r, get ops Y' r 0 =
        if lo <= r < hi then g r (get ops Y r 0) else get ops Y r 0].
Proof.
move=> HC Hle Y'; rewrite /Y'.
apply: (@for_range_ind _ (fun k X =>
  [/\ rows X = rows Y, columns X = 1 &
      forall r, get ops X r 0 =
        if lo <= r < k then g r (get ops Y r 0) else get ops Y r 0])) => //.
  by split=> // r; case: (leqP lo r) => //=; rewrite ltnNge => ->.
move=> k X /andP [Hk1 Hk2] [RX CX GX]; split=> // r.
rewrite get_set ?CX // !GX eqxx andbT ltnS [r <= k]leq_eqVlt ltnn andbF.
by case: (r =P k) => [->|_] //=; rewrite ?Hk1 ?andbF.
Qed.

Lemma for_column_down_spec (g : nat -> T -> T) (Y : Matrix T) (lo hi : nat) :
  columns Y = 1 -> lo <= hi ->
  let Y' := for_down lo hi (fun j Y => set ops Y j 0 (g j (get ops Y j 0))) Y in
  [/\ rows Y' = rows Y, columns Y' = 1 &
      forall r, get ops Y' r 0 =
        if lo <= r < hi then g r (get ops Y r 0) else get ops Y r 0].
Proof.
move=> HC Hle Y'; rewrite /Y'.
apply: (@for_down_ind _ (fun k X =>
  [/\ rows X = rows Y, columns X = 1 &
      forall r, get ops X r 0 =
        if k <= r < hi then g r (get ops Y r 0) else get ops Y r 0])) => //.
  by split=> // r; case: (leqP hi r) => //=; rewrite ?andbF // ltnNge => ->.
move=> k X /andP [Hk1 Hk2] [RX CX GX]; split=> // r.
rewrite get_set ?CX // !GX eqxx andbT ltnn /= [k <= r]leq_eqVlt [k == r]eq_sym.
by case: (r =P k) => [->|_] //=; rewrite ?Hk2.
Qed.

End ColumnLoops.

Section FieldSolveLU.

Variable F : fieldType.

Import GRing.Theory.
Local Open Scope ring_scope.

Local Notation fops := (field_ops F).

Lemma isLU_spec (LU : Matrix F) :
  isLU fops LU ->
  columns LU = (rows LU * 2)%N /\
  forall i j, (i < j)%N -> (j < rows LU)%N ->
    get fops LU i j = 0 /\ getU fops LU (rows LU) j i = 0.
Proof.
rewrite /isLU; case: (_ =P columns LU) => [E|] //= /allP H; split=> // i j Hij Hj.
have Hi: i \in iota 0 (rows LU - 1).
  rewrite mem_iota /= add0n subn1.
  by apply: leq_trans Hij _; rewrite -ltnS (ltn_predK Hj).
have /allP Hrow := H _ Hi.
have Hir: (i < rows LU)%N by exact: ltn_trans Hij Hj.
have Hjm: j \in iota i.+1 (rows LU - i.+1).
  by rewrite mem_iota Hij /= subnKC.
by have /andP [/eqP -> /eqP] := Hrow _ Hjm; rewrite /getU addnC.
Qed.

Lemma forward_spec (LU y : Matrix F) (n : nat) :
  columns y = 1%N ->
  (forall k, (k < n)%N -> getL fops LU k k != 0) ->
  let y_prime :=
    (for_range 0 n (forward_step fops LU n) (y, blank fops (rows y) 1)).2 in
  [/\ rows y_prime = rows y, columns y_prime = 1%N &
      forall r, (r < n)%N ->
        \sum_(0 <= k < r.+1) getL fops LU r k * get fops y_prime k 0 = get fops y r 0].
Proof.
move=> Cy Hd y_prime.
rewrite /y_prime.
suff: (fun i st =>
    [/\ rows st.2 = rows y /\ columns st.2 = 1%N,
        forall r, (r < i)%N ->
          \sum_(0 <= k < r.+1) getL fops LU r k * get fops st.2 k 0
          = get fops y r 0 &
        columns st.1 = 1%N /\
        forall j, (i <= j)%N -> (j < n)%N ->
          get fops st.1 j 0 =
            get fops y j 0
            - \sum_(0 <= k < i) getL fops LU j k * get fops st.2 k 0]) n
    (for_range 0 n (forward_step fops LU n) (y, blank fops (rows y) 1)).
  by case=> [[R C] H _].
apply: (@for_range_ind _ (fun i st =>
    [/\ rows st.2 = rows y /\ columns st.2 = 1%N,
        forall r, (r < i)%N ->
          \sum_(0 <= k < r.+1) getL fops LU r k * get fops st.2 k 0
          = get fops y r 0 &
        columns st.1 = 1%N /\
        forall j, (i <= j)%N -> (j < n)%N ->
          get fops st.1 j 0 =
            get fops y j 0
            - \sum_(0 <= k < i) getL fops LU j k * get fops st.2 k 0])) => //.
  - split=> //; split=> // j _ _.
    by rewrite big_geq // subr0.
  - move=> i [yc yp] /andP [_ Hi] /= [[Ryp Cyp] Ha [Cyc Hb]].
    set yp' := set fops yp i 0 _.
    have Gyp': forall k, get fops yp' k 0 =
        if k == i then get fops yc i 0 / getL fops LU i i else get fops yp k 0.
      by move=> k; rewrite /yp' get_set ?Cyp // eqxx andbT.
    have [Ryc' Cyc' Gyc'] := @for_column_spec F fops
      (fun j v => v - getL fops LU j i * get fops yp' i 0) yc i.+1 n Cyc Hi.
    split=> //.
    + move=> r; rewrite ltnS leq_eqVlt => /orP [/eqP ->|Hr].
        rewrite big_nat_recr //= Gyp' eqxx [_ * (_ / _)]mulrC divfK ?Hd // Hb //.
        have ->: \sum_(0 <= k < i) getL fops LU i k * get fops yp' k 0
               = \sum_(0 <= k < i) getL fops LU i k * get fops yp k 0.
          rewrite !big_nat; apply: eq_bigr => k /andP [_ Hk].
          by rewrite Gyp' (ltn_eqF Hk).
        by rewrite addrC subrK.
      rewrite -(Ha r Hr) !big_nat; apply: eq_bigr => k /andP [_ Hk].
      by rewrite Gyp' (ltn_eqF (leq_trans Hk Hr)).
    + split=> // j Hj Hjn; rewrite Gyc' Hj Hjn /= Hb ?(ltnW Hj) //.
      rewrite big_nat_recr //= opprD addrA; congr (_ - _ - _).
      rewrite !big_nat; apply: eq_bigr => k /andP [_ Hk].
      by rewrite Gyp' (ltn_eqF Hk).
Qed.

Lemma backward_spec (LU yp0 : Matrix F) (n : nat) :
  columns yp0 = 1%N ->
  (forall k, (k < n)%N -> getU fops LU n k k != 0) ->
  let x :=
    (for_down 0 n (backward_step fops LU n) (yp0, blank fops (rows yp0) 1)).2 in
  [/\ rows x = rows yp0, columns x = 1%N &
      forall r, (r < n)%N ->
        \sum_(r <= k < n) getU fops LU n r k * get fops x k 0 = get fops yp0 r 0].
Proof.
move=> Cy Hd x.
rewrite /x.
suff: (fun i st =>
    [/\ rows st.2 = rows yp0 /\ columns st.2 = 1%N,
        forall r, (i <= r)%N -> (r < n)%N ->
          \sum_(r <= k < n) getU fops LU n r k * get fops st.2 k 0
          = get fops yp0 r 0 &
        columns st.1 = 1%N /\
        forall j, (j < i)%N ->
          get fops st.1 j 0 =
            get fops yp0 j 0
            - \sum_(i <= k < n) getU fops LU n j k * get fops st.2 k 0]) 0%N
    (for_down 0 n (backward_step fops LU n) (yp0, blank fops (rows yp0) 1)).
  by case=> [[R C] H _]; split=> // r Hr; apply: H.
apply: (@for_down_ind _ (fun i st =>
    [/\ rows st.2 = rows yp0 /\ columns st.2 = 1%N,
        forall r, (i <= r)%N -> (r < n)%N ->
          \sum_(r <= k < n) getU fops LU n r k * get fops st.2 k 0
          = get fops yp0 r 0 &
        columns st.1 = 1%N /\
        forall j, (j < i)%N ->
          get fops st.1 j 0 =
            get fops yp0 j 0
            - \sum_(i <= k < n) getU fops LU n j k * get fops st.2 k 0])) => //.
  - split=> //.
      by move=> r Hr1 Hr2; move: (leq_ltn_trans Hr1 Hr2); rewrite ltnn.
    by split=> // j _; rewrite big_geq // subr0.
  - move=> i [yp xx] /andP [_ Hi] /= [[Rx Cx] Ha [Cyp Hb]].
    set x' := set fops xx i 0 _.
    have Gx': forall k, get fops x' k 0 =
        if k == i then get fops yp i 0 / getU fops LU n i i else get fops xx k 0.
      by move=> k; rewrite /x' get_set ?Cx // eqxx andbT.
    have [Ryp' Cyp' Gyp'] := @for_column_down_spec F fops
      (fun j v => v - getU fops LU n j i * get fops x' i 0) yp 0 i Cyp (leq0n i).
    split=> //.
    + move=> r; rewrite leq_eqVlt => /orP [/eqP <-|Hr] Hrn.
        rewrite big_ltn //= Gx' eqxx [_ * (_ / _)]mulrC divfK ?Hd // Hb //.
        have ->: \sum_(i.+1 <= k < n) getU fops LU n i k * get fops x' k 0
               = \sum_(i.+1 <= k < n) getU fops LU n i k * get fops xx k 0.
          rewrite !big_nat; apply: eq_bigr => k /andP [Hk _].
          by rewrite Gx' (gtn_eqF Hk).
        by rewrite subrK.
      rewrite -(Ha r Hr Hrn) !big_nat; apply: eq_bigr => k /andP [Hk _].
      by rewrite Gx' (gtn_eqF (leq_trans Hr Hk)).
    + split=> // j Hj; have Hj': (j < i.+1)%N by exact: ltnW.
      rewrite Gyp' /= Hj (Hb j Hj').
      have E: \sum_(i.+1 <= k < n) getU fops LU n j k * get fops x' k 0
            = \sum_(i.+1 <= k < n) getU fops LU n j k * get fops xx k 0.
        rewrite !big_nat; apply: eq_bigr => k /andP [Hk _].
        by rewrite Gx' (gtn_eqF Hk).
      by rewrite [in RHS]big_ltn // opprD addrA E addrAC.
Qed.

Lemma solve_linear_eq_with_LU_spec (LU y : Matrix F) :
  let n := rows LU in
  isLU fops LU -> columns y = 1%N -> rows y = n ->
  (forall k, (k < n)%N -> getL fops LU k k != 0 /\ getU fops LU n k k != 0) ->
  exists x,
    [/\ solve_linear_eq_with_LU fops LU y true = Some x,
        rows x = n, columns x = 1%N &
        mx_of n n LU *m Umx n LU *m mx_of n 1 x = mx_of n 1 y].
Proof.
move=> n HLU Cy Ry Hd.
have [CLU Htri] := isLU_spec HLU.
have HdL: forall k, (k < n)%N -> getL fops LU k k != 0 by move=> k /Hd [].
have HdU: forall k, (k < n)%N -> getU fops LU n k k != 0 by move=> k /Hd [].
have Ryn: rows y == rows LU by rewrite Ry.
rewrite /solve_linear_eq_with_LU HLU Cy Ryn /= CLU addn0 muln2 -addnn.
rewrite ltnNge leq_addr /= ltnn /copy -/n.
have [Rp Cp Gp] := forward_spec Cy HdL.
set y_prime := (for_range 0 _ _ _).2 in Rp Cp Gp *.
have := backward_spec Cp HdU; rewrite Rp.
set x := (for_down 0 _ _ _).2 => -[Rx Cx Gx].
exists x; split=> //; first by rewrite Rx Ry.
have EU: Umx n LU *m mx_of n 1 x = mx_of n 1 y_prime.
  apply/matrixP => r c; rewrite !mxE ord1 -(Gx r) //.
  rewrite (eq_bigr (fun k : 'I_n => getU fops LU n r k * get fops x k 0));
    first by move=> k _; rewrite !mxE.
  rewrite -(big_mkord xpredT (fun k => getU fops LU n r k * get fops x k 0)).
  rewrite (@big_cat_nat _ _ _ r) //=; first exact: ltnW.
  rewrite big_nat big1 ?add0r // => k /andP [_ Hk].
  by have [_ ->] := Htri k r Hk (ltn_ord r); rewrite mul0r.
rewrite -mulmxA EU.
apply/matrixP => r c; rewrite !mxE ord1 -(Gp r) //.
rewrite (eq_bigr (fun k : 'I_n => getL fops LU r k * get fops y_prime k 0));
  first by move=> k _; rewrite !mxE.
rewrite -(big_mkord xpredT (fun k => getL fops LU r k * get fops y_prime k 0)).
rewrite (@big_cat_nat _ _ _ r.+1) //=.
rewrite [X in _ + X]big_nat [X in _ + X]big1 ?addr0 // => k /andP [Hk Hkn].
by have [E _] := Htri r k Hk Hkn; rewrite /getL E mul0r.
Qed.

Lemma isLU_intro (LU : Matrix F) :
  columns LU = (rows LU * 2)%N ->
  (forall i j, (i < j)%N -> (j < rows LU)%N ->
     get fops LU i j = 0 /\ getU fops LU (rows LU) j i = 0) ->
  isLU fops LU.
Proof.
move=> HC H; rewrite /isLU HC eqxx /=.
apply/allP => i; rewrite mem_iota /= add0n => Hi.
apply/allP => j; rewrite mem_iota => /andP [Hij Hj].
have Hir: (i.+1 <= rows LU)%N.
  by apply: leq_trans Hi _; rewrite subn1; exact: leq_pred.
move: Hj; rewrite subnKC // => Hj.
have [-> E] := H i j Hij Hj.
by move: E; rewrite /getU addnC => ->; rewrite eqxx.
Qed.

(** With [do_check] set, [solve_linear_eq_with_LU] throws exactly when the
    matrix has not the shape and the zeros of an LU decomposition or [y] is
    not a column of as many rows.  Otherwise, when no diagonal element of
    [L] and [U] is zero, it returns the column [x] with [L * U * x = y]. *)
Theorem solve_linear_eq_with_LU_solves (LU y : Matrix F) :
  let n := rows LU in
  (forall k, (k < n)%N -> getL fops LU k k != 0 /\ getU fops LU n k k != 0) ->
  if isLU fops LU && (columns y == 1%N) && (rows y == n) then
    exists x,
      [/\ solve_linear_eq_with_LU fops LU y true = Some x,
          rows x = n, columns x = 1%N &
          mx_of n n LU *m Umx n LU *m mx_of n 1 x = mx_of n 1 y]
  else solve_linear_eq_with_LU fops LU y true = None.
Proof.
move=> n Hd.
case HLU: (isLU fops LU) => /=; last by rewrite /solve_linear_eq_with_LU HLU.
case: (columns y =P 1%N) => [Cy|/eqP Cy] /=; last first.
  by rewrite /solve_linear_eq_with_LU HLU /= (negbTE Cy).
case: (rows y =P n) => [Ry|/eqP Ry] /=; last first.
  by rewrite /solve_linear_eq_with_LU HLU /= (negbTE Ry) orbT.
exact: solve_linear_eq_with_LU_spec.
Qed.

(** The solution computed from the result of [decomposeLUP] (as after
    [decomposeLU], which drops [pivot]) solves the system of the matrix
    with its columns permuted by [pivot]: [x] is the solution of the system
    of the matrix itself up to that permutation of its components. *)
Theorem solve_after_decomposeLUP (M y : Matrix F) :
  let n := rows M in
  rows y = n -> columns y = 1%N ->
  match decomposeLUP fops M true with
  | None => rows M <> columns M \/ \det (mx_of n n M) = 0
  | Some (LU, _, pivot) =>
      exists2 s : 'S_n,
        (forall c : 'I_n, nth 0%N pivot c = s c :> nat) &
        exists2 x,
          solve_linear_eq_with_LU fops LU y true = Some x &
          col_perm s (mx_of n n M) *m mx_of n 1 x = mx_of n 1 y
  end.
Proof.
move=> n Ry Cy.
case Esq: (rows M == columns M); last first.
  by rewrite /decomposeLUP /isSquare Esq /=; left; move/eqP; rewrite Esq.
have HC: columns M = n by rewrite -(eqP Esq).
have := @decomposeLUP_inv F M n (erefl _) HC.
case: (decomposeLUP fops M true) => [[[LU pivot_num] pivot]|] /=; last by right.
move=> [[R C Hdet Hzero Hdiag] Hpivs HL Hsz [s Hs HLU]].
exists s => //.
have HisLU: isLU fops LU.
  apply: isLU_intro; rewrite R // => i j Hij Hj; split.
  - exact: HL.
  - by apply: Hzero => //; exact: ltn_trans Hij Hj.
have Hd: forall k, (k < rows LU)%N ->
    getL fops LU k k != 0 /\ getU fops LU (rows LU) k k != 0.
  rewrite R => k Hk; split; last exact: Hpivs.
  by rewrite Hdiag // oner_eq0.
have Ry': rows y = rows LU by rewrite R.
have [x [Ex Rx Cx]] := solve_linear_eq_with_LU_spec HisLU Cy Ry' Hd.
rewrite R => Hx; exists x => //.
have EL: mx_of n n LU = Lmx n n LU.
  apply/matrixP => r c; rewrite !mxE ltn_ord /=.
  case: (ltngtP c r) => Hrc //.
  - by rewrite -/(getL fops LU r c) HL // -val_eqE /= (ltn_eqF Hrc).
  - have ->: c = r by exact/val_inj.
    by rewrite -/(getL fops LU r r) Hdiag // eqxx.
by rewrite -HLU -EL.
Qed.

End FieldSolveLU.

(** A decomposition of two rows, [L = (1 0; 3 1)] and [U = (2 1; 0 4)],
    and two right-hand sides. *)
Definition rational_LU : Matrix rat :=
  MkMatrix 2 4 [seq rat_of_nat k | k <- [:: 1; 0; 2; 1; 3; 1; 0; 4]].

Definition rational_column2 : Matrix rat :=
  MkMatrix 2 1 [seq rat_of_nat k | k <- [:: 5; 6]].

Definition rational_column3 : Matrix rat :=
  MkMatrix 3 1 [seq rat_of_nat k | k <- [:: 1; 2; 3]].

Lemma solve_linear_eq_with_LU_solves_witness :
  exists x,
    solve_linear_eq_with_LU (field_ops rat) rational_LU rational_column2 true
      = Some x /\
    (mx_of 2 2 rational_LU *m Umx 2 rational_LU *m mx_of 2 1 x
     = mx_of 2 1 rational_column2)%R.
Proof.
have Hd: forall k, k < 2 ->
    getL (field_ops rat) rational_LU k k != 0%R /\
    getU (field_ops rat) rational_LU 2 k k != 0%R.
  by move=> [|[|k]] // _; split; vm_compute.
move: (@solve_linear_eq_with_LU_solves rat rational_LU rational_column2 Hd).
set c := (_ && _ && _).
have ->: c = true by rewrite /c; vm_compute.
by case=> x [E _ _ H]; exists x; split.
Defined.

Lemma solve_after_decomposeLUP_witness :
  match decomposeLUP (field_ops rat) rational_3x3 true with
  | None => True
  | Some (LU, _, pivot) =>
      exists2 x,
        solve_linear_eq_with_LU (field_ops rat) LU rational_column3 true = Some x &
        exists s : 'S_3,
          (col_perm s (mx_of 3 3 rational_3x3) *m mx_of 3 1 x
           = mx_of 3 1 rational_column3)%R
  end.
Proof.
move: (@solve_after_decomposeLUP rat rational_3x3 rational_column3
         (erefl 3) (erefl 1)).
set d := decomposeLUP _ _ _.
case: d => [[[LU pivot_num] pivot]|] // [s _ [x Ex Hx]].
by exists x => //; exists s.
Defined.

(** ** Views of the later revision: [transpose] and [partial]

    The view of a matrix is a type built from [MatrixView] by the templates
    [MatrixViewTranspose] and [MatrixViewPartial]; the type functions of
    [MatrixViewBuilder] are functions on these types here.  The one run-time
    datum of a view is the [partial_prop] of its [MatrixViewPartial]. *)

Inductive view_kind := Partial | Transpose.

(** [priority_t]: [enum { Partial = 0, Transpose }] *)
Definition priority (k : view_kind) : nat :=
  match k with Partial => 0 | Transpose => 1 end.

Inductive view_t :=
| MatrixView
| MatrixViewTranspose (BaseView : view_t)
| MatrixViewPartial (BaseView : view_t).

Definition wrap (V1 : view_kind) (V2 : view_t) : view_t :=
  match V1 with
  | Transpose => MatrixViewTranspose V2
  | Partial => MatrixViewPartial V2
  end.

(** [sort_t<V1, V2>] *)
Definition sort_t (V1 : view_kind) (V : view_t) : view_t :=
  match V with
  | MatrixView => wrap V1 V
  | MatrixViewTranspose V3 =>
      if priority Transpose <= priority V1 then wrap V1 V
      else MatrixViewTranspose (wrap V1 V3)
  | MatrixViewPartial V3 =>
      if priority Partial <= priority V1 then wrap V1 V
      else MatrixViewPartial (wrap V1 V3)
  end.

(** [remove_t<RemoveView>] *)
Fixpoint remove_t (RemoveView : view_kind) (V : view_t) : view_t :=
  match V with
  | MatrixView => MatrixView
  | MatrixViewTranspose V1 =>
      if RemoveView is Transpose then remove_t RemoveView V1
      else MatrixViewTranspose (remove_t RemoveView V1)
  | MatrixViewPartial V1 =>
      if RemoveView is Partial then remove_t RemoveView V1
      else MatrixViewPartial (remove_t RemoveView V1)
  end.

(** [add_t<AddView>] *)
Fixpoint add_t (AddView : view_kind) (V : view_t) : view_t :=
  match V with
  | MatrixView => wrap AddView MatrixView
  | MatrixViewTranspose V1 => sort_t Transpose (add_t AddView V1)
  | MatrixViewPartial V1 => sort_t Partial (add_t AddView V1)
  end.

(** [switch_t<SwitchView>]: off, on, off, ... *)
Fixpoint switch_t (SwitchView : view_kind) (V : view_t) : view_t :=
  match V with
  | MatrixView => wrap SwitchView MatrixView
  | MatrixViewTranspose V1 =>
      if SwitchView is Transpose then remove_t SwitchView V1
      else sort_t Transpose (switch_t SwitchView V1)
  | MatrixViewPartial V1 =>
      if SwitchView is Partial then remove_t SwitchView V1
      else sort_t Partial (switch_t SwitchView V1)
  end.

(** [once_t<OnceView>]: off, on, on, ... *)
Definition once_t (OnceView : view_kind) (V : view_t) : view_t :=
  add_t OnceView (remove_t OnceView V).

Definition transpose_t : view_t -> view_t := switch_t Transpose.
Definition partial_t : view_t -> view_t := once_t Partial.

(** [MatrixViewProperty] *)
Fixpoint transposed (V : view_t) : bool :=
  match V with
  | MatrixView => false
  | MatrixViewTranspose _ => true
  | MatrixViewPartial V1 => transposed V1
  end.

Fixpoint partialized (V : view_t) : bool :=
  match V with
  | MatrixView => false
  | MatrixViewTranspose V1 => partialized V1
  | MatrixViewPartial _ => true
  end.


Record partial_prop_t := PartialProp {
  p_rows : nat;
  p_row_offset : nat;
  p_columns : nat;
  p_column_offset : nat
}.

(** The members [rows], [columns], [i] and [j] of the three views. *)
Fixpoint view_size (V : view_t) (partial_prop : partial_prop_t)
    (_rows _columns : nat) : nat * nat :=
  match V with
  | MatrixView => (_rows, _columns)
  | MatrixViewTranspose BaseView =>
      let s := view_size BaseView partial_prop _rows _columns in (s.2, s.1)
  | MatrixViewPartial _ => (p_rows partial_prop, p_columns partial_prop)
  end.

Fixpoint view_ij (V : view_t) (partial_prop : partial_prop_t) (i j : nat)
    : nat * nat :=
  match V with
  | MatrixView => (i, j)
  | MatrixViewTranspose BaseView => view_ij BaseView partial_prop j i
  | MatrixViewPartial BaseView =>
      view_ij BaseView partial_prop
        (i + p_row_offset partial_prop) (j + p_column_offset partial_prop)
  end.

(** [MatrixViewBuilder::set_partial] *)
Definition set_partial (V : view_t) (prop : partial_prop_t)
    (new_rows new_columns row_offset column_offset : nat) : partial_prop_t :=
  if transposed V then
    PartialProp new_columns (p_row_offset prop + column_offset)
      new_rows (p_column_offset prop + row_offset)
  else
    PartialProp new_rows (p_row_offset prop + row_offset)
      new_columns (p_column_offset prop + column_offset).

Section ViewedMatrix.

Variable T : Type.
Variable ops : num_ops T.

(** [Matrix<T, Array2D_Dense, ViewType>]: the storage, which a view shares
    with its original, and the view. *)
Record ViewedMatrix := MkViewed {
  storage : Matrix T;
  view : view_t;
  partial_prop : partial_prop_t
}.

Definition v_rows (M : ViewedMatrix) : nat :=
  (view_size (view M) (partial_prop M) (rows (storage M)) (columns (storage M))).1.

Definition v_columns (M : ViewedMatrix) : nat :=
  (view_size (view M) (partial_prop M) (rows (storage M)) (columns (storage M))).2.

(** [operator()(row, column)] *)
Definition v_get (M : ViewedMatrix) (row column : nat) : T :=
  let ij := view_ij (view M) (partial_prop M) row column in
  get ops (storage M) ij.1 ij.2.

(** The constructor from a matrix of another view: the new view is built
    by default and [MatrixViewBuilder::copy] brings the [partial_prop] over
    when both views have one. *)
Definition with_view (M : ViewedMatrix) (V : view_t) : ViewedMatrix :=
  MkViewed (storage M) V
    (if partialized V && partialized (view M) then partial_prop M
     else PartialProp 0 0 0 0).

(** [transpose] *)
Definition transpose (M : ViewedMatrix) : ViewedMatrix :=
  with_view M (transpose_t (view M)).

(** [partial]; [None] stands for the [MatrixException]. *)
Definition partial (M : ViewedMatrix)
    (new_rows new_columns row_offset column_offset : nat) : option ViewedMatrix :=
  let res := with_view M (partial_t (view M)) in
  if (v_rows M < new_rows + row_offset) || (v_columns M < new_columns + column_offset)
  then None
  else
    Some (MkViewed (storage res) (view res)
            (set_partial (view res) (partial_prop res)
               new_rows new_columns row_offset column_offset)).

(** [rowVector] and [columnVector] *)
Definition rowVector (M : ViewedMatrix) (row : nat) : option ViewedMatrix :=
  partial M 1 (v_columns M) row 0.
Definition columnVector (M : ViewedMatrix) (column : nat) : option ViewedMatrix :=
  partial M (v_rows M) 1 0 column.




End ViewedMatrix.

Section ViewFacts.

Variable T : Type.
Variable ops : num_ops T.



End ViewFacts.

(** ** Views of the earlier revision

    There the view is [MatrixView<is_transposed, is_partialized>], with the
    two flags as template arguments and the member [partial]. *)

Module Earlier.

Section Views.

Variable T : Type.
Variable ops : num_ops T.

(** [partial] is left as it is in memory by the constructors that do not
    set it. *)
Variable uninitialized : partial_prop_t.

Record MatrixView := MkView {
  transposed : bool;
  partialized : bool;
  partial : partial_prop_t
}.

(** [Converter<is_transposed, is_partialized>]: the two flags of
    [transposed_t] ([void] is the plain view) and of [partial_t]. *)
Definition transposed_t (is_transposed is_partialized : bool) : bool * bool :=
  if is_transposed && ~~ is_partialized then (false, false)
  else (~~ is_transposed, is_partialized).

Definition partial_t (is_transposed is_partialized : bool) : bool * bool :=
  (is_transposed, true).

(** [MatrixView(const MatrixView<is_transposed2, is_partialized2> &another)] *)
Definition convert (flags : bool * bool) (another : MatrixView) : MatrixView :=
  MkView flags.1 flags.2
    (if partialized another && flags.2 then partial another else uninitialized).

Record ViewedMatrix := MkViewed {
  storage : Matrix T;
  view : MatrixView
}.

Definition v_rows (M : ViewedMatrix) : nat :=
  if partialized (view M)
  then (if transposed (view M) then p_columns (partial (view M))
        else p_rows (partial (view M)))
  else (if transposed (view M) then columns (storage M) else rows (storage M)).

Definition v_columns (M : ViewedMatrix) : nat :=
  if partialized (view M)
  then (if transposed (view M) then p_rows (partial (view M))
        else p_columns (partial (view M)))
  else (if transposed (view M) then rows (storage M) else columns (storage M)).

(** [operator()(row, column)] *)
Definition v_get (M : ViewedMatrix) (row column : nat) : T :=
  get ops (storage M)
    (if partialized (view M)
     then (if transposed (view M)
           then column + p_column_offset (partial (view M))
           else row + p_row_offset (partial (view M)))
     else (if transposed (view M) then column else row))
    (if partialized (view M)
     then (if transposed (view M)
           then row + p_row_offset (partial (view M))
           else column + p_column_offset (partial (view M)))
     else (if transposed (view M) then row else column)).

(** [transpose] *)
Definition transpose (M : ViewedMatrix) : ViewedMatrix :=
  MkViewed (storage M)
    (convert (transposed_t (transposed (view M)) (partialized (view M))) (view M)).

(** [partial]; [None] stands for the [MatrixException]. *)
Definition partial_of (M : ViewedMatrix)
    (new_rows new_columns row_offset column_offset : nat) : option ViewedMatrix :=
  let res_view :=
    convert (partial_t (transposed (view M)) (partialized (view M))) (view M) in
  let prop := partial res_view in
  let prop :=
    if ~~ partialized (view M)
    then PartialProp (p_rows prop) 0 (p_columns prop) 0 else prop in
  let prop :=
    if transposed (view M) then
      PartialProp new_columns (p_row_offset prop + column_offset)
        new_rows (p_column_offset prop + row_offset)
    else
      PartialProp new_rows (p_row_offset prop + row_offset)
        new_columns (p_column_offset prop + column_offset) in
  if (rows (storage M) < p_row_offset prop + p_rows prop)
     || (columns (storage M) < p_column_offset prop + p_columns prop)
  then None
  else Some (MkViewed (storage M)
               (MkView (transposed res_view) (partialized res_view) prop)).

(** [rowVector] *)
Definition rowVector (M : ViewedMatrix) (row : nat) : option ViewedMatrix :=
  partial_of M 1 (v_columns M) row 0.

(** In the earlier revision the element access of a view that is both
    transposed and partial adds the column offset to the row of the storage
    and the row offset to its column.  So [partial] on a transposed matrix
    exchanges the two offsets: the part it returns has the stated size but
    starts at row [column_offset] and column [row_offset] of the transposed
    matrix; and the transpose of a part of a plain matrix is the transpose
    of the part at the exchanged offsets.  On matrices that are not
    transposed [partial] starts at the stated offsets, and [transpose]
    exchanges sizes and indices of a matrix that is not partial. *)
Theorem partial_of_transposed (M M' : ViewedMatrix)
    (new_rows new_columns row_offset column_offset : nat) :
  partial_of M new_rows new_columns row_offset column_offset = Some M' ->
  [/\ v_rows M' = new_rows /\ v_columns M' = new_columns,
      forall i j,
        v_get M' i j =
          if transposed (view M)
          then v_get M (i + column_offset) (j + row_offset)
          else v_get M (i + row_offset) (j + column_offset),
      v_rows (transpose M) = v_columns M /\ v_columns (transpose M) = v_rows M,
      ~~ partialized (view M) ->
        forall i j, v_get (transpose M) i j = v_get M j i &
      ~~ transposed (view M) -> ~~ partialized (view M) ->
        forall i j,
          v_get (transpose M') i j = v_get M (j + column_offset) (i + row_offset)].
Proof.
rewrite /partial_of; case: ifP => // _ [<-].
case: M => S [t p prop]; rewrite /v_rows /v_columns /v_get /=.
case: t; case: p => /=; split=> // i j; rewrite ?add0n //.
- by rewrite -!addnA ![_ + p_row_offset prop]addnC ![_ + p_column_offset prop]addnC.
- by rewrite -!addnA ![_ + p_row_offset prop]addnC ![_ + p_column_offset prop]addnC.
Qed.

End Views.

(** ** [decomposeLU] of the earlier revision

    The factors are computed element by element, row after row, on the
    storage of a matrix without a view. *)

Section DecomposeLU.

Variable T : Type.
Variable ops : num_ops T.

(** The turn of the two loops of [decomposeLU] for the element [(i, j)]. *)
Definition LU_element (M : Matrix T) (n i j : nat) (LU : Matrix T) : Matrix T :=
  if j <= i then
    let LU := setU ops LU n i j (if i == j then one ops else zero ops) in
    let LU := setL ops LU i j (get ops M i j) in
    for_range 0 j
      (fun k LU =>
         setL ops LU i j
           (sub ops (getL ops LU i j)
              (mul ops (getL ops LU i k) (getU ops LU n k j))))
      LU
  else
    let LU := setL ops LU i j (zero ops) in
    let LU := setU ops LU n i j (get ops M i j) in
    let LU :=
      for_range 0 i
        (fun k LU =>
           setU ops LU n i j
             (sub ops (getU ops LU n i j)
                (mul ops (getL ops LU i k) (getU ops LU n k j))))
        LU in
    setU ops LU n i j (div ops (getU ops LU n i j) (getL ops LU i i)).

(** [decomposeLU] of the earlier revision: no row or column is exchanged.
    L in the columns [0, n) and U in the columns [n, 2n) of the result. *)
Definition decomposeLU (M : Matrix T) (do_check : bool) : option (Matrix T) :=
  if do_check && ~~ isSquare M then None
  else
    Some (for_range 0 (rows M)
            (fun i LU =>
               for_range 0 (columns M)
                 (fun j LU => LU_element M (columns M) i j LU) LU)
            (blank ops (rows M) (columns M * 2))).

End DecomposeLU.

Section FieldDecomposeLU.

Variable F : fieldType.

Import GRing.Theory.
Local Open Scope ring_scope.

Local Notation fops := (field_ops F).

(** The sum that the inner loops subtract. *)
Definition partial_sum (LU : Matrix F) (n i j m : nat) : F :=
  \sum_(0 <= k < m) getL fops LU i k * getU fops LU n k j.

Lemma LU_element_spec (M LU : Matrix F) (n i j : nat) :
  (i < n)%N -> (j < n)%N -> rows LU = n -> columns LU = (n * 2)%N ->
  let LU' := LU_element fops M n i j LU in
  [/\ rows LU' = n, columns LU' = (n * 2)%N,
      forall r c, (r < n)%N -> (c < n)%N ->
        getL fops LU' r c =
          if (r == i) && (c == j) then
            (if (j <= i)%N then get fops M i j - partial_sum LU n i j j else 0)
          else getL fops LU r c &
      forall r c, (r < n)%N -> (c < n)%N ->
        getU fops LU' n r c =
          if (r == i) && (c == j) then
            (if (j <= i)%N then (i == j)%:R
             else (get fops M i j - partial_sum LU n i j i) / getL fops LU i i)
          else getU fops LU n r c].
Proof.
move=> Hi Hj R C; rewrite /LU_element.
case: (leqP j i) => Hji.
- (* the element of L *)
  set LU1 := setL fops (setU fops LU n i j _) i j _.
  have [R1 C1]: rows LU1 = n /\ columns LU1 = (n * 2)%N by [].
  have GL1: forall r c, (r < n)%N -> (c < n)%N ->
      getL fops LU1 r c =
        if (r == i) && (c == j) then get fops M i j else getL fops LU r c.
    by move=> r c Hr Hc; rewrite (@getL_setL _ _ _ n) // getL_setU.
  have GU1: forall r c, (r < n)%N -> (c < n)%N ->
      getU fops LU1 n r c =
        if (r == i) && (c == j) then (i == j)%:R else getU fops LU n r c.
    move=> r c Hr Hc; rewrite getU_setL // getU_setU //.
    by case: ifP => // _; case: (i == j).
  apply: (@for_range_ind _ (fun m X =>
    [/\ rows X = n, columns X = (n * 2)%N,
      forall r c, (r < n)%N -> (c < n)%N ->
        getL fops X r c =
          if (r == i) && (c == j) then get fops M i j - partial_sum LU n i j m
          else getL fops LU r c &
      forall r c, (r < n)%N -> (c < n)%N ->
        getU fops X n r c =
          if (r == i) && (c == j) then (i == j)%:R else getU fops LU n r c])) => //.
    split=> // r c Hr Hc; rewrite ?GL1 ?GU1 //.
    by rewrite /partial_sum big_geq // subr0.
  move=> m X /andP [_ Hm] [RX CX GLX GUX].
  have Hmn: (m < n)%N by exact: ltn_trans Hm Hj.
  split=> // r c Hr Hc.
    rewrite (@getL_setL _ _ _ n) // !GLX // !GUX // !eqxx /=.
    rewrite (ltn_eqF Hm) andbT (ltn_eqF (leq_trans Hm Hji)).
    case: ifP => [_|->] //.
    by rewrite /partial_sum big_nat_recr //= opprD addrA.
  by rewrite getU_setL // GUX.
- (* the element of U *)
  set LU1 := setU fops (setL fops LU i j _) n i j _.
  have [R1 C1]: rows LU1 = n /\ columns LU1 = (n * 2)%N by [].
  have GL1: forall r c, (r < n)%N -> (c < n)%N ->
      getL fops LU1 r c = if (r == i) && (c == j) then 0 else getL fops LU r c.
    by move=> r c Hr Hc; rewrite getL_setU // (@getL_setL _ _ _ n).
  have GU1: forall r c, (r < n)%N -> (c < n)%N ->
      getU fops LU1 n r c =
        if (r == i) && (c == j) then get fops M i j else getU fops LU n r c.
    by move=> r c Hr Hc; rewrite getU_setU // getU_setL.
  set LU2 := for_range 0 i _ LU1.
  have [R2 C2 GL2 GU2]: [/\ rows LU2 = n, columns LU2 = (n * 2)%N,
      forall r c, (r < n)%N -> (c < n)%N ->
        getL fops LU2 r c = if (r == i) && (c == j) then 0 else getL fops LU r c &
      forall r c, (r < n)%N -> (c < n)%N ->
        getU fops LU2 n r c =
          if (r == i) && (c == j) then get fops M i j - partial_sum LU n i j i
          else getU fops LU n r c].
    rewrite /LU2.
    apply: (@for_range_ind _ (fun m X =>
      [/\ rows X = n, columns X = (n * 2)%N,
        forall r c, (r < n)%N -> (c < n)%N ->
          getL fops X r c = if (r == i) && (c == j) then 0 else getL fops LU r c &
        forall r c, (r < n)%N -> (c < n)%N ->
          getU fops X n r c =
            if (r == i) && (c == j) then get fops M i j - partial_sum LU n i j m
            else getU fops LU n r c])) => //.
      split=> // r c Hr Hc; rewrite ?GL1 ?GU1 //.
      by rewrite /partial_sum big_geq // subr0.
    move=> m X /andP [_ Hm] [RX CX GLX GUX].
    have Hmn: (m < n)%N by exact: ltn_trans Hm Hi.
    split=> // r c Hr Hc; first by rewrite getL_setU // GLX.
    rewrite getU_setU // !GUX // !GLX // !eqxx /=.
    have ->: (m == j) = false by apply/negbTE; rewrite neq_ltn (ltn_trans Hm Hji).
    rewrite andbT (ltn_eqF Hm) /=.
    case: ifP => [_|->] //.
    by rewrite /partial_sum big_nat_recr //= opprD addrA.
  split=> // r c Hr Hc; first by rewrite getL_setU // GL2.
  rewrite getU_setU // !GU2 // GL2 // !eqxx /=.
  by rewrite (ltn_eqF Hji); case: ifP => [_|->].
Qed.


(** The elements that the two loops have computed when the turn of the
    element [(i, j)] starts. *)
Definition computed (i j r c : nat) : bool :=
  ((r < i) || ((r == i) && (c < j)))%N.

(** What the two loops leave at the element [(r, c)] of L and of U. *)
Definition crout_at (M LU : Matrix F) (n r c : nat) : Prop :=
  getL fops LU r c =
    (if (c <= r)%N then get fops M r c - partial_sum LU n r c c else 0) /\
  getU fops LU n r c =
    (if (c <= r)%N then (r == c)%:R
     else (get fops M r c - partial_sum LU n r c r) / getL fops LU r r).

Lemma partial_sum_ext (LU LU' : Matrix F) (n r c m : nat) :
  (forall k, (k < m)%N ->
     getL fops LU' r k = getL fops LU r k /\
     getU fops LU' n k c = getU fops LU n k c) ->
  partial_sum LU' n r c m = partial_sum LU n r c m.
Proof.
move=> H; rewrite /partial_sum !big_nat; apply: eq_bigr => k /andP [_ Hk].
by case: (H k Hk) => -> ->.
Qed.

Lemma LU_element_inv (M LU : Matrix F) (n i j : nat) :
  (i < n)%N -> (j < n)%N -> rows LU = n -> columns LU = (n * 2)%N ->
  (forall r c, (r < n)%N -> (c < n)%N -> computed i j r c ->
     crout_at M LU n r c) ->
  let LU' := LU_element fops M n i j LU in
  [/\ rows LU' = n, columns LU' = (n * 2)%N &
      forall r c, (r < n)%N -> (c < n)%N -> computed i j.+1 r c ->
        crout_at M LU' n r c].
Proof.
move=> Hi Hj R C H LU'.
have [R' C' GL GU] := LU_element_spec M Hi Hj R C.
have sameL: forall a b, (a < n)%N -> (b < n)%N ->
    (a == i) && (b == j) = false -> getL fops LU' a b = getL fops LU a b.
  by move=> a b Ha Hb E; rewrite /LU' GL // E.
have sameU: forall a b, (a < n)%N -> (b < n)%N ->
    (a == i) && (b == j) = false -> getU fops LU' n a b = getU fops LU n a b.
  by move=> a b Ha Hb E; rewrite /LU' GU // E.
have sums: forall r c m, (r < n)%N -> (c < n)%N -> (m <= n)%N ->
    (forall k, (k < m)%N ->
       (r == i) && (k == j) = false /\ (k == i) && (c == j) = false) ->
    partial_sum LU' n r c m = partial_sum LU n r c m.
  move=> r c m Hr Hc Hm Hk; apply: partial_sum_ext => k Hkm.
  have Hkn: (k < n)%N by exact: leq_trans Hkm Hm.
  by case: (Hk k Hkm) => E1 E2; rewrite sameL // sameU.
split=> // r c Hr Hc Hd.
case E: ((r == i) && (c == j)).
  case/andP: E => /eqP Er /eqP Ec; rewrite {r}Er {c}Ec in Hr Hc Hd *.
  split.
    rewrite /LU' GL // !eqxx /=; case: (leqP j i) => Hji //.
    congr (_ - _); symmetry; apply: sums => // [|k Hk]; first exact: ltnW.
    by rewrite (ltn_eqF Hk) andbF (ltn_eqF (leq_trans Hk Hji)).
  rewrite /LU' GU // !eqxx /=; case: (leqP j i) => Hji //.
  rewrite -/LU' sameL ?(ltn_eqF Hji) ?andbF //.
  congr (_ / _); congr (_ - _); symmetry.
  apply: sums => // [|k Hk]; first exact: ltnW.
  by rewrite (ltn_eqF Hk) (ltn_eqF (ltn_trans Hk Hji)) andbF; split.
have Hd0: computed i j r c.
  move: Hd E; rewrite /computed ltnS [(c <= j)%N]leq_eqVlt.
  by case: (r < i)%N => //=; case: (r == i) => //=; case: (c == j).
have [HL HU] := H r c Hr Hc Hd0.
have Hri: (r <= i)%N.
  by move: Hd0; rewrite /computed => /orP [/ltnW|/andP [/eqP -> _]].
have Hcj: (r == i)%N -> (c < j)%N.
  move=> /eqP Eri; move: Hd0; rewrite /computed Eri ltnn eqxx /=.
  by [].
split.
  rewrite sameL // HL; case: (leqP c r) => Hcr //.
  congr (_ - _); symmetry; apply: sums => // [|k Hk]; first exact: ltnW.
  split; last by rewrite (ltn_eqF (leq_trans Hk (leq_trans Hcr Hri))).
  case Eri: (r == i) => //=.
  by apply: ltn_eqF; exact: ltn_trans Hk (Hcj Eri).
rewrite sameU // HU; case: (leqP c r) => Hcr //.
have Err: (r == i) && (r == j) = false.
  case Eri: (r == i) => //=.
  by apply: ltn_eqF; exact: ltn_trans Hcr (Hcj Eri).
rewrite sameL //.
congr (_ / _); congr (_ - _); symmetry.
apply: sums => // [|k Hk]; first exact: ltnW.
split; last by rewrite (ltn_eqF (leq_trans Hk Hri)).
case Eri: (r == i) => //=.
by apply: ltn_eqF; exact: ltn_trans Hk (ltn_trans Hcr (Hcj Eri)).
Qed.

Lemma decomposeLU_inv (M : Matrix F) (n : nat) :
  rows M = n -> columns M = n ->
  let LU :=
    for_range 0 n
      (fun i LU =>
         for_range 0 n (fun j LU => LU_element fops M n i j LU) LU)
      (blank fops n (n * 2)) in
  [/\ rows LU = n, columns LU = (n * 2)%N &
      forall r c, (r < n)%N -> (c < n)%N -> crout_at M LU n r c].
Proof.
move=> R C LU.
suff: [/\ rows LU = n, columns LU = (n * 2)%N &
        forall r c, (r < n)%N -> (c < n)%N -> (r < n)%N -> crout_at M LU n r c].
  by case=> R' C' H; split=> // r c Hr Hc; exact: H.
rewrite /LU.
apply: (@for_range_ind _ (fun i X =>
  [/\ rows X = n, columns X = (n * 2)%N &
      forall r c, (r < n)%N -> (c < n)%N -> (r < i)%N -> crout_at M X n r c]))
  => // i X /andP [_ Hi] [RX CX HX].
have: [/\ rows (for_range 0 n (fun j LU => LU_element fops M n i j LU) X) = n,
          columns (for_range 0 n (fun j LU => LU_element fops M n i j LU) X)
            = (n * 2)%N &
          forall r c, (r < n)%N -> (c < n)%N -> computed i n r c ->
            crout_at M
              (for_range 0 n (fun j LU => LU_element fops M n i j LU) X) n r c].
  apply: (@for_range_ind _ (fun j Y =>
    [/\ rows Y = n, columns Y = (n * 2)%N &
        forall r c, (r < n)%N -> (c < n)%N -> computed i j r c ->
          crout_at M Y n r c])) => //.
    split=> // r c Hr Hc; rewrite /computed ltn0 andbF orbF; exact: HX.
  move=> j Y /andP [_ Hj] [RY CY HY].
  exact: LU_element_inv.
case=> R' C' H'; split=> // r c Hr Hc Hr'.
apply: H' => //; rewrite /computed Hc andbT.
by rewrite orbC -leq_eqVlt -ltnS.
Qed.

(** [decomposeLU] of a square matrix without a view returns L and U side by
    side: L is lower triangular, U is upper triangular with ones on its
    diagonal, and L U is the matrix provided that no element [L(i, i)] that
    the loops divide by, those of all rows but the last, is zero.  No row
    and no column is exchanged to avoid such an element. *)
Theorem decomposeLU_factors (M : Matrix F) (do_check : bool) :
  isSquare M ->
  let n := rows M in
  exists LU,
    decomposeLU fops M do_check = Some LU /\
    [/\ rows LU = n, columns LU = (n * 2)%N,
        forall i j, (i < j < n)%N -> getL fops LU i j = 0,
        forall i j, (j <= i < n)%N -> getU fops LU n i j = (i == j)%:R &
        (forall i, (i.+1 < n)%N -> getL fops LU i i != 0) ->
        mx_of n n LU *m Umx n LU = mx_of n n M].
Proof.
move=> /eqP Hsq n.
have Cn: columns M = n by rewrite -Hsq.
rewrite /decomposeLU /isSquare Hsq eqxx andbF Cn -/n.
have [R' C' H] := @decomposeLU_inv M n (erefl n) Cn.
eexists; split; first by reflexivity.
split=> //.
- move=> i j /andP [Hij Hj].
  have Hi: (i < n)%N by exact: ltn_trans Hij Hj.
  by case: (H i j Hi Hj) => -> _; rewrite leqNgt Hij.
- move=> i j /andP [Hji Hi].
  have Hj: (j < n)%N by exact: leq_ltn_trans Hji Hi.
  by case: (H i j Hi Hj) => _ ->; rewrite Hji.
move=> Hd; apply/matrixP => r c; rewrite !mxE.
set LU := for_range _ _ _ _ in H *.
have E: \sum_(k < n) mx_of n n LU r k * Umx n LU k c
        = \sum_(0 <= k < n) getL fops LU r k * getU fops LU n k c.
  by rewrite big_mkord; apply: eq_bigr => k _; rewrite !mxE.
rewrite {}E.
have [HL HU] := H r c (ltn_ord r) (ltn_ord c).
have zeroL: forall k, (r < k < n)%N -> getL fops LU r k = 0.
  move=> k /andP [Hrk Hk].
  by case: (H r k (ltn_ord r) Hk) => -> _; rewrite leqNgt Hrk.
have unitU: forall k, (c <= k < n)%N -> getU fops LU n k c = (k == c)%:R.
  move=> k /andP [Hck Hk].
  by case: (H k c Hk (ltn_ord c)) => _ ->; rewrite Hck.
case: (leqP c r) HL HU => Hcr HL HU.
- rewrite (@big_cat_nat _ _ _ c.+1) //=.
  rewrite big_nat_recr //= -/(partial_sum LU n r c c).
  rewrite unitU ?leqnn ?ltn_ord // eqxx mulr1.
  have ->: \sum_(c.+1 <= k < n) getL fops LU r k * getU fops LU n k c = 0.
    rewrite big_nat; apply: big1 => k /andP [Hck Hk].
    by rewrite unitU ?(ltnW Hck) // (gtn_eqF Hck) mulr0.
  by rewrite addr0 HL addrC subrK.
- rewrite (@big_cat_nat _ _ _ r.+1) //=.
  rewrite big_nat_recr //= -/(partial_sum LU n r c r).
  have Hrr: getL fops LU r r != 0.
    by apply: Hd; exact: leq_ltn_trans Hcr (ltn_ord c).
  rewrite HU mulrC divfK //.
  have ->: \sum_(r.+1 <= k < n) getL fops LU r k * getU fops LU n k c = 0.
    rewrite big_nat; apply: big1 => k /andP [Hrk Hk].
    by rewrite zeroL ?Hrk // mul0r.
  by rewrite addr0 addrC subrK.
Qed.

End FieldDecomposeLU.

End Earlier.



Definition earlier_transposed_3x3 : Earlier.ViewedMatrix rat :=
  Earlier.transpose (PartialProp 7 7 7 7)
    (Earlier.MkViewed rational_3x3
       (Earlier.MkView false false (PartialProp 7 7 7 7))).

Lemma partial_of_transposed_witness :
  exists Q,
    Earlier.rowVector (PartialProp 7 7 7 7) earlier_transposed_3x3 1 = Some Q /\
    Earlier.v_get (field_ops rat) Q 0 0
      = Earlier.v_get (field_ops rat) earlier_transposed_3x3 0 1.
Proof.
eexists; split; first by reflexivity.
by have [_ -> _ _ _] := @Earlier.partial_of_transposed rat (field_ops rat)
  (PartialProp 7 7 7 7) earlier_transposed_3x3 _ 1 3 1 0 (erefl _).
Defined.

(** A matrix that [decomposeLU] of the earlier revision factors without
    dividing by zero: L = (2 0; 6 4) and U = (1 1/2; 0 1). *)
Definition rational_2x2 : Matrix rat :=
  MkMatrix 2 2 [seq rat_of_nat k | k <- [:: 2; 1; 6; 7]].

Lemma decomposeLU_factors_witness :
  exists LU,
    Earlier.decomposeLU (field_ops rat) rational_2x2 true = Some LU /\
    (mx_of 2 2 LU *m Umx 2 LU = mx_of 2 2 rational_2x2)%R.
Proof.
move: (@Earlier.decomposeLU_factors rat rational_2x2 true (erefl true)).
set d := Earlier.decomposeLU _ _ _.
case=> LU [E [_ _ _ _ HP]]; exists LU; split=> //; apply: HP.
move=> [|i] // _.
have ->: LU = odflt LU d by rewrite E.
by rewrite /d; vm_compute.
Defined.
